(** * SeniorVoice: speech-to-command pipeline

    A shallow embedding of [speech_model.py], [backend/intent_model.py]
    and the assembly step of [backend/app.py], with the properties of the
    specification stated and settled against it.

    Conventions of the embedding.
    - A Python [str] is a list of Unicode code points ([list N]).
    - A Python [float] (and a NumPy [float32] sample) is an exact rational
      ([Q]): arithmetic is the arithmetic of the reals, without rounding
      error, overflow, infinities or NaN.
    - A [dict] used as a record of optional keys is a record of options; the
      response payload is a [gmap] from key to JSON value; the ordered table
      [INTENT_KEYWORDS] is an association list.
    - A raised exception is the [Err] case of a result type. *)

From Stdlib Require Import ZArith NArith QArith Qround Qabs Qminmax List String Ascii Bool Lia Lqa.
From stdpp Require Import gmap strings list.

(* ===================================================================== *)
(** * Python strings and the [re] module *)
(* ===================================================================== *)

Module Py.

Definition str := list N.

(** A literal of the source, as code points. *)
Definition u (s : string) : str := map N_of_ascii (list_ascii_of_string s).

Fixpoint str_eqb (a b : str) : bool :=
  match a, b with
  | [], [] => true
  | x :: a', y :: b' => (x =? y)%N && str_eqb a' b'
  | _, _ => false
  end.

(** [str.isspace] for one character: the white-space table of CPython
    ([_PyUnicode_IsWhitespace]); [str.strip], [str.split] and the regex
    class [\s] all use it. *)
Definition isspace (c : N) : bool :=
  ((9 <=? c) && (c <=? 13) || (28 <=? c) && (c <=? 32) || (c =? 133)
   || (c =? 160) || (c =? 5760) || (8192 <=? c) && (c <=? 8202)
   || (c =? 8232) || (c =? 8233) || (c =? 8239) || (c =? 8287)
   || (c =? 12288))%N.

(** The part of the Unicode character database that the program reaches
    through [str.lower], [str.capitalize], [\w], [\d] and [int]. *)
Class Unicode := {
  uc_lower : str -> str;
  uc_capitalize : str -> str;
  uc_isalnum : N -> bool;
  uc_isdecimal : N -> bool;
  uc_digit : N -> Z
}.

Definition ascii_upper (c : N) : bool := ((65 <=? c) && (c <=? 90))%N.
Definition ascii_lower (c : N) : bool := ((97 <=? c) && (c <=? 122))%N.
Definition ascii_digit (c : N) : bool := ((48 <=? c) && (c <=? 57))%N.
Definition ascii_to_lower (c : N) : N := if ascii_upper c then (c + 32)%N else c.
Definition ascii_to_upper (c : N) : N := if ascii_lower c then (c - 32)%N else c.

(** The database restricted to ASCII: the tables agree with Python on every
    code point below 128 and leave the others caseless and non-alphanumeric. *)
Definition ascii_tables : Unicode := {|
  uc_lower := map ascii_to_lower;
  uc_capitalize := fun s =>
    match s with
    | [] => []
    | c :: s' => ascii_to_upper c :: map ascii_to_lower s'
    end;
  uc_isalnum := fun c => ascii_upper c || ascii_lower c || ascii_digit c;
  uc_isdecimal := ascii_digit;
  uc_digit := fun c => (Z.of_N c - 48)%Z
|}.

(** ** [str] methods *)

Fixpoint lstrip (s : str) : str :=
  match s with
  | c :: s' => if isspace c then lstrip s' else s
  | [] => []
  end.

Definition rstrip (s : str) : str := rev (lstrip (rev s)).
Definition strip (s : str) : str := rstrip (lstrip s).

(** [s.split()]: maximal runs of non-space characters. [acc] holds the
    current run, reversed. *)
Fixpoint split_go (acc : str) (s : str) : list str :=
  match s with
  | [] => match acc with [] => [] | _ => [rev acc] end
  | c :: s' =>
      if isspace c
      then match acc with [] => split_go [] s' | _ => rev acc :: split_go [] s' end
      else split_go (c :: acc) s'
  end.

Definition split (s : str) : list str := split_go [] s.

(** [sep.join(l)] *)
Fixpoint join (sep : str) (l : list str) : str :=
  match l with
  | [] => []
  | [x] => x
  | x :: l' => x ++ sep ++ join sep l'
  end.

Fixpoint startswith (p s : str) : bool :=
  match p, s with
  | [], _ => true
  | a :: p', b :: s' => (a =? b)%N && startswith p' s'
  | _ :: _, [] => false
  end.

Definition endswith (p s : str) : bool := startswith (rev p) (rev s).

(** [p in s] *)
Fixpoint contains (p s : str) : bool :=
  startswith p s
  || match s with
     | [] => false
     | _ :: s' => contains p s'
     end.

(** [s.count(p)]: occurrences that do not overlap, from the left. [skip]
    counts the characters of the last occurrence still to pass. *)
Fixpoint count_go (p : str) (skip : nat) (s : str) : nat :=
  match s with
  | [] => 0
  | _ :: s' =>
      match skip with
      | S k => count_go p k s'
      | O => if startswith p s then S (count_go p (length p - 1) s')
             else count_go p 0 s'
      end
  end.

Definition count (p s : str) : nat :=
  match p with
  | [] => S (length s)
  | _ => count_go p 0 s
  end.

(** [s.replace(old, new)] *)
Fixpoint replace_go (old new : str) (skip : nat) (s : str) : str :=
  match s with
  | [] => []
  | c :: s' =>
      match skip with
      | S k => replace_go old new k s'
      | O => if startswith old s then new ++ replace_go old new (length old - 1) s'
             else c :: replace_go old new 0 s'
      end
  end.

Definition replace (old new s : str) : str :=
  match old with
  | [] => new ++ flat_map (fun c => c :: new) s
  | _ => replace_go old new 0 s
  end.

(** [int(s)] for a string of decimal digits. *)
Definition int_of_digits `{Unicode} (s : str) : Z :=
  fold_left (fun acc c => (10 * acc + uc_digit c)%Z) s 0%Z.

(** [f"{n:02d}"] and [f"{n:04d}"] for [0 <= n]: decimal digits, padded with
    zeros on the left to [width]. *)
Fixpoint digits_go (fuel : nat) (n : Z) (acc : str) : str :=
  match fuel with
  | O => acc
  | S f =>
      let acc' := (48 + Z.to_N (n mod 10))%N :: acc in
      if (n <? 10)%Z then acc' else digits_go f (n / 10)%Z acc'
  end.

Definition digits (n : Z) : str := digits_go (S (Z.to_nat (Z.log2 n))) n [].

Definition zfill (width : nat) (s : str) : str :=
  repeat 48%N (width - length s) ++ s.

Definition format_d (width : nat) (n : Z) : str := zfill width (digits n).

(** ** Regular expressions

    The fragment of [re] that the program uses, with the semantics of
    CPython's backtracking matcher: alternatives are tried from the left,
    quantifiers are greedy, a group captures the text of its last match. *)

Inductive regex :=
| RChar (c : N)                 (* a literal character *)
| RSet (p : N -> bool)          (* a character class *)
| REps                          (* the empty pattern *)
| RSeq (a b : regex)
| RAlt (a b : regex)            (* a|b *)
| RStar (a : regex)             (* a* *)
| RGroup (n : nat) (a : regex)  (* the n-th capturing group *)
| RBackref (n : nat)            (* \n *)
| RWordB.                       (* \b *)

Definition RPlus (a : regex) : regex := RSeq a (RStar a).
Definition ROpt (a : regex) : regex := RAlt a REps.

Fixpoint RLit (s : str) : regex :=
  match s with
  | [] => REps
  | [c] => RChar c
  | c :: s' => RSeq (RChar c) (RLit s')
  end.

Fixpoint RSeqs (l : list regex) : regex :=
  match l with
  | [] => REps
  | [a] => a
  | a :: l' => RSeq a (RSeqs l')
  end.

Fixpoint RAlts (l : list regex) : regex :=
  match l with
  | [] => RSet (fun _ => false)
  | [a] => a
  | a :: l' => RAlt a (RAlts l')
  end.

Definition in_range (lo hi : string) (c : N) : bool :=
  match u lo, u hi with
  | [l], [h] => ((l <=? c) && (c <=? h))%N
  | _, _ => false
  end.

Definition one_of (cs : string) (c : N) : bool := existsb (N.eqb c) (u cs).

(** [\w], [\d], [\s] and [.] *)
Definition isword `{Unicode} (c : N) : bool := uc_isalnum c || (c =? 95)%N.
Definition RWord `{Unicode} : regex := RSet isword.
Definition RDigit `{Unicode} : regex := RSet uc_isdecimal.
Definition RSpace : regex := RSet isspace.
Definition RDot : regex := RSet (fun c => negb (c =? 10)%N).

(** The matcher's state: the character before the cursor, the text from the
    cursor on, the cursor's index, and the groups captured so far. *)
Record mstate := MState {
  m_prev : option N;
  m_rest : str;
  m_pos : nat;
  m_caps : list (nat * str)
}.

Definition m_start (s : str) : mstate := MState None s 0 [].

Definition m_step (st : mstate) : option (N * mstate) :=
  match m_rest st with
  | [] => None
  | c :: s' => Some (c, MState (Some c) s' (S (m_pos st)) (m_caps st))
  end.

Fixpoint m_skip (n : nat) (st : mstate) : mstate :=
  match n with
  | O => st
  | S k => match m_step st with
           | Some (_, st') => m_skip k st'
           | None => st
           end
  end.

Fixpoint cap_get (n : nat) (caps : list (nat * str)) : option str :=
  match caps with
  | [] => None
  | (k, w) :: caps' => if (k =? n)%nat then Some w else cap_get n caps'
  end.

Definition opt_word `{Unicode} (c : option N) : bool :=
  match c with
  | Some x => isword x
  | None => false
  end.

(** [\b] holds where exactly one of the two neighbours is a word character. *)
Definition at_boundary `{Unicode} (st : mstate) : bool :=
  xorb (opt_word (m_prev st)) (opt_word (head (m_rest st))).

(** [rmatch r st k]: match [r] at [st], then continue with [k]; [None] makes
    the matcher backtrack. A star stops when an iteration consumes nothing,
    so [S (length rest)] iterations are never exceeded. *)
Fixpoint rmatch `{Unicode} (r : regex) (st : mstate)
    (k : mstate -> option mstate) : option mstate :=
  match r with
  | RChar c =>
      match m_step st with
      | Some (x, st') => if (x =? c)%N then k st' else None
      | None => None
      end
  | RSet p =>
      match m_step st with
      | Some (x, st') => if p x then k st' else None
      | None => None
      end
  | REps => k st
  | RSeq a b => rmatch a st (fun st' => rmatch b st' k)
  | RAlt a b =>
      match rmatch a st k with
      | Some e => Some e
      | None => rmatch b st k
      end
  | RStar a =>
      (fix loop (n : nat) (st : mstate) : option mstate :=
         match n with
         | O => k st
         | S n' =>
             match rmatch a st (fun st' =>
                     if (m_pos st <? m_pos st')%nat then loop n' st' else None) with
             | Some e => Some e
             | None => k st
             end
         end) (S (length (m_rest st))) st
  | RGroup n a =>
      rmatch a st (fun st' =>
        let w := firstn (m_pos st' - m_pos st) (m_rest st) in
        k (MState (m_prev st') (m_rest st') (m_pos st') ((n, w) :: m_caps st')))
  | RBackref n =>
      match cap_get n (m_caps st) with
      | Some w => if startswith w (m_rest st) then k (m_skip (length w) st) else None
      | None => None
      end
  | RWordB => if at_boundary st then k st else None
  end.

(** A match object: where the match starts, its final state, and the text. *)
Record rmatch_obj := MatchObj {
  mo_start : nat;
  mo_end : mstate;
  mo_text : str
}.

Definition mo_group (m : rmatch_obj) (n : nat) : option str :=
  cap_get n (m_caps (mo_end m)).

(** One attempt at the cursor. With [must_advance] an empty match is refused. *)
Definition match_here `{Unicode} (r : regex) (must_advance : bool) (st : mstate)
    : option mstate :=
  rmatch r (MState (m_prev st) (m_rest st) (m_pos st) []) (fun e =>
    if must_advance && (m_pos e =? m_pos st)%nat then None else Some e).

(** The leftmost match at or after the cursor. *)
Fixpoint search_from `{Unicode} (r : regex) (fuel : nat) (must_advance : bool)
    (st : mstate) : option rmatch_obj :=
  match match_here r must_advance st with
  | Some e => Some (MatchObj (m_pos st) e (firstn (m_pos e - m_pos st) (m_rest st)))
  | None =>
      match fuel, m_step st with
      | S f, Some (_, st') => search_from r f false st'
      | _, _ => None
      end
  end.

(** [re.search(r, s)] *)
Definition search `{Unicode} (r : regex) (s : str) : option rmatch_obj :=
  search_from r (length s) false (m_start s).

(** A replacement template: literal text and group references. *)
Inductive repl_item :=
| TLit (s : str)
| TGroup (n : nat).

Definition expand (t : list repl_item) (e : mstate) : str :=
  flat_map (fun i =>
    match i with
    | TLit s => s
    | TGroup n => match cap_get n (m_caps e) with Some w => w | None => [] end
    end) t.

(** [re.sub(r, t, s)]: every match that does not overlap an earlier one is
    replaced; after an empty match the next one has to advance. *)
Fixpoint sub_go `{Unicode} (r : regex) (t : list repl_item) (fuel : nat)
    (must_advance : bool) (st : mstate) : str :=
  match fuel with
  | O => m_rest st
  | S f =>
      match match_here r must_advance st with
      | Some e =>
          expand t e ++
          (if (m_pos e =? m_pos st)%nat
           then sub_go r t f true st
           else sub_go r t f false
                  (MState (m_prev e) (m_rest e) (m_pos e) []))
      | None =>
          match m_step st with
          | Some (c, st') => c :: sub_go r t f false st'
          | None => []
          end
      end
  end.

Definition sub `{Unicode} (r : regex) (t : list repl_item) (s : str) : str :=
  sub_go r t (2 * length s + 2) false (m_start s).

(** [re.split(r, s)]: the pieces between the matches, each match followed by
    the text of its groups [groups] (the empty string for a group that did
    not take part; the program only splits on patterns whose groups always
    do). *)
Fixpoint split_go_re `{Unicode} (r : regex) (groups : list nat) (fuel : nat)
    (must_advance : bool) (piece : str) (st : mstate) : list str :=
  match fuel with
  | O => [rev piece ++ m_rest st]
  | S f =>
      match match_here r must_advance st with
      | Some e =>
          let caps := map (fun n => match cap_get n (m_caps e) with
                                    | Some w => w | None => [] end) groups in
          rev piece :: caps ++
          (if (m_pos e =? m_pos st)%nat
           then split_go_re r groups f true [] st
           else split_go_re r groups f false []
                  (MState (m_prev e) (m_rest e) (m_pos e) []))
      | None =>
          match m_step st with
          | Some (c, st') => split_go_re r groups f false (c :: piece) st'
          | None => [rev piece]
          end
      end
  end.

Definition re_split `{Unicode} (r : regex) (groups : list nat) (s : str) : list str :=
  split_go_re r groups (2 * length s + 2) false [] (m_start s).

End Py.

(* ===================================================================== *)
(** * Exceptions, [datetime.date] *)
(* ===================================================================== *)

Module Exn.

Inductive exn :=
| ValueError (msg : string)
| OverflowError (msg : string)
| ZeroDivisionError (msg : string)
| EngineError (msg : string).   (* whatever the recognition engine raises *)

(** The outcome of a call that can raise. *)
Inductive result (A : Type) :=
| Ok (a : A)
| Err (e : exn).
Arguments Ok {A} a.
Arguments Err {A} e.

#[global] Instance result_ret : MRet result := @Ok.
#[global] Instance result_bind : MBind result := fun A B f m =>
  match m with
  | Ok a => f a
  | Err e => Err e
  end.

#[global] Instance result_fmap : FMap result := fun A B f m =>
  match m with
  | Ok a => Ok (f a)
  | Err e => Err e
  end.

Definition is_ok {A} (r : result A) : bool :=
  match r with Ok _ => true | Err _ => false end.

End Exn.

Module Date.
Import Py Exn.

(** A [datetime.date] is held as its proleptic Gregorian ordinal
    ([date.toordinal()]): day 1 is 0001-01-01, the last day is 9999-12-31. *)
Definition date := Z.

Definition MAXORDINAL : Z := 3652059.

Definition valid (d : date) : bool := ((1 <=? d) && (d <=? MAXORDINAL))%Z.

Definition is_leap (year : Z) : bool :=
  ((year mod 4 =? 0) && (negb (year mod 100 =? 0) || (year mod 400 =? 0)))%Z.

Definition DAYS_IN_MONTH : list Z := [31; 28; 31; 30; 31; 30; 31; 31; 30; 31; 30; 31]%Z.
Definition DAYS_BEFORE_MONTH : list Z :=
  [0; 31; 59; 90; 120; 151; 181; 212; 243; 273; 304; 334]%Z.

Definition month_entry (table : list Z) (month : Z) : Z :=
  nth (Z.to_nat (month - 1)) table 0%Z.

Definition days_before_year (year : Z) : Z :=
  let y := (year - 1)%Z in (y * 365 + y / 4 - y / 100 + y / 400)%Z.

Definition days_before_month (year month : Z) : Z :=
  (month_entry DAYS_BEFORE_MONTH month
   + (if (2 <? month)%Z && is_leap year then 1 else 0))%Z.

(** [date(year, month, day)], for a valid calendar day. *)
Definition of_ymd (year month day : Z) : date :=
  (days_before_year year + days_before_month year month + day)%Z.

(** [_ord2ymd] of the [datetime] module. *)
Definition ord2ymd (d : date) : Z * Z * Z :=
  let n := (d - 1)%Z in
  let n400 := (n / 146097)%Z in
  let n := (n mod 146097)%Z in
  let year := (n400 * 400 + 1)%Z in
  let n100 := (n / 36524)%Z in
  let n := (n mod 36524)%Z in
  let n4 := (n / 1461)%Z in
  let n := (n mod 1461)%Z in
  let n1 := (n / 365)%Z in
  let n := (n mod 365)%Z in
  let year := (year + n100 * 100 + n4 * 4 + n1)%Z in
  if ((n1 =? 4) || (n100 =? 4))%Z then ((year - 1)%Z, 12%Z, 31%Z)
  else
    let leapyear := ((n1 =? 3) && (negb (n4 =? 24) || (n100 =? 3)))%Z in
    let month := Z.shiftr (n + 50) 5 in
    let preceding :=
      (month_entry DAYS_BEFORE_MONTH month
       + (if (2 <? month)%Z && leapyear then 1 else 0))%Z in
    if (n <? preceding)%Z
    then
      let month := (month - 1)%Z in
      let preceding :=
        (preceding - (month_entry DAYS_IN_MONTH month
                      + (if (month =? 2)%Z && leapyear then 1 else 0)))%Z in
      (year, month, (n - preceding + 1)%Z)
    else (year, month, (n - preceding + 1)%Z).

(** [d.isoformat()] *)
Definition isoformat (d : date) : str :=
  let '(y, m, dd) := ord2ymd d in
  format_d 4 y ++ u "-" ++ format_d 2 m ++ u "-" ++ format_d 2 dd.

(** [d.weekday()]: Monday is 0. *)
Definition weekday (d : date) : Z := ((d + 6) mod 7)%Z.

(** [d + timedelta(days=n)] *)
Definition add_days (d : date) (n : Z) : result date :=
  if valid (d + n)%Z then Ok (d + n)%Z
  else Err (OverflowError "date value out of range").

End Date.

(* ===================================================================== *)
(** * [backend/intent_model.py] *)
(* ===================================================================== *)

Module IntentModel.
Import Py Exn Date.

Definition FILLERS : list str :=
  map u ["euh"; "mmm"; "ben"; "yaani"; "bah"; "heuu"; "uh"; "ah"]%string.

Definition DIALECT_DICT : list (str * str) :=
  map (fun kv => (u (fst kv), u (snd kv)))
    [("sbah", "matin"); ("ghodwa", "demain"); ("ghodwaa", "demain");
     ("doctour", "docteur"); ("docteur", "docteur"); ("chnouwa", "quoi");
     ("lyoum", "aujourdhui"); ("el", EmptyString); ("saa", "heure");
     ("dwa", "medicament"); ("jaw", "meteo"); ("klim", "appelle")]%string.

(** The table keeps its declaration order: [dict.items()] iterates in it. *)
Definition INTENT_KEYWORDS : list (str * list str) :=
  map (fun kv => (u (fst kv), map u (snd kv)))
    [("create_reminder", ["rappelle"; "rappel"; "souviens"; "rdv"]);
     ("medication_reminder", ["medicament"; "cachet"; "traitement"; "pilule"]);
     ("call_contact", ["appelle"; "appel"; "telephone"; "contacte"]);
     ("emergency_call", ["urgence"; "samu"; "ambulance"; "secours"]);
     ("get_weather", ["meteo"; "temps"; "pluie"; "temperature"]);
     ("set_alarm", ["alarme"; "reveil"; "reveille"]);
     ("check_time", ["quelle heure"; "heure"; "wa9tech"; "temps maintenant"]);
     ("cancel_reminder", ["annule"; "supprime"; "efface"; "enleve le rappel"]);
     ("send_message", ["message"; "sms"; "envoie"; "dis a"]);
     ("play_media", ["musique"; "radio"; "coran"; "quran"; "chanson"])]%string.

Definition CITY_KEYWORDS : list str :=
  map u ["tunis"; "sfax"; "sousse"; "nabeul"; "monastir"; "bizerte"; "gabes";
         "ariana"]%string.

Definition CONTACT_HINTS : list str :=
  map u ["fils"; "fille"; "docteur"; "medecin"; "voisin"; "soeur"; "frere";
         "pharmacie"; "taxi"]%string.

(** [d.get(k)] on a table of pairs *)
Fixpoint dict_get {V} (d : list (str * V)) (k : str) : option V :=
  match d with
  | [] => None
  | (k', v) :: d' => if str_eqb k' k then Some v else dict_get d' k
  end.

(** ** The text normalizer *)

(** [\bfiller\b] *)
Definition filler_re `{Unicode} (filler : str) : regex :=
  RSeqs [RWordB; RLit filler; RWordB].

(** [[.,;:!?]+] *)
Definition punct_re : regex := RPlus (RSet (one_of ".,;:!?")).

(** [\b(\w+)(\s+\1\b)+] *)
Definition repeat_re `{Unicode} : regex :=
  RSeqs [RWordB; RGroup 1 (RPlus RWord);
         RPlus (RGroup 2 (RSeqs [RPlus RSpace; RBackref 1; RWordB]))].

(** [\s+] *)
Definition spaces_re : regex := RPlus RSpace.

Definition clean_text `{Unicode} (text : str) : str :=
  let value := strip (uc_lower text) in
  let value :=
    fold_left (fun value filler => sub (filler_re filler) [TLit (u " ")] value)
      FILLERS value in
  let value := sub punct_re [TLit (u " ")] value in
  let value := sub repeat_re [TGroup 1] value in
  let value := strip (sub spaces_re [TLit (u " ")] value) in
  value.

(** [DIALECT_DICT.get(tok, tok)] *)
Definition dialect_of (tok : str) : str :=
  match dict_get DIALECT_DICT tok with
  | Some v => v
  | None => tok
  end.

Definition normalize_dialect (text : str) : str :=
  let tokens := split text in
  let mapped :=
    map dialect_of
      (List.filter (fun tok => negb (str_eqb (dialect_of tok) [])) tokens) in
  join (u " ") mapped.

(** The two passes of the text normalizer, as [parse_command] chains them. *)
Definition normalize `{Unicode} (text : str) : str :=
  normalize_dialect (clean_text text).

(** ** The intent classifier *)

(** [sum(1 for keyword in keywords if keyword in text)] *)
Definition keyword_score (keywords : list str) (text : str) : Z :=
  Z.of_nat (length (List.filter (fun keyword => contains keyword text) keywords)).

(** The list [scored]: the intents with a match, in declaration order. *)
Definition scored (text : str) : list (Z * str) :=
  flat_map (fun entry =>
    let score := keyword_score (snd entry) text in
    if (0 <? score)%Z then [(score, fst entry)] else []) INTENT_KEYWORDS.

(** Python's order on [str]: lexicographic on code points. *)
Fixpoint str_ltb (a b : str) : bool :=
  match a, b with
  | _, [] => false
  | [], _ :: _ => true
  | x :: a', y :: b' => (x <? y)%N || ((x =? y)%N && str_ltb a' b')
  end.

(** Python's order on the tuples [(score, intent)]. *)
Definition tuple_ltb (p q : Z * str) : bool :=
  (fst p <? fst q)%Z || ((fst p =? fst q)%Z && str_ltb (snd p) (snd q)).

(** [l.sort(reverse=True)]: descending and stable. *)
Fixpoint insert_desc (x : Z * str) (l : list (Z * str)) : list (Z * str) :=
  match l with
  | [] => [x]
  | y :: l' => if tuple_ltb x y then y :: insert_desc x l' else x :: l
  end.

Fixpoint sort_desc (l : list (Z * str)) : list (Z * str) :=
  match l with
  | [] => []
  | x :: l' => insert_desc x (sort_desc l')
  end.

(** [scored[0][1]] after the sort: the intent selected before the overrides. *)
Definition best_intent (text : str) : option str :=
  match sort_desc (scored text) with
  | [] => None
  | (_, intent) :: _ => Some intent
  end.

(** [any(k in text for k in INTENT_KEYWORDS[intent])] *)
Definition any_keyword (intent : string) (text : str) : bool :=
  match dict_get INTENT_KEYWORDS (u intent) with
  | Some keywords => existsb (fun k => contains k text) keywords
  | None => false
  end.

Definition detect_intent (text : str) : str :=
  match best_intent text with
  | None => u "unknown"
  | Some best =>
      if str_eqb best (u "call_contact") && any_keyword "emergency_call" text
      then u "emergency_call"
      else if str_eqb best (u "create_reminder")
              && any_keyword "medication_reminder" text
      then u "medication_reminder"
      else best
  end.

(** ** The slot extractors *)

(** [[01]?\d|2[0-3]] *)
Definition hour_re `{Unicode} : regex :=
  RAlt (RSeq (ROpt (RSet (one_of "01"))) RDigit)
       (RSeq (RChar 50) (RSet (in_range "0" "3"))).

(** [[0-5]\d] *)
Definition minute_re `{Unicode} : regex :=
  RSeq (RSet (in_range "0" "5")) RDigit.

(** [\b([01]?\d|2[0-3])\s*h(?:\s*([0-5]\d))?\b] *)
Definition time_h_re `{Unicode} : regex :=
  RSeqs [RWordB; RGroup 1 hour_re; RStar RSpace; RChar 104;
         ROpt (RSeq (RStar RSpace) (RGroup 2 minute_re)); RWordB].

(** [\b([01]?\d|2[0-3]):([0-5]\d)\b] *)
Definition time_colon_re `{Unicode} : regex :=
  RSeqs [RWordB; RGroup 1 hour_re; RChar 58; RGroup 2 minute_re; RWordB].

(** The first pattern of [patterns] that is found in [text]. *)
Fixpoint first_search `{Unicode} (patterns : list regex) (text : str)
    : option rmatch_obj :=
  match patterns with
  | [] => None
  | pattern :: rest =>
      match search pattern text with
      | Some m => Some m
      | None => first_search rest text
      end
  end.

Definition group_or_empty (m : rmatch_obj) (n : nat) : str :=
  match mo_group m n with
  | Some w => w
  | None => []
  end.

Definition extract_time `{Unicode} (text : str) : option str :=
  match first_search [time_h_re; time_colon_re] text with
  | Some m =>
      let hour := int_of_digits (group_or_empty m 1) in
      let minute :=
        match mo_group m 2 with
        | Some (c :: w) => int_of_digits (c :: w)
        | _ => 0%Z
        end in
      Some (format_d 2 hour ++ u ":" ++ format_d 2 minute)
  | None =>
      if contains (u "matin") text then Some (u "09:00")
      else if contains (u "soir") text then Some (u "20:00")
      else None
  end.

Definition weekdays : list (str * Z) :=
  map (fun kv => (u (fst kv), snd kv))
    [("lundi", 0); ("mardi", 1); ("mercredi", 2); ("jeudi", 3);
     ("vendredi", 4); ("samedi", 5); ("dimanche", 6)]%Z%string.

(** [extract_date(text, reference)]; [today] is what [date.today()] returns. *)
Definition extract_date (text : str) (reference : option date) (today : date)
    : result str :=
  let now := match reference with Some d => d | None => today end in
  if contains (u "demain") text then isoformat <$> add_days now 1
  else if contains (u "apres demain") text then isoformat <$> add_days now 2
  else if contains (u "aujourdhui") text || contains (u "auj") text
  then Ok (isoformat now)
  else
    match find (fun entry => contains (fst entry) text) weekdays with
    | Some (_, idx) =>
        let delta := ((idx - weekday now) mod 7)%Z in
        let delta := if (delta =? 0)%Z then 7%Z else delta in
        isoformat <$> add_days now delta
    | None => Ok (isoformat now)
    end.

Definition extract_city `{Unicode} (text : str) : option str :=
  uc_capitalize <$> find (fun city => contains city text) CITY_KEYWORDS.

(** [(?:appelle|contacte|telephone a)\s+([a-zA-Z0-9' -]+)] *)
Definition contact_re : regex :=
  RSeqs [RAlts [RLit (u "appelle"); RLit (u "contacte"); RLit (u "telephone a")];
         RPlus RSpace;
         RGroup 1 (RPlus (RSet (fun c =>
           in_range "a" "z" c || in_range "A" "Z" c || in_range "0" "9" c
           || one_of "' -" c)))].

(** [\b(demain|aujourdhui|a|a\s+\d|vers|a\s+\d+h)\b] *)
Definition contact_stop_re `{Unicode} : regex :=
  RSeqs [RWordB;
         RGroup 1 (RAlts [RLit (u "demain"); RLit (u "aujourdhui"); RLit (u "a");
                          RSeqs [RChar 97; RPlus RSpace; RDigit];
                          RLit (u "vers");
                          RSeqs [RChar 97; RPlus RSpace; RPlus RDigit; RChar 104]]);
         RWordB].

Definition extract_contact `{Unicode} (text : str) : option str :=
  let from_hints := find (fun hint => contains hint text) CONTACT_HINTS in
  match search contact_re text with
  | Some m =>
      let candidate := strip (group_or_empty m 1) in
      let candidate := strip (hd [] (re_split contact_stop_re [1%nat] candidate)) in
      match candidate with
      | _ :: _ => Some candidate
      | [] => from_hints
      end
  | None => from_hints
  end.

(** [(?:message|sms|envoie)\s+] followed by group 1, the rest of the line *)
Definition message_re : regex :=
  RSeqs [RAlts [RLit (u "message"); RLit (u "sms"); RLit (u "envoie")];
         RPlus RSpace; RGroup 1 (RStar RDot)].

Definition extract_message `{Unicode} (text : str) : str :=
  match search message_re text with
  | Some m =>
      match strip (group_or_empty m 1) with
      | c :: body => uc_capitalize (c :: body)
      | [] => u "Message vocal senior"
      end
  | None => u "Message vocal senior"
  end.

Definition build_reminder_text `{Unicode} (text : str) : str :=
  if contains (u "docteur") text then u "Rendez-vous docteur"
  else
    let stripped :=
      fold_left (fun stripped token => replace token (u " ") stripped)
        (map u ["rappelle moi"; "rappelle"; "demain"; "matin"; "soir";
                "medicament"]%string) text in
    let stripped := strip (sub spaces_re [TLit (u " ")] stripped) in
    match stripped with
    | _ :: _ => uc_capitalize stripped
    | [] => u "Rappel"
    end.

(** ** The command assembler *)

(** A JSON value of the payload. *)
Inductive value :=
| VStr (s : str)
| VFloat (q : Q)
| VNone.

Definition opt_value (o : option str) : value :=
  match o with
  | Some s => VStr s
  | None => VNone
  end.

(** [x or default] for an optional string: [None] and the empty string are both falsy. *)
Definition or_default (o : option str) (default : str) : str :=
  match o with
  | Some (c :: s) => c :: s
  | _ => default
  end.

(** [action in {...}] and [action == ...] *)
Definition is_one_of (action : str) (names : list string) : bool :=
  existsb (fun name => str_eqb action (u name)) names.

(** [parse_command(raw_text)]; [today] is the day [date.today()] returns
    while the call runs. *)
Definition parse_command `{Unicode} (today : date) (raw_text : str)
    : result (gmap string value) :=
  let cleaned := clean_text raw_text in
  let normalized := normalize_dialect cleaned in
  let action := detect_intent normalized in
  let payload : gmap string value :=
    <["confidence" := VFloat 0]>
      (<["normalized_text" := VStr normalized]>
        (<["action" := VStr action]> ∅)) in
  payload ←
    (if is_one_of action ["create_reminder"; "medication_reminder"; "set_alarm"]
     then
       d ← extract_date normalized None today;
       mret (<["text" := VStr (build_reminder_text normalized)]>
              (<["time" := opt_value (extract_time normalized)]>
                (<["date" := VStr d]> payload)))
     else mret payload);
  let payload :=
    if is_one_of action ["call_contact"; "emergency_call"]
    then <["contact" :=
             if is_one_of action ["emergency_call"] then VStr (u "urgence")
             else opt_value (extract_contact normalized)]> payload
    else payload in
  payload ←
    (if is_one_of action ["get_weather"]
     then
       let payload :=
         <["city" := VStr (or_default (extract_city normalized) (u "Tunis"))]>
           payload in
       d ← extract_date normalized None today;
       mret (<["date" := VStr d]> payload)
     else mret payload);
  let payload :=
    if is_one_of action ["check_time"]
    then <["timezone" := VStr (u "Africa/Tunis")]> payload
    else payload in
  payload ←
    (if is_one_of action ["cancel_reminder"]
     then
       d ← extract_date normalized None today;
       mret (<["date" := VStr d]> payload)
     else mret payload);
  let payload :=
    if is_one_of action ["send_message"]
    then <["text" := VStr (extract_message normalized)]>
           (<["contact" :=
               VStr (or_default (extract_contact normalized) (u "famille"))]>
              payload)
    else payload in
  let payload :=
    if is_one_of action ["play_media"]
    then <["media" :=
             VStr (if contains (u "coran") normalized
                      || contains (u "quran") normalized
                   then u "quran"
                   else if contains (u "radio") normalized then u "radio"
                   else u "musique")]> payload
    else payload in
  mret payload.

End IntentModel.

(* ===================================================================== *)
(** * [speech_model.py] *)
(* ===================================================================== *)

Module SpeechModel.
Import Py Exn.

(** ** Arithmetic of [float] *)

Definition Qltb (x y : Q) : bool := negb (Qle_bool y x).

(** [min(a, b)] and [max(a, b)] of Python: the first argument, unless the
    second is strictly better. *)
Definition py_min (a b : Q) : Q := if Qltb b a then b else a.
Definition py_max (a b : Q) : Q := if Qltb a b then b else a.

(** [int(x)]: truncation towards zero. *)
Definition py_int (x : Q) : Z := (Qnum x ÷ Z.pos (Qden x))%Z.

(** [round(x)]: to the nearest integer, a tie to the even one. *)
Definition py_round (x : Q) : Z :=
  let f := Qfloor x in
  let r := (x - inject_Z f)%Q in
  if Qltb r (1 # 2) then f
  else if Qltb (1 # 2) r then (f + 1)%Z
  else if Z.even f then f else (f + 1)%Z.

(** [round(x, 3)] *)
Definition round3 (x : Q) : Q := (py_round (x * 1000) # 1000)%Q.

(** [sum(l)]: from the left, starting at 0; the running total is kept in
    lowest terms. *)
Definition Qsum (l : list Q) : Q := fold_left (fun acc x => Qred (acc + x)) l 0%Q.

(** [sum(l) / len(l)] and [np.mean] *)
Definition mean (l : list Q) : Q := (Qsum l / inject_Z (Z.of_nat (length l)))%Q.

(** [np.sqrt(x) < t] for [0 <= x] and [0 < t]. A square root is not a
    rational: the comparison is made on the squares, where it is exact. *)
Definition sqrt_ltb (x t : Q) : bool := Qltb x (t * t).

Definition TARGET_SR : Z := 16000.

(** [\s+] *)
Definition SPACES : regex := RPlus RSpace.

(** [_ALLOWED_CHAR.fullmatch(ch)]: the class of the source, in its order:
    [A-Z], [a-z], the range from [?] to [?], the Arabic block U+0600-U+06FF,
    [0-9], [\s], and the characters ['?.,!?;:()-]. *)
Definition _ALLOWED_CHAR (ch : N) : bool :=
  in_range "A" "Z" ch || in_range "a" "z" ch || in_range "?" "?" ch
  || ((1536 <=? ch) && (ch <=? 1791))%N || in_range "0" "9" ch || isspace ch
  || one_of "'?.,!?;:()-" ch.

(** [ch] between U+0400 and U+04FF, the Cyrillic block *)
Definition is_cyrillic (ch : N) : bool := ((1024 <=? ch) && (ch <=? 1279))%N.

(** ** Reading and conditioning the audio *)

(** What [wave.open] exposes of a file: the header fields and the bytes of
    the frames. *)
Record wav_file := WavFile {
  wf_channels : Z;
  wf_sampwidth : Z;
  wf_framerate : Z;
  wf_frames : list Z   (* bytes, 0..255 *)
}.

(** [np.frombuffer(raw, dtype=np.int16)]: little-endian 16-bit integers. *)
Fixpoint frombuffer_int16 (raw : list Z) : result (list Z) :=
  match raw with
  | [] => Ok []
  | [_] => Err (ValueError "buffer size must be a multiple of element size")
  | lo :: hi :: raw' =>
      let v := (lo + 256 * hi)%Z in
      let v := if (32768 <=? v)%Z then (v - 65536)%Z else v in
      cons v <$> frombuffer_int16 raw'
  end.

(** [audio.reshape(-1, channels).mean(axis=1)] *)
Fixpoint channel_mean (fuel : nat) (channels : nat) (audio : list Q)
    : result (list Q) :=
  match audio, fuel with
  | [], _ => Ok []
  | _, O => Ok []
  | _, S f =>
      if (length audio <? channels)%nat
      then Err (ValueError "cannot reshape array")
      else cons (mean (firstn channels audio))
             <$> channel_mean f channels (skipn channels audio)
  end.

(** [_read_wav_as_float32], on the opened file. *)
Definition _read_wav_as_float32 (wf : wav_file) : result (list Q * Z) :=
  if negb (wf_sampwidth wf =? 2)%Z
  then Err (ValueError "Only PCM16 WAV is supported.")
  else
    ints ← frombuffer_int16 (wf_frames wf);
    let audio := map (fun v => (inject_Z v / 32768)%Q) ints in
    audio ←
      (if (1 <? wf_channels wf)%Z
       then channel_mean (length audio) (Z.to_nat (wf_channels wf)) audio
       else mret audio);
    mret (audio, wf_framerate wf).

(** [np.linspace(0.0, stop, num=num, endpoint=False)] *)
Definition linspace (stop : Q) (num : nat) : list Q :=
  let step := (stop / inject_Z (Z.of_nat num))%Q in
  map (fun i => (inject_Z (Z.of_nat i) * step)%Q) (seq 0 num).

(** [np.interp(x, xp, fp)] for one abscissa, [xp] increasing: linear between
    the two neighbouring points, constant outside the range of [xp]. *)
Fixpoint interp_in (x : Q) (xp fp : list Q) : Q :=
  match xp, fp with
  | x0 :: xp', y0 :: fp' =>
      match xp', fp' with
      | x1 :: _, y1 :: _ =>
          if Qltb x x1
          then ((y1 - y0) / (x1 - x0) * (x - x0) + y0)%Q
          else interp_in x xp' fp'
      | _, _ => y0
      end
  | _, _ => 0%Q
  end.

Definition interp (xs xp fp : list Q) : list Q :=
  map (fun x =>
         match xp, fp with
         | x0 :: _, y0 :: _ => if Qltb x x0 then y0 else interp_in x xp fp
         | _, _ => 0%Q
         end) xs.

(** The length that [_resample_linear] computes for its output. *)
Definition dst_len_of (size : nat) (src_sr dst_sr : Z) : Z :=
  let duration := (inject_Z (Z.of_nat size) / inject_Z src_sr)%Q in
  py_round (duration * inject_Z dst_sr).

Definition _resample_linear (audio : list Q) (src_sr dst_sr : Z)
    : result (list Q) :=
  if (src_sr =? dst_sr)%Z || (length audio =? 0)%nat then Ok audio
  else if (src_sr =? 0)%Z then Err (ZeroDivisionError "float division by zero")
  else
    let duration := (inject_Z (Z.of_nat (length audio)) / inject_Z src_sr)%Q in
    let dst_len := py_round (duration * inject_Z dst_sr) in
    if (dst_len <=? 1)%Z then Ok audio
    else
      let src_x := linspace duration (length audio) in
      let dst_x := linspace duration (Z.to_nat dst_len) in
      Ok (interp dst_x src_x audio).

(** [np.clip(x, lo, hi)] *)
Definition clip (x lo hi : Q) : Q := Qmin (Qmax x lo) hi.

(** [np.max(np.abs(audio))] of a waveform that is not empty. *)
Definition peak_of (audio : list Q) : Q :=
  match map Qabs audio with
  | [] => 0%Q
  | x :: l => fold_left Qmax l x
  end.

Definition _normalize_peak (audio : list Q) (target_peak : Q) : list Q :=
  match audio with
  | [] => audio
  | _ =>
      let peak := peak_of audio in
      if Qltb peak (1 # 1000000) then audio
      else
        let gain := py_min (target_peak / peak) 6 in
        map (fun x => clip (x * gain) (-1) 1) audio
  end.

(** ** The repetition guard and the quality scorer *)

Definition _is_repetitive `{Unicode} (text : str) : bool :=
  let words :=
    List.filter (fun w => negb (str_eqb w []))
      (re_split SPACES [] (strip (uc_lower text))) in
  if (length words <? 3)%nat then false
  else if (size (list_to_set words : gset str) <=? 2)%nat
          && (4 <=? length words)%nat
  then true
  else
    let pair := join (u " ") (firstn 2 words) in
    if negb (str_eqb pair []) && (3 <=? count pair (uc_lower text))%nat
    then true
    else false.

(** One entry of [result["segments"]]; a key can be absent. *)
Record segment := Segment {
  avg_logprob : option Q;
  no_speech_prob : option Q;
  compression_ratio : option Q
}.

(** What the recognition engine returns for one attempt. *)
Record attempt := Attempt {
  a_text : option str;
  a_language : option str;
  a_segments : option (list segment)
}.

(** [d.get(key, default)] *)
Definition get {A} (o : option A) (default : A) : A :=
  match o with
  | Some a => a
  | None => default
  end.

Definition REPETITION_PENALTY : Q := 18 # 10.

(** The return expression of [_text_quality_score]. *)
Definition score_formula (allowed_ratio avg_logprob avg_nospeech
    compression_penalty cyr_ratio repetition_penalty : Q) : Q :=
  ((25 # 10) * allowed_ratio + avg_logprob - (13 # 10) * avg_nospeech
   - (8 # 10) * compression_penalty - (32 # 10) * cyr_ratio
   - repetition_penalty)%Q.

Definition allowed_ratio_of (text : str) : Q :=
  let length := Nat.max (length text) 1 in
  (inject_Z (Z.of_nat (List.length (List.filter _ALLOWED_CHAR text)))
   / inject_Z (Z.of_nat length))%Q.

Definition cyr_ratio_of (text : str) : Q :=
  let length := Nat.max (length text) 1 in
  (inject_Z (Z.of_nat (List.length (List.filter is_cyrillic text)))
   / inject_Z (Z.of_nat length))%Q.

(** The three means over the segments, or the defaults without segments. *)
Definition avg_logprob_of (result : attempt) : Q :=
  match get (a_segments result) [] with
  | [] => (-15 # 10)%Q
  | segments => mean (map (fun seg => get (avg_logprob seg) (-15 # 10)%Q) segments)
  end.

Definition avg_nospeech_of (result : attempt) : Q :=
  match get (a_segments result) [] with
  | [] => (5 # 10)%Q
  | segments => mean (map (fun seg => get (no_speech_prob seg) (5 # 10)%Q) segments)
  end.

Definition avg_compression_of (result : attempt) : Q :=
  match get (a_segments result) [] with
  | [] => 2%Q
  | segments => mean (map (fun seg => get (compression_ratio seg) 2%Q) segments)
  end.

Definition _text_quality_score `{Unicode} (text : str) (result : attempt) : Q :=
  match text, strip text with
  | [], _ | _, [] => (-999)%Q
  | _, _ =>
      let allowed_ratio := allowed_ratio_of text in
      let cyr_ratio := cyr_ratio_of text in
      let avg_logprob := avg_logprob_of result in
      let avg_nospeech := avg_nospeech_of result in
      let avg_compression := avg_compression_of result in
      let repetition_penalty :=
        if _is_repetitive text then REPETITION_PENALTY else 0%Q in
      let compression_penalty := py_max 0 (avg_compression - (24 # 10)) in
      score_formula allowed_ratio avg_logprob avg_nospeech compression_penalty
        cyr_ratio repetition_penalty
  end.

(** ** The recognition engine and the calls made to it *)

(** The loaded model, as the program sees it: [load] is the outcome of
    [_load_model()], [run audio language] that of [model.transcribe]. *)
Record engine := Engine {
  load : result unit;
  run : list Q -> option str -> result attempt
}.

Inductive event :=
| EvLoad
| EvTranscribe (language : option str).

(** A computation that may call the engine: it extends the trace of calls
    and returns a value or raises. *)
Definition M (A : Type) : Type := list event -> result A * list event.

#[global] Instance M_ret : MRet M := fun A a tr => (Ok a, tr).
#[global] Instance M_bind : MBind M := fun A B f m tr =>
  match m tr with
  | (Ok a, tr') => f a tr'
  | (Err e, tr') => (Err e, tr')
  end.

Definition lift {A} (r : result A) : M A := fun tr => (r, tr).

Definition _load_model (eng : engine) : M unit :=
  fun tr => (load eng, tr ++ [EvLoad]).

(** [_transcribe_attempt(model, audio, language)] *)
Definition _transcribe_attempt (eng : engine) (audio : list Q)
    (language : option str) : M attempt :=
  fun tr => (run eng audio language, tr ++ [EvTranscribe language]).

(** ** [transcribe_audio] *)

Record transcription := Transcription {
  t_text : str;
  t_confidence : Q;
  t_language : str
}.

Definition EMPTY_RESULT : transcription := Transcription [] 0 (u "unknown").

Definition attempts : list (option str) := [None; Some (u "fr"); Some (u "ar")].

(** The loop over [attempts]: the best result so far and its score. *)
Fixpoint select_best `{Unicode} (eng : engine) (audio : list Q)
    (langs : list (option str)) (best_result : option attempt) (best_score : Q)
    : M (option attempt) :=
  match langs with
  | [] => mret best_result
  | lang :: langs' =>
      result ← _transcribe_attempt eng audio lang;
      let text := strip (get (a_text result) []) in
      let score := _text_quality_score text result in
      if Qltb best_score score
      then select_best eng audio langs' (Some result) score
      else select_best eng audio langs' best_result best_score
  end.

(** The confidence before the repetition guard. *)
Definition base_confidence (result : attempt) : Q :=
  match get (a_segments result) [] with
  | [] => (4 # 10)%Q
  | segments =>
      let avg_no_speech :=
        mean (map (fun seg => get (no_speech_prob seg) (5 # 10)%Q) segments) in
      py_max 0 (py_min 1 (1 - avg_no_speech))
  end.

(** The end of [transcribe_audio], from [best_result] to the returned dict. *)
Definition assemble `{Unicode} (best_result : option attempt) : transcription :=
  let result := get best_result (Attempt (Some []) (Some (u "unknown")) (Some [])) in
  let text := strip (get (a_text result) []) in
  let confidence := base_confidence result in
  let '(text, confidence) :=
    if _is_repetitive text && Qltb confidence (75 # 100)
    then ([], py_min confidence (35 # 100))
    else (text, confidence) in
  Transcription text (round3 confidence) (get (a_language result) (u "unknown")).

(** [transcribe_audio] once the audio is conditioned: the two rejections,
    then the engine. *)
Definition recognise `{Unicode} (eng : engine) (audio : list Q) : M transcription :=
  if (Z.of_nat (length audio) <? py_int ((7 # 10) * inject_Z TARGET_SR))%Z
  then mret EMPTY_RESULT
  else
    let quiet :=
      match audio with
      | [] => Qltb 0 (8 # 1000)
      | _ => sqrt_ltb (mean (map (fun x => x * x)%Q audio)) (8 # 1000)
      end in
    if quiet then mret EMPTY_RESULT
    else
      _ ← _load_model eng;
      best_result ← select_best eng audio attempts None (-10000)%Q;
      mret (assemble best_result).

(** The conditioning that [transcribe_audio] applies to the opened file. *)
Definition condition (wf : wav_file) : result (list Q) :=
  '(audio, sr) ← _read_wav_as_float32 wf;
  audio ← _resample_linear audio sr TARGET_SR;
  mret (_normalize_peak audio (85 # 100)).

(** [transcribe_audio(audio_path)]; [open_wav] is the file system seen
    through [wave.open]. *)
Definition transcribe_audio `{Unicode} (eng : engine)
    (open_wav : str -> result wav_file) (audio_path : str) : M transcription :=
  if negb (endswith (u ".wav") (uc_lower audio_path))
  then lift (Err (ValueError
         "Audio format not supported without ffmpeg. Please send WAV audio."))
  else
    audio ← lift (wf ← open_wav audio_path; condition wf);
    recognise eng audio.

End SpeechModel.

(* ===================================================================== *)
(** * [backend/app.py]: the assembly of the response *)
(* ===================================================================== *)

Module App.
Import Py Exn Date IntentModel SpeechModel.

(** The body of the [try] block of [process], after the upload is saved. *)
Definition process_body `{Unicode} (eng : engine)
    (open_wav : str -> result wav_file) (today : date) (temp_path : str)
    : M (gmap string value) :=
  stt ← transcribe_audio eng open_wav temp_path;
  parsed ← lift (parse_command today (t_text stt));
  let parsed := <["confidence" := VFloat (t_confidence stt)]> parsed in
  let parsed := <["raw_text" := VStr (t_text stt)]> parsed in
  let parsed := <["language" := VStr (t_language stt)]> parsed in
  mret parsed.

(** The HTTP answer: the payload with status 200, or the error with 500. *)
Inductive response :=
| Json200 (payload : gmap string value)
| Json500 (error : exn).

Definition process `{Unicode} (eng : engine)
    (open_wav : str -> result wav_file) (today : date) (temp_path : str)
    : list event -> response * list event :=
  fun tr =>
    match process_body eng open_wav today temp_path tr with
    | (Ok parsed, tr') => (Json200 parsed, tr')
    | (Err exc, tr') => (Json500 exc, tr')
    end.

End App.

(* ===================================================================== *)
(** * Vocabulary of the specification *)
(* ===================================================================== *)

Module Spec.
Import Py Exn Date IntentModel SpeechModel App.

(** The highest keyword count that an intent reaches on [text]. *)
Definition max_score (text : str) : Z :=
  fold_right Z.max 0%Z (map fst (scored text)).

(** The intents that reach it, in the order of [INTENT_KEYWORDS]. *)
Definition tied_at_max (text : str) : list str :=
  map snd (List.filter (fun p => (fst p =? max_score text)%Z) (scored text)).

(** Of these, the one declared first. *)
Definition first_declared (text : str) : option str := List.head (tied_at_max text).

(** A token: what [str.split] produces, a non-empty run without white space. *)
Definition is_token (t : str) : bool :=
  negb (str_eqb t []) && forallb (fun c => negb (isspace c)) t.

(** The tokens that [normalize_dialect] joins. *)
Definition mapped_tokens (tokens : list str) : list str :=
  map dialect_of
    (List.filter (fun tok => negb (str_eqb (dialect_of tok) [])) tokens).

(** The actions of a [ParsedCommand]: the ten intents and [unknown]. *)
Definition ACTIONS : list str := map fst INTENT_KEYWORDS ++ [u "unknown"].

Definition BASE_KEYS : list string := ["action"; "normalized_text"; "confidence"].

(** The keys of the optional, intent-specific fields. *)
Definition SLOT_KEYS : list string :=
  ["date"; "time"; "text"; "contact"; "city"; "timezone"; "media"].

(** No keyword of any intent occurs in [text]. *)
Definition no_keyword_matches (text : str) : Prop :=
  forall intent keywords keyword,
    In (intent, keywords) INTENT_KEYWORDS -> In keyword keywords ->
    contains keyword text = false.

(** A well-formed [ParsedCommand] for [raw_text]: an action of the fixed
    set, the normalized text, a confidence, and no key besides these and
    the slot keys. *)
Definition well_formed `{Unicode} (raw_text : str) (payload : gmap string value)
    : Prop :=
  (exists action, In action ACTIONS /\ payload !! "action" = Some (VStr action))
  /\ payload !! "normalized_text" = Some (VStr (normalize raw_text))
  /\ (exists q, payload !! "confidence" = Some (VFloat q))
  /\ forall key, is_Some (payload !! key) -> In key (BASE_KEYS ++ SLOT_KEYS).

(** The clamp of [x] to the interval from 0 to 1. *)
Definition clamp01 (x : Q) : Q := Qmax 0 (Qmin 1 x).

(** The mean of the [no_speech_prob] of the segments. *)
Definition mean_no_speech (segments : list segment) : Q :=
  mean (map (fun seg => get (no_speech_prob seg) (5 # 10)%Q) segments).

(** The root mean square of [audio] is below [t] (for [0 < t]). *)
Definition rms_below (audio : list Q) (t : Q) : Prop :=
  (mean (map (fun x => x * x) audio) < t * t)%Q.

(** The distance between the duration of the output, [size_out] samples at
    [dst_sr], and that of the input, [size_in] samples at [src_sr]. *)
Definition duration_error (size_in size_out : nat) (src_sr dst_sr : Z) : Q :=
  Qabs (inject_Z (Z.of_nat size_out) / inject_Z dst_sr
        - inject_Z (Z.of_nat size_in) / inject_Z src_sr).

(** Sample inputs for the runs: an engine that is out of order, an engine
    that hears a reminder, and three PCM16 mono files at 16 kHz - two
    samples, 0.7 s of a faint signal, 0.7 s of a loud one. *)
Definition broken_engine : engine :=
  Engine (Err (EngineError "model unavailable"))
         (fun _ _ => Err (EngineError "model unavailable")).

Definition reminder_engine : engine :=
  Engine (Ok tt) (fun _ _ =>
    Ok (Attempt (Some (u " Rappelle-moi demain matin, le docteur. "))
                (Some (u "fr"))
                (Some [Segment (Some (-1 # 2)) (Some (3 # 10)) (Some 1%Q);
                       Segment (Some (-1 # 2)) (Some (2 # 10)) (Some 1%Q)]))).

Definition short_wav : wav_file := WavFile 1 2 16000 [0; 64; 0; 64]%Z.

Definition faint_wav : wav_file :=
  WavFile 1 2 16000 (concat (repeat [1; 0]%Z (Z.to_nat 11200))).

Definition loud_wav : wav_file :=
  WavFile 1 2 16000 (concat (repeat [0; 64]%Z (Z.to_nat 11200))).

(** Two attempts that differ in the mean [avg_logprob] only. *)
Definition unsure_attempt : attempt :=
  Attempt None None
    (Some [Segment (Some (-1)%Q) (Some (3 # 10)%Q) (Some 2%Q)]).

Definition sure_attempt : attempt :=
  Attempt None None
    (Some [Segment (Some (-1 # 2)%Q) (Some (3 # 10)%Q) (Some 2%Q)]).

(** An attempt with a repeated word and a doubtful segment. *)
Definition stutter_attempt : attempt :=
  Attempt (Some (u " merci merci merci merci ")) (Some (u "fr"))
    (Some [Segment (Some (-1 # 2)%Q) (Some (3 # 10)%Q) (Some 3%Q)]).

End Spec.

(* ===================================================================== *)
(** * Further vocabulary *)
(* ===================================================================== *)

Module Spec2.
Import Py Exn Date IntentModel SpeechModel App Spec.

(** A keyword of [intent] occurs in [text]. *)
Definition keyword_of_occurs (intent text : str) : Prop :=
  exists keywords keyword,
    In (intent, keywords) INTENT_KEYWORDS /\ In keyword keywords
    /\ contains keyword text = true.

(** A byte of the frames of a file. *)
Definition is_byte (b : Z) : Prop := (0 <= b <= 255)%Z.

(** The score that the loop of [transcribe_audio] gives to one attempt. *)
Definition score_of `{Unicode} (result : attempt) : Q :=
  _text_quality_score (strip (get (a_text result) [])) result.

(** Sample engines: one that hears nothing without a language hint and the
    same word with either hint, and one that fails as soon as it is given a
    hint. *)
Definition hinted_engine : engine :=
  Engine (Ok tt) (fun _ language =>
    Ok (match language with
        | None => Attempt None None None
        | Some _ => Attempt (Some (u " bonjour ")) language (Some [])
        end)).

Definition hint_failing_engine : engine :=
  Engine (Ok tt) (fun _ language =>
    match language with
    | None => Ok (Attempt None None None)
    | Some _ => Err (EngineError "decoding failed")
    end).

End Spec2.

(* ===================================================================== *)
(** * [speech_model.py]: the loader of the model, in full *)
(* ===================================================================== *)

(** [SpeechModel._load_model] keeps of the loader only its outcome. Here
    is its body: the global [_MODEL], the name read from the environment,
    the call to [whisper.load_model] and the second call after a checksum
    error. *)
Module ModelCache.
Import Py Exn.

(** What [whisper.load_model] can raise: a [RuntimeError] (or an instance of
    a subclass) with its message [str(err)], or something else. *)
Inductive load_error :=
| RuntimeError (msg : str)
| OtherError (e : exn).

Inductive outcome (A : Type) :=
| Loaded (a : A)
| Raised (err : load_error).
Arguments Loaded {A} a.
Arguments Raised {A} err.

(** [pathlib]: the home directory and the operator [/]. *)
Class Paths := {
  path_home : str;
  path_join : str -> str -> str
}.

(** One call to [whisper.load_model]: the name it was given and the files
    that existed when it was made. *)
Record load_call := LoadCall {
  lc_name : str;
  lc_files : gset str
}.

(** The state that the loader reads and writes: the global [_MODEL], the
    paths that exist, and the calls made to [whisper.load_model] so far. *)
Record world (model : Type) := World {
  MODEL : option model;
  files : gset str;
  calls : list load_call
}.
Arguments World {model} MODEL files calls.
Arguments MODEL {model} w.
Arguments files {model} w.
Arguments calls {model} w.

(** [whisper.load_model(name)]: its outcome and the files it leaves, from
    the calls made before and the files it finds. *)
Definition whisper (model : Type) : Type :=
  list load_call -> gset str -> str -> outcome model * gset str.

(** [whisper.load_model(model_name)], logged. *)
Definition load_model {model} (lib : whisper model) (model_name : str)
    (w : world model) : outcome model * world model :=
  let '(r, fs) := lib (calls w) (files w) model_name in
  (r, World (MODEL w) fs (calls w ++ [LoadCall model_name (files w)])).

Definition _get_cache_path `{Paths} (model_name : str) : str :=
  path_join (path_join (path_join path_home (u ".cache")) (u "whisper"))
    (model_name ++ u ".pt").

(** [_load_model()]; [env] is the value of [SENIORVOICE_WHISPER_MODEL], if
    it is set. *)
Definition _load_model `{Unicode} `{Paths} {model} (lib : whisper model)
    (env : option str) (w : world model) : outcome model * world model :=
  match MODEL w with
  | Some m => (Loaded m, w)
  | None =>
      let model_name := match env with Some v => v | None => u "base" end in
      match load_model lib model_name w with
      | (Loaded m, w) => (Loaded m, World (Some m) (files w) (calls w))
      | (Raised (RuntimeError msg), w) =>
          if negb (contains (u "checksum") (uc_lower msg))
          then (Raised (RuntimeError msg), w)
          else
            let cache_file := _get_cache_path model_name in
            let w :=
              if decide (cache_file ∈ files w)
              then World (MODEL w) (files w ∖ {[cache_file]}) (calls w)
              else w in
            match load_model lib model_name w with
            | (Loaded m, w) => (Loaded m, World (Some m) (files w) (calls w))
            | (Raised err, w) => (Raised err, w)
            end
      | (Raised (OtherError e), w) => (Raised (OtherError e), w)
      end
  end.

(** A sample library: the first call finds a damaged cache file, a call
    made without that file downloads it again and succeeds. *)
Definition sample_paths : Paths :=
  {| path_home := u "/home/senior";
     path_join := fun a b => a ++ u "/" ++ b |}.

Definition damaged_cache_lib : whisper nat :=
  fun earlier fs name =>
    let cache_file := @_get_cache_path sample_paths name in
    if decide (cache_file ∈ fs)
    then (Raised (RuntimeError
            (u "Model has been downloaded but the SHA256 checksum does not match")),
          fs)
    else (Loaded (length earlier), fs ∪ {[cache_file]}).

End ModelCache.

(* ===================================================================== *)
(** * What a match of a regular expression is *)
(* ===================================================================== *)

Module Matching.
Import Py.

(** [matches r st st']: the pattern [r] can take the matcher from the state
    [st] to the state [st']. The backtracking matcher [rmatch] only ever
    hands such a state to its continuation. *)
Inductive matches `{Unicode} : regex -> mstate -> mstate -> Prop :=
| M_char c st x st' :
    m_step st = Some (x, st') -> (x =? c)%N = true ->
    matches (RChar c) st st'
| M_set p st x st' :
    m_step st = Some (x, st') -> p x = true ->
    matches (RSet p) st st'
| M_eps st : matches REps st st
| M_seq a b st st1 st2 :
    matches a st st1 -> matches b st1 st2 -> matches (RSeq a b) st st2
| M_alt_l a b st st' : matches a st st' -> matches (RAlt a b) st st'
| M_alt_r a b st st' : matches b st st' -> matches (RAlt a b) st st'
| M_star_nil a st : matches (RStar a) st st
| M_star_cons a st st1 st2 :
    matches a st st1 -> matches (RStar a) st1 st2 ->
    matches (RStar a) st st2
| M_group n a st st1 :
    matches a st st1 ->
    matches (RGroup n a) st
      (MState (m_prev st1) (m_rest st1) (m_pos st1)
         ((n, firstn (m_pos st1 - m_pos st) (m_rest st)) :: m_caps st1))
| M_backref n st w :
    cap_get n (m_caps st) = Some w -> startswith w (m_rest st) = true ->
    matches (RBackref n) st (m_skip (length w) st)
| M_wordb st : at_boundary st = true -> matches RWordB st st.

(** A pattern without a group leaves the captured groups as they are. *)
Fixpoint group_free (r : regex) : bool :=
  match r with
  | RSeq a b | RAlt a b => group_free a && group_free b
  | RStar a => group_free a
  | RGroup _ _ => false
  | _ => true
  end.

(** The text between the cursors of two states. *)
Definition consumed (st st' : mstate) : str :=
  firstn (m_pos st' - m_pos st) (m_rest st).

(** The two properties of the Unicode database that reading a time needs:
    a decimal character has a digit value from 0 to 9, and the ASCII digits
    have their usual values. *)
Definition decimal_digits `{Unicode} : Prop :=
  (forall c, uc_isdecimal c = true -> (0 <= uc_digit c <= 9)%Z)
  /\ (forall c, (48 <= c <= 57)%N -> uc_digit c = (Z.of_N c - 48)%Z).

(** The characters that the pattern of [extract_contact] lets into a
    contact: [[a-zA-Z0-9' -]]. *)
Definition contact_char (c : N) : bool :=
  in_range "a" "z" c || in_range "A" "Z" c || in_range "0" "9" c
  || one_of "' -" c.

(** [p] is a piece of [s]. *)
Definition infix_of (p s : str) : Prop := exists a b, s = a ++ p ++ b.

End Matching.

(* ===================================================================== *)
(** * [backend/app.py]: the route [/process] *)
(* ===================================================================== *)

(** [App.process] is the [try] block of the route and its [except] clause.
    Here is the route around it: the test for the upload, the temporary
    file and its removal. *)
Module Route.
Import Py Exn Date IntentModel SpeechModel App.

(** [s.rfind(c)] for one character: the last index of [c], or -1. [i] is
    the index of the head of [s]. *)
Fixpoint rfind_from (c : N) (s : str) (i : Z) : Z :=
  match s with
  | [] => (-1)%Z
  | x :: s' =>
      let r := rfind_from c s' (i + 1)%Z in
      if (0 <=? r)%Z then r else if (x =? c)%N then i else (-1)%Z
  end.

Definition rfind (c : N) (s : str) : Z := rfind_from c s 0.

(** The loop of [_splitext] that skips the leading dots: is there another
    character among [chars]? *)
Fixpoint has_non_dot (chars : str) : bool :=
  match chars with
  | [] => false
  | ch :: rest => if negb (ch =? 46)%N then true else has_non_dot rest
  end.

(** [os.path.splitext(p)] of [posixpath]. *)
Definition splitext (p : str) : str * str :=
  let sepIndex := rfind 47 p in
  let dotIndex := rfind 46 p in
  if (sepIndex <? dotIndex)%Z
     && has_non_dot (firstn (Z.to_nat (dotIndex - (sepIndex + 1)))
                       (skipn (Z.to_nat (sepIndex + 1)) p))
  then (firstn (Z.to_nat dotIndex) p, skipn (Z.to_nat dotIndex) p)
  else (p, []).

(** [x or default] for a string. *)
Definition str_or (x default : str) : str :=
  match x with
  | [] => default
  | _ => x
  end.

(** An uploaded file: its name, if the client gave one, and what
    [audio.save] does - it writes these bytes or raises. *)
Record upload := Upload {
  up_filename : option str;
  up_save : result (list Z)
}.

(** [os.path.splitext(audio.filename or "input.wav")[1] or ".wav"] *)
Definition suffix_of (audio : upload) : str :=
  let filename :=
    match up_filename audio with
    | Some (c :: name) => c :: name
    | _ => u "input.wav"
    end in
  str_or (snd (splitext filename)) (u ".wav").

(** The files of the machine: the bytes held under each path. *)
Definition file_system : Type := gmap str (list Z).

(** What the route answers: status 400 with an error, or the answer of the
    [try] block. *)
Inductive answer :=
| Json400 (error : string)
| Answered (r : response).

(** The route. [mkstemp fs prefix suffix] is the path that
    [tempfile.mkstemp] chooses, [wave_open fs path] what [wave.open] reads
    under [path]. *)
Definition process `{Unicode} (eng : engine)
    (mkstemp : file_system -> str -> str -> str)
    (wave_open : file_system -> str -> result wav_file) (today : date)
    (request_files : gmap string upload) (fs : file_system) (tr : list event)
    : answer * file_system * list event :=
  match request_files !! "audio" with
  | None => (Json400 "audio file is required", fs, tr)
  | Some audio =>
      let suffix := suffix_of audio in
      let temp_path := mkstemp fs (u "seniorvoice_") suffix in
      let fs := <[temp_path := []]> fs in
      let '(r, fs, tr) :=
        match up_save audio with
        | Err exc => (Json500 exc, fs, tr)
        | Ok bytes =>
            let fs := <[temp_path := bytes]> fs in
            let '(r, tr) := App.process eng (wave_open fs) today temp_path tr in
            (r, fs, tr)
        end in
      let fs :=
        if decide (is_Some (fs !! temp_path)) then delete temp_path fs else fs in
      (Answered r, fs, tr)
  end.

End Route.

(* ===================================================================== *)
(** * Facts about strings *)
(* ===================================================================== *)

Module PyFacts.
Import Py.

Lemma str_eqb_eq (a b : str) : str_eqb a b = true <-> a = b.
Proof.
  revert b; induction a as [|x a IH]; intros [|y b]; simpl; try easy.
  rewrite andb_true_iff, N.eqb_eq, IH. split.
  - intros [-> ->]; reflexivity.
  - intros [= -> ->]; auto.
Qed.

Lemma str_eqb_refl (a : str) : str_eqb a a = true.
Proof. apply str_eqb_eq; reflexivity. Qed.

Lemma str_eqb_neq (a b : str) : str_eqb a b = false <-> a <> b.
Proof.
  rewrite <- str_eqb_eq. destruct (str_eqb a b); split; congruence.
Qed.

Lemma startswith_app (p s : str) : startswith p s = true <-> exists t, s = p ++ t.
Proof.
  revert s; induction p as [|a p IH]; intros s; simpl.
  - split; eauto.
  - destruct s as [|b s]; simpl.
    + split; [discriminate | intros [t [=]]].
    + rewrite andb_true_iff, N.eqb_eq, IH. split.
      * intros [-> [t ->]]; eauto.
      * intros [t [= -> ->]]; eauto.
Qed.

(** [p in s] holds exactly when [s] has [p] as a contiguous part. *)
Lemma contains_infix (p s : str) :
  contains p s = true <-> exists a b, s = a ++ p ++ b.
Proof.
  induction s as [|c s IH].
  - simpl. rewrite orb_false_r, startswith_app. split.
    + intros [t Ht]. exists [], t. exact Ht.
    + intros [a [b Hab]]. destruct a; simpl in Hab.
      * eauto.
      * discriminate.
  - simpl. rewrite orb_true_iff, startswith_app, IH. split.
    + intros [[t Ht] | [a [b Hab]]].
      * exists [], t. exact Ht.
      * exists (c :: a), b. simpl. congruence.
    + intros [[|x a] [b Hab]]; simpl in Hab.
      * left; eauto.
      * right. injection Hab as -> ->. eauto.
Qed.

(** A part of a part is a part. *)
Lemma contains_trans (p q s : str) :
  contains p q = true -> contains q s = true -> contains p s = true.
Proof.
  rewrite !contains_infix. intros [a [b ->]] [c [d ->]].
  exists (c ++ a), (b ++ d). rewrite <- !app_assoc. reflexivity.
Qed.

End PyFacts.

(* ===================================================================== *)
(** * The intent classifier: tie-break *)
(* ===================================================================== *)

Module IntentFacts.
Import Py PyFacts Exn Date IntentModel Spec.

(** Concrete runs are made with the ASCII tables. *)
#[local] Existing Instance ascii_tables.

(** ** The order on intent names *)

Lemma str_ltb_irrefl (a : str) : str_ltb a a = false.
Proof.
  induction a as [|x a IH]; simpl; [reflexivity|].
  rewrite N.ltb_irrefl, N.eqb_refl, IH. reflexivity.
Qed.

Lemma str_ltb_trans (a b c : str) :
  str_ltb a b = true -> str_ltb b c = true -> str_ltb a c = true.
Proof.
  revert b c; induction a as [|x a IH]; intros [|y b] [|z c]; simpl; try easy.
  rewrite !orb_true_iff, !andb_true_iff, !N.ltb_lt, !N.eqb_eq.
  intros [Hxy | [-> Hab]] [Hyz | [-> Hbc]].
  - left; lia.
  - left; lia.
  - left; lia.
  - right; split; [reflexivity | eauto].
Qed.

(** Two names are equal or one is below the other. *)
Lemma str_ltb_total (a b : str) :
  str_ltb a b = false -> a = b \/ str_ltb b a = true.
Proof.
  revert b; induction a as [|x a IH]; intros [|y b]; simpl; auto; try easy.
  rewrite orb_false_iff, andb_false_iff, N.ltb_ge, N.eqb_neq.
  rewrite orb_true_iff, andb_true_iff, N.ltb_lt, N.eqb_eq.
  intros [Hle [Hne | Hab]].
  - right; left; lia.
  - destruct (N.eq_dec x y) as [-> | Hne].
    + destruct (IH b Hab) as [-> | Hba]; auto.
    + right; left; lia.
Qed.

Lemma tuple_ltb_irrefl (p : Z * str) : tuple_ltb p p = false.
Proof.
  unfold tuple_ltb. rewrite Z.ltb_irrefl, str_ltb_irrefl, andb_false_r.
  reflexivity.
Qed.

Lemma tuple_ltb_asym (p q : Z * str) :
  tuple_ltb p q = true -> tuple_ltb q p = false.
Proof.
  unfold tuple_ltb. destruct p as [s i], q as [s' i']; simpl.
  rewrite orb_true_iff, orb_false_iff, !andb_true_iff, andb_false_iff.
  rewrite !Z.ltb_lt, Z.ltb_ge, !Z.eqb_eq, Z.eqb_neq.
  intros [Hlt | [-> Hlt]].
  - split; [lia | left; lia].
  - split; [lia | right].
    destruct (str_ltb i' i) eqn:E; [|reflexivity].
    pose proof (str_ltb_trans _ _ _ Hlt E) as H.
    rewrite str_ltb_irrefl in H. discriminate.
Qed.

(** If [p] is not below [q] and [q] is not below [r], [p] is not below [r]. *)
Lemma tuple_ltb_not_trans (p q r : Z * str) :
  tuple_ltb p q = false -> tuple_ltb q r = false -> tuple_ltb p r = false.
Proof.
  unfold tuple_ltb. destruct p as [s i], q as [s' i'], r as [s'' i'']; simpl.
  rewrite !orb_false_iff, !andb_false_iff, !Z.ltb_ge, !Z.eqb_neq.
  intros [H1 H1'] [H2 H2']. split; [lia|].
  destruct (Z.eq_dec s s'') as [<- | Hne]; [right | left; exact Hne].
  assert (s' = s) as -> by lia.
  destruct H1' as [? | H1']; [congruence|].
  destruct H2' as [? | H2']; [congruence|].
  destruct (str_ltb_total _ _ H1') as [-> | H1'']; [exact H2'|].
  destruct (str_ltb_total _ _ H2') as [-> | H2'']; [exact H1'|].
  destruct (str_ltb i i'') eqn:E; [|reflexivity].
  pose proof (str_ltb_trans _ _ _ (str_ltb_trans _ _ _ H2'' H1'') E) as H.
  rewrite str_ltb_irrefl in H. discriminate.
Qed.

(** ** The sort puts a greatest element first *)

Lemma insert_desc_In (x y : Z * str) (l : list (Z * str)) :
  In y (insert_desc x l) <-> y = x \/ In y l.
Proof.
  induction l as [|z l IH]; simpl.
  - intuition congruence.
  - destruct (tuple_ltb x z); simpl; rewrite ?IH; intuition congruence.
Qed.

Lemma sort_desc_In (y : Z * str) (l : list (Z * str)) :
  In y (sort_desc l) <-> In y l.
Proof.
  induction l as [|x l IH]; simpl; [tauto|].
  rewrite insert_desc_In, IH. intuition congruence.
Qed.

Lemma sort_desc_head (l : list (Z * str)) (x : Z * str) (t : list (Z * str)) :
  sort_desc l = x :: t ->
  In x l /\ forall y, In y l -> tuple_ltb x y = false.
Proof.
  revert x t; induction l as [|a l IH]; intros x t; simpl; [discriminate|].
  destruct (sort_desc l) as [|h t'] eqn:E; simpl.
  - intros [= <- <-]. split; [auto|].
    intros y [<- | Hy]; [apply tuple_ltb_irrefl|].
    apply sort_desc_In in Hy. rewrite E in Hy. destruct Hy.
  - destruct (IH h t' eq_refl) as [Hin Hmax].
    destruct (tuple_ltb a h) eqn:Hah.
    + intros [= <- <-]. split; [auto|].
      intros y [<- | Hy]; [apply tuple_ltb_asym, Hah | apply Hmax, Hy].
    + intros [= <- <-]. split; [auto|].
      intros y [<- | Hy]; [apply tuple_ltb_irrefl|].
      apply tuple_ltb_not_trans with h; [exact Hah | apply Hmax, Hy].
Qed.

Lemma sort_desc_nil (l : list (Z * str)) : sort_desc l = [] -> l = [].
Proof.
  destruct l as [|a l]; [reflexivity|]. intros H.
  assert (In a (sort_desc (a :: l))) as Hin by (apply sort_desc_In; simpl; auto).
  rewrite H in Hin. destruct Hin.
Qed.

(** ** Scores *)

Lemma scored_In (text : str) (score : Z) (intent : str) :
  In (score, intent) (scored text) <->
  (0 < score)%Z /\ exists keywords,
    In (intent, keywords) INTENT_KEYWORDS /\ score = keyword_score keywords text.
Proof.
  unfold scored. rewrite in_flat_map. split.
  - intros [[i kws] [Hin H]]. simpl in H.
    destruct (0 <? keyword_score kws text)%Z eqn:E; simpl in H; [|destruct H].
    destruct H as [[= <- <-] | []]. apply Z.ltb_lt in E. eauto.
  - intros [Hpos [kws [Hin ->]]]. exists (intent, kws). split; [exact Hin|].
    simpl. apply Z.ltb_lt in Hpos. rewrite Hpos. simpl; auto.
Qed.

Lemma fold_max_ge (l : list Z) (x : Z) : In x l -> (x <= fold_right Z.max 0 l)%Z.
Proof.
  induction l as [|a l IH]; simpl; [tauto|].
  intros [-> | H]; [lia | specialize (IH H); lia].
Qed.

Lemma fold_max_le (l : list Z) (b : Z) :
  (0 <= b)%Z -> (forall x, In x l -> (x <= b)%Z) -> (fold_right Z.max 0 l <= b)%Z.
Proof.
  intros Hb. induction l as [|a l IH]; simpl; intros H; [lia|].
  assert (a <= b)%Z by (apply H; auto).
  assert (fold_right Z.max 0 l <= b)%Z by (apply IH; intros; apply H; auto).
  lia.
Qed.

Lemma tied_at_max_In (text : str) (intent : str) :
  In intent (tied_at_max text) <-> In (max_score text, intent) (scored text).
Proof.
  unfold tied_at_max. rewrite in_map_iff. split.
  - intros [[s i] [<- H]]. apply filter_In in H. destruct H as [H E].
    simpl in *. apply Z.eqb_eq in E. subst s. exact H.
  - intros H. exists (max_score text, intent). split; [reflexivity|].
    apply filter_In. split; [exact H | simpl; apply Z.eqb_refl].
Qed.

(** The first element after the sort has the highest count and, among the
    intents with that count, the greatest name. *)
Lemma best_intent_spec (text : str) (intent : str) :
  best_intent text = Some intent ->
  In intent (tied_at_max text) /\
  forall other, In other (tied_at_max text) ->
    other = intent \/ str_ltb other intent = true.
Proof.
  unfold best_intent. destruct (sort_desc (scored text)) as [|[s i] t] eqn:E;
    [discriminate|]. intros [= ->].
  destruct (sort_desc_head _ _ _ E) as [Hin Hmax].
  assert (Hs : s = max_score text).
  { apply Z.le_antisymm.
    - apply fold_max_ge. apply in_map_iff. exists (s, intent); auto.
    - apply fold_max_le.
      + apply scored_In in Hin. lia.
      + intros x Hx. apply in_map_iff in Hx. destruct Hx as [[s' i'] [<- Hx]].
        specialize (Hmax _ Hx). unfold tuple_ltb in Hmax. simpl in *.
        apply orb_false_iff in Hmax. destruct Hmax as [Hlt _].
        apply Z.ltb_ge in Hlt. exact Hlt. }
  subst s. split; [apply tied_at_max_In, Hin|].
  intros other Ho. apply tied_at_max_In in Ho. specialize (Hmax _ Ho).
  unfold tuple_ltb in Hmax. simpl in Hmax. rewrite Z.ltb_irrefl, Z.eqb_refl in Hmax.
  simpl in Hmax. destruct (str_ltb_total _ _ Hmax) as [-> | H]; auto.
Qed.

Lemma best_intent_some (text : str) :
  scored text <> [] -> exists intent, best_intent text = Some intent.
Proof.
  intros H. unfold best_intent.
  destruct (sort_desc (scored text)) as [|[s i] t] eqn:E; [|eauto].
  apply sort_desc_nil in E. contradiction.
Qed.

(** C1, as amended. On every text in which an intent keyword occurs, the
    intent selected before the overrides has the highest keyword count, and
    among the intents that tie at this count it is the one whose name is
    greatest in Python's string order - not the one declared first. *)
Theorem best_intent_greatest_name (text : str) :
  scored text <> [] ->
  exists intent,
    best_intent text = Some intent /\
    In intent (tied_at_max text) /\
    forall other, In other (tied_at_max text) ->
      other = intent \/ str_ltb other intent = true.
Proof.
  intros H. destruct (best_intent_some text H) as [intent Hb].
  exists intent. split; [exact Hb | apply best_intent_spec, Hb].
Qed.

Lemma best_intent_greatest_name_witness :
  scored (u "meteo alarme") <> [] /\
  exists intent,
    best_intent (u "meteo alarme") = Some intent /\
    In intent (tied_at_max (u "meteo alarme")) /\
    forall other, In other (tied_at_max (u "meteo alarme")) ->
      other = intent \/ str_ltb other intent = true.
Proof.
  assert (H : scored (u "meteo alarme") <> []) by (vm_compute; discriminate).
  split; [exact H | exact (best_intent_greatest_name (u "meteo alarme") H)].
Defined.

(** C1, as the specification states it, fails: on the normalized text
    [meteo alarme] the intents [get_weather] and [set_alarm] tie with one
    keyword each, [get_weather] is declared first, [set_alarm] is selected. *)
Lemma first_declared_tie_break_fails :
  exists raw : str,
    let text := normalize raw in
    (2 <= length (tied_at_max text))%nat
    /\ best_intent text <> first_declared text.
Proof.
  exists (u "meteo alarme"). vm_compute. split; [apply le_n | discriminate].
Qed.

(** The run behind the counterexample. *)
Example meteo_alarme_scores :
  scored (u "meteo alarme") = [(1%Z, u "get_weather"); (1%Z, u "set_alarm")]
  /\ first_declared (u "meteo alarme") = Some (u "get_weather")
  /\ best_intent (u "meteo alarme") = Some (u "set_alarm")
  /\ detect_intent (u "meteo alarme") = u "set_alarm".
Proof. vm_compute. repeat split. Qed.

(** ** [extract_date] *)

(** C2 on the code. [demain] is a part of [apres demain], so the first test
    of [extract_date] already succeeds and the branch for the day after
    tomorrow is never reached: on every text that contains [apres demain]
    the function returns the day after the reference day, not two days
    after it. *)
Theorem extract_date_apres_demain_is_tomorrow (text : str)
    (reference : option date) (today : date) :
  contains (u "apres demain") text = true ->
  extract_date text reference today
  = isoformat <$> add_days (match reference with Some d => d | None => today end) 1.
Proof.
  intros H. unfold extract_date.
  assert (Hd : contains (u "demain") text = true).
  { apply contains_trans with (u "apres demain"); [reflexivity | exact H]. }
  rewrite Hd. reflexivity.
Qed.

Lemma extract_date_apres_demain_witness :
  contains (u "apres demain") (u "apres demain") = true /\
  extract_date (u "apres demain") (Some (of_ymd 2024 1 1)) (of_ymd 2026 11 4)
  = isoformat <$> add_days (of_ymd 2024 1 1) 1.
Proof.
  split; [reflexivity|].
  exact (extract_date_apres_demain_is_tomorrow (u "apres demain")
           (Some (of_ymd 2024 1 1)) (of_ymd 2026 11 4) eq_refl).
Defined.

(** The same run, with the strings: the code answers 2024-01-02 where the
    specification asks for 2024-01-03. *)
Example extract_date_apres_demain_run :
  extract_date (u "apres demain") (Some (of_ymd 2024 1 1)) (of_ymd 2026 11 4)
  = Ok (u "2024-01-02")
  /\ isoformat <$> add_days (of_ymd 2024 1 1) 2 = Ok (u "2024-01-03").
Proof. vm_compute. split; reflexivity. Qed.

(** ** The text normalizer *)

Lemma split_go_run (acc t rest : str) :
  forallb (fun c => negb (isspace c)) t = true ->
  split_go acc (t ++ rest) = split_go (rev t ++ acc) rest.
Proof.
  revert acc; induction t as [|c t IH]; intros acc; simpl; [reflexivity|].
  rewrite andb_true_iff, negb_true_iff. intros [Hc Ht].
  rewrite Hc, IH by exact Ht. rewrite <- app_assoc. reflexivity.
Qed.

Lemma split_go_flush (t : str) :
  t <> [] -> split_go (rev t) [] = [t].
Proof.
  intros Ht. simpl. rewrite rev_involutive.
  destruct (rev t) eqn:E; [|reflexivity].
  apply (f_equal (@rev N)) in E. rewrite rev_involutive in E. contradiction.
Qed.

(** Splitting the tokens joined by single spaces gives the tokens back. *)
Lemma split_join (l : list str) :
  forallb is_token l = true -> split (join (u " ") l) = l.
Proof.
  unfold split. induction l as [|x l IH]; [reflexivity|].
  simpl forallb. rewrite andb_true_iff. unfold is_token at 1.
  rewrite andb_true_iff, negb_true_iff, str_eqb_neq. intros [[Hx Hsp] Hl].
  destruct l as [|y l].
  - simpl. rewrite <- (app_nil_r x) at 1.
    rewrite split_go_run by exact Hsp. rewrite app_nil_r.
    apply split_go_flush, Hx.
  - change (join (u " ") (x :: y :: l))
      with (x ++ 32%N :: join (u " ") (y :: l)).
    rewrite split_go_run by exact Hsp. rewrite app_nil_r.
    change (split_go (rev x) (32%N :: join (u " ") (y :: l)))
      with (match rev x with
            | [] => split_go [] (join (u " ") (y :: l))
            | _ => rev (rev x) :: split_go [] (join (u " ") (y :: l))
            end).
    rewrite rev_involutive, IH by exact Hl.
    destruct (rev x) eqn:E; [|reflexivity].
    apply (f_equal (@rev N)) in E. rewrite rev_involutive in E. contradiction.
Qed.

Lemma forallb_rev {A} (f : A -> bool) (l : list A) :
  forallb f (rev l) = forallb f l.
Proof.
  induction l as [|a l IH]; simpl; [reflexivity|].
  rewrite forallb_app, IH. simpl. rewrite andb_true_r. apply andb_comm.
Qed.

Lemma is_token_rev (acc : str) :
  acc <> [] -> forallb (fun c => negb (isspace c)) acc = true ->
  is_token (rev acc) = true.
Proof.
  intros Hne Hacc. unfold is_token. rewrite forallb_rev, Hacc, andb_true_r.
  apply negb_true_iff, str_eqb_neq. intros E.
  apply (f_equal (@rev N)) in E. rewrite rev_involutive in E. contradiction.
Qed.

Lemma split_go_tokens (acc s : str) :
  forallb (fun c => negb (isspace c)) acc = true ->
  forallb is_token (split_go acc s) = true.
Proof.
  revert acc; induction s as [|c s IH]; intros acc Hacc; cbn [split_go].
  - destruct acc as [|a acc]; [reflexivity|]. cbn [forallb].
    rewrite is_token_rev by (exact Hacc || discriminate). reflexivity.
  - destruct (isspace c) eqn:Hc.
    + destruct acc as [|a acc]; [apply IH; reflexivity|]. cbn [forallb].
      rewrite IH by reflexivity.
      rewrite is_token_rev by (exact Hacc || discriminate). reflexivity.
    + apply IH. cbn [forallb]. rewrite Hc, Hacc. reflexivity.
Qed.

Lemma split_tokens (s : str) : forallb is_token (split s) = true.
Proof. apply split_go_tokens. reflexivity. Qed.

Lemma dict_get_In {V} (d : list (str * V)) (k : str) (v : V) :
  dict_get d k = Some v -> In (k, v) d.
Proof.
  induction d as [|[k' v'] d IH]; simpl; [discriminate|].
  destruct (str_eqb k' k) eqn:E.
  - apply str_eqb_eq in E. intros [= ->]. left; congruence.
  - auto.
Qed.

(** Every value of the dialect table is empty or a token that the table
    maps to itself. *)
Lemma DIALECT_DICT_values :
  forallb (fun kv =>
      str_eqb (snd kv) []
      || is_token (snd kv) && str_eqb (dialect_of (snd kv)) (snd kv))
    DIALECT_DICT = true.
Proof. reflexivity. Qed.

Lemma dialect_of_cases (tok : str) :
  is_token tok = true ->
  dialect_of tok = []
  \/ is_token (dialect_of tok) = true
     /\ dialect_of (dialect_of tok) = dialect_of tok.
Proof.
  intros Htok.
  destruct (dict_get DIALECT_DICT tok) as [v|] eqn:E.
  - assert (Hv : dialect_of tok = v) by (unfold dialect_of; rewrite E; reflexivity).
    rewrite Hv. apply dict_get_In in E.
    pose proof (proj1 (forallb_forall _ _) DIALECT_DICT_values _ E) as H.
    cbn [snd] in H. apply orb_true_iff in H. destruct H as [H | H].
    + left. apply str_eqb_eq, H.
    + right. apply andb_true_iff in H. destruct H as [H1 H2].
      split; [exact H1 | apply str_eqb_eq, H2].
  - assert (Hv : dialect_of tok = tok) by (unfold dialect_of; rewrite E; reflexivity).
    rewrite !Hv. right. split; [exact Htok | reflexivity].
Qed.

Lemma mapped_tokens_fixed (tokens : list str) :
  forallb is_token tokens = true ->
  forallb is_token (mapped_tokens tokens) = true
  /\ mapped_tokens (mapped_tokens tokens) = mapped_tokens tokens.
Proof.
  unfold mapped_tokens. induction tokens as [|t l IH]; [auto|].
  simpl forallb. rewrite andb_true_iff. intros [Ht Hl].
  destruct (IH Hl) as [IH1 IH2]. simpl List.filter.
  destruct (str_eqb (dialect_of t) []) eqn:E; simpl negb; cbv iota; [auto|].
  destruct (dialect_of_cases t Ht) as [H | [H1 H2]].
  - apply str_eqb_neq in E. contradiction.
  - simpl. rewrite H1, IH1, H2, E. simpl. rewrite H2, IH2. auto.
Qed.

(** The dialect pass is idempotent. *)
Lemma normalize_dialect_idempotent (s : str) :
  normalize_dialect (normalize_dialect s) = normalize_dialect s.
Proof.
  unfold normalize_dialect. fold (mapped_tokens (split s)).
  destruct (mapped_tokens_fixed (split s) (split_tokens s)) as [H1 H2].
  rewrite split_join by exact H1.
  fold (mapped_tokens (mapped_tokens (split s))). rewrite H2. reflexivity.
Qed.




Example demain_ghodwa_run :
  normalize (u "demain ghodwa") = u "demain demain"
  /\ normalize (u "demain demain") = u "demain".
Proof. vm_compute. split; reflexivity. Qed.

End IntentFacts.

(* ===================================================================== *)
(** * The command assembler *)
(* ===================================================================== *)

Module CommandFacts.
Import Py PyFacts Exn Date IntentModel Spec IntentFacts.

#[local] Existing Instance ascii_tables.

Lemma add_days_ok (d n : Z) :
  (1 <= d)%Z -> (0 <= n <= 7)%Z -> (d + 7 <= MAXORDINAL)%Z ->
  add_days d n = Ok (d + n)%Z.
Proof.
  intros H1 H2 H3. unfold add_days, valid.
  assert (E1 : (1 <=? d + n)%Z = true) by (apply Z.leb_le; lia).
  assert (E2 : (d + n <=? MAXORDINAL)%Z = true) by (apply Z.leb_le; lia).
  rewrite E1, E2. reflexivity.
Qed.

(** [extract_date] raises on no text as long as the week after [today] is
    within the range of [datetime.date]. *)
Lemma extract_date_ok (text : str) (today : date) :
  (1 <= today)%Z -> (today + 7 <= MAXORDINAL)%Z ->
  exists d, extract_date text None today = Ok d.
Proof.
  intros H1 H2. unfold extract_date.
  destruct (contains (u "demain") text).
  { rewrite add_days_ok by lia. eexists; reflexivity. }
  destruct (contains (u "apres demain") text).
  { rewrite add_days_ok by lia. eexists; reflexivity. }
  destruct (contains (u "aujourdhui") text || contains (u "auj") text).
  { eexists; reflexivity. }
  destruct (find _ weekdays) as [[name idx]|]; [|eexists; reflexivity].
  pose proof (Z.mod_pos_bound (idx - weekday today) 7 ltac:(lia)) as Hm.
  destruct ((idx - weekday today) mod 7 =? 0)%Z;
    rewrite add_days_ok by lia; eexists; reflexivity.
Qed.

Lemma keyword_score_zero (keywords : list str) (text : str) :
  (forall keyword, In keyword keywords -> contains keyword text = false) ->
  keyword_score keywords text = 0%Z.
Proof.
  intros H. unfold keyword_score.
  replace (List.filter (fun keyword => contains keyword text) keywords)
    with (@nil str); [reflexivity|].
  induction keywords as [|k l IH]; [reflexivity|]. simpl.
  rewrite (H k) by (simpl; auto). apply IH. intros; apply H; simpl; auto.
Qed.

Lemma no_match_scored (text : str) : no_keyword_matches text -> scored text = [].
Proof.
  intros H. destruct (scored text) as [|[s i] l] eqn:E; [reflexivity|].
  assert (Hin : In (s, i) (scored text)) by (rewrite E; simpl; auto).
  apply scored_In in Hin. destruct Hin as [Hpos [kws [Hk ->]]].
  rewrite keyword_score_zero in Hpos; [lia|].
  intros keyword. apply (H i kws keyword Hk).
Qed.

Lemma no_match_unknown (text : str) :
  no_keyword_matches text -> detect_intent text = u "unknown".
Proof.
  intros H. unfold detect_intent, best_intent.
  rewrite (no_match_scored text H). reflexivity.
Qed.

(** The classifier answers with one of the eleven actions. *)
Lemma detect_intent_action (text : str) : In (detect_intent text) ACTIONS.
Proof.
  unfold detect_intent. destruct (best_intent text) as [best|] eqn:E.
  - destruct (_ && _); [vm_compute; tauto|].
    destruct (_ && _); [vm_compute; tauto|].
    apply best_intent_spec in E. destruct E as [E _].
    apply tied_at_max_In, scored_In in E. destruct E as [_ [kws [E _]]].
    unfold ACTIONS. apply in_or_app. left.
    apply in_map_iff. exists (best, kws). auto.
  - vm_compute; tauto.
Qed.

(** Evaluate the tests [action in {...}] once the action is known. *)
Ltac eval_action_tests :=
  repeat match goal with
  | |- context [is_one_of ?a ?l] =>
      let b := eval vm_compute in (is_one_of a l) in
      change (is_one_of a l) with b
  end;
  cbv beta iota.

Lemma keys_empty (ks : list string) (key : string) :
  is_Some ((∅ : gmap string value) !! key) -> In key ks.
Proof. rewrite lookup_empty. intros [v Hv]. discriminate. Qed.

Lemma keys_insert (m : gmap string value) (k : string) (v : value)
    (ks : list string) :
  In k ks -> (forall key, is_Some (m !! key) -> In key ks) ->
  forall key, is_Some (<[k:=v]> m !! key) -> In key ks.
Proof.
  intros Hk Hm key. destruct (decide (k = key)) as [<- | Hne]; [auto|].
  rewrite lookup_insert_ne by exact Hne. apply Hm.
Qed.

Ltac solve_keys :=
  repeat (apply keys_insert; [vm_compute; tauto|]); apply keys_empty.

Ltac solve_lookup :=
  rewrite ?lookup_insert_ne by discriminate;
  first [apply lookup_insert_eq | apply lookup_empty].

(** C10. [parse_command] returns on every input string, and what it returns
    is a well-formed [ParsedCommand]; when no intent keyword occurs in the
    normalized text, the action is [unknown] and the payload has none of
    the slot keys. The only exception the body can raise is the overflow of
    [date + timedelta]: the statement asks that the week after [today]
    exists in [datetime.date]. *)
Theorem parse_command_total `{Unicode} (today : date) (raw_text : str) :
  (1 <= today)%Z -> (today + 7 <= MAXORDINAL)%Z ->
  exists payload,
    parse_command today raw_text = Ok payload
    /\ well_formed raw_text payload
    /\ (no_keyword_matches (normalize raw_text) ->
        payload !! "action" = Some (VStr (u "unknown"))
        /\ forall key, In key SLOT_KEYS -> payload !! key = None).
Proof.
  intros H1 H2. unfold well_formed, parse_command, normalize.
  set (normalized := normalize_dialect (clean_text raw_text)).
  destruct (extract_date_ok normalized today H1 H2) as [d Hd].
  pose proof (detect_intent_action normalized) as Ha.
  pose proof (no_match_unknown normalized) as Hu.
  revert Ha Hu. generalize (detect_intent normalized) as action.
  intros action Ha Hu. rewrite Hd.
  unfold ACTIONS in Ha. cbn [map fst INTENT_KEYWORDS app] in Ha.
  unfold mbind, result_bind, mret, result_ret.
  repeat destruct Ha as [<- | Ha]; try destruct Ha;
    eval_action_tests;
    (eexists; split; [reflexivity|]; split;
     [ split; [eexists; split; [|solve_lookup]; vm_compute; tauto|];
       split; [solve_lookup|]; split; [eexists; solve_lookup | solve_keys]
     | intros Hn; specialize (Hu Hn) ]).
  all: try (vm_compute in Hu; discriminate Hu).
  split; [solve_lookup|].
  intros key Hk. unfold SLOT_KEYS in Hk.
  repeat destruct Hk as [<- | Hk]; try destruct Hk; solve_lookup.
Qed.

Lemma parse_command_total_witness :
  (1 <= of_ymd 2024 1 1)%Z /\ (of_ymd 2024 1 1 + 7 <= MAXORDINAL)%Z /\
  exists payload,
    parse_command (of_ymd 2024 1 1) (u "Bonjour, euh... ca va ?") = Ok payload
    /\ well_formed (u "Bonjour, euh... ca va ?") payload
    /\ (no_keyword_matches (normalize (u "Bonjour, euh... ca va ?")) ->
        payload !! "action" = Some (VStr (u "unknown"))
        /\ forall key, In key SLOT_KEYS -> payload !! key = None).
Proof.
  assert (H1 : (1 <= of_ymd 2024 1 1)%Z) by (vm_compute; discriminate).
  assert (H2 : (of_ymd 2024 1 1 + 7 <= MAXORDINAL)%Z)
    by (vm_compute; discriminate).
  split; [exact H1|]. split; [exact H2|].
  exact (parse_command_total (of_ymd 2024 1 1) (u "Bonjour, euh... ca va ?")
           H1 H2).
Defined.

(** The boolean form of [no_keyword_matches], for concrete texts. *)
Lemma no_keyword_matches_check (text : str) :
  forallb (fun entry => forallb (fun keyword => negb (contains keyword text))
                          (snd entry)) INTENT_KEYWORDS = true ->
  no_keyword_matches text.
Proof.
  intros H intent keywords keyword Hi Hk.
  pose proof (proj1 (forallb_forall _ _) H _ Hi) as H'. cbn [snd] in H'.
  apply negb_true_iff. exact (proj1 (forallb_forall _ _) H' _ Hk).
Qed.

Example bonjour_run :
  no_keyword_matches (normalize (u "Bonjour, euh... ca va ?"))
  /\ parse_command (of_ymd 2024 1 1) (u "Bonjour, euh... ca va ?")
     = Ok (<["confidence" := VFloat 0]>
            (<["normalized_text" := VStr (u "bonjour ca va")]>
              (<["action" := VStr (u "unknown")]> ∅))).
Proof.
  split; [apply no_keyword_matches_check|]; vm_compute; reflexivity.
Qed.

Lemma Ok_inj {A} (a b : A) : Ok a = Ok b -> a = b.
Proof. intros E. injection E as ->. reflexivity. Qed.

(** Whatever the text, the confidence that [parse_command] writes is the
    constant 0.0. *)
Lemma parse_command_confidence `{Unicode} (today : date) (raw_text : str)
    (parsed : gmap string value) :
  parse_command today raw_text = Ok parsed ->
  parsed !! "confidence" = Some (VFloat 0).
Proof.
  unfold parse_command.
  set (normalized := normalize_dialect (clean_text raw_text)).
  pose proof (detect_intent_action normalized) as Ha.
  revert Ha. generalize (detect_intent normalized) as action.
  intros action Ha.
  unfold ACTIONS in Ha. cbn [map fst INTENT_KEYWORDS app] in Ha.
  unfold mbind, result_bind, mret, result_ret.
  destruct (extract_date normalized None today) as [d|e];
    repeat destruct Ha as [<- | Ha]; try destruct Ha;
    eval_action_tests; intros E;
    first [discriminate E | apply Ok_inj in E; subst parsed; solve_lookup].
Qed.

End CommandFacts.

(* ===================================================================== *)
(** * The audio conditioner *)
(* ===================================================================== *)

Module AudioFacts.
Import Py PyFacts Exn SpeechModel Spec.

Open Scope Q_scope.

(** ** Comparisons, minimum, maximum, rounding *)

Lemma Qltb_lt (x y : Q) : Qltb x y = true <-> x < y.
Proof.
  unfold Qltb. rewrite negb_true_iff. split.
  - intros H. apply Qnot_le_lt. intros Hle.
    apply Qle_bool_iff in Hle. congruence.
  - intros H. destruct (Qle_bool y x) eqn:E; [|reflexivity].
    apply Qle_bool_iff in E. lra.
Qed.

Lemma Qltb_ge (x y : Q) : Qltb x y = false <-> y <= x.
Proof.
  unfold Qltb. rewrite negb_false_iff. apply Qle_bool_iff.
Qed.

(** Python's [min] and [max] choose the same argument as [Qmin] and [Qmax]. *)
Lemma py_min_Qmin (a b : Q) : py_min a b = Qmin a b.
Proof.
  unfold py_min. destruct (Qltb b a) eqn:E.
  - apply Qltb_lt in E. unfold Qmin, GenericMinMax.gmin.
    destruct (a ?= b) eqn:C; try reflexivity.
    + apply Qeq_alt in C. lra.
    + apply Qlt_alt in C. lra.
  - apply Qltb_ge in E. unfold Qmin, GenericMinMax.gmin.
    destruct (a ?= b) eqn:C; try reflexivity.
    apply Qgt_alt in C. lra.
Qed.

Lemma py_max_Qmax (a b : Q) : py_max a b = Qmax a b.
Proof.
  unfold py_max. destruct (Qltb a b) eqn:E.
  - apply Qltb_lt in E. unfold Qmax, GenericMinMax.gmax.
    destruct (a ?= b) eqn:C; try reflexivity.
    + apply Qeq_alt in C. lra.
    + apply Qgt_alt in C. lra.
  - apply Qltb_ge in E. unfold Qmax, GenericMinMax.gmax.
    destruct (a ?= b) eqn:C; try reflexivity.
    apply Qlt_alt in C. lra.
Qed.

Lemma Qmin_cases (a b : Q) : (a <= b /\ Qmin a b = a) \/ (b < a /\ Qmin a b = b).
Proof.
  rewrite <- py_min_Qmin. unfold py_min. destruct (Qltb b a) eqn:E.
  - apply Qltb_lt in E. auto.
  - apply Qltb_ge in E. auto.
Qed.

Lemma Qmax_cases (a b : Q) : (b <= a /\ Qmax a b = a) \/ (a < b /\ Qmax a b = b).
Proof.
  rewrite <- py_max_Qmax. unfold py_max. destruct (Qltb a b) eqn:E.
  - apply Qltb_lt in E. auto.
  - apply Qltb_ge in E. auto.
Qed.

(** [round] moves its argument by half a unit at most. *)
Lemma py_round_near (x : Q) : Qabs (inject_Z (py_round x) - x) <= 1 # 2.
Proof.
  pose proof (Qfloor_le x) as Hlo. pose proof (Qlt_floor x) as Hhi.
  rewrite inject_Z_plus in Hhi. change (inject_Z 1) with 1 in Hhi.
  assert (Hup : inject_Z (Qfloor x + 1) == inject_Z (Qfloor x) + 1)
    by (rewrite inject_Z_plus; reflexivity).
  apply Qabs_Qle_condition. unfold py_round.
  destruct (Qltb (x - inject_Z (Qfloor x)) (1 # 2)) eqn:E1.
  { apply Qltb_lt in E1. split; lra. }
  apply Qltb_ge in E1.
  destruct (Qltb (1 # 2) (x - inject_Z (Qfloor x))) eqn:E2.
  { apply Qltb_lt in E2. rewrite Hup. split; lra. }
  apply Qltb_ge in E2.
  destruct (Z.even (Qfloor x)); [|rewrite Hup]; split; lra.
Qed.

(** ** Resampling *)

Lemma inject_Z_pos (z : Z) : (0 < z)%Z -> 0 < inject_Z z.
Proof. intros H. unfold Qlt. simpl. lia. Qed.

Lemma linspace_length (stop : Q) (num : nat) : length (linspace stop num) = num.
Proof. unfold linspace. rewrite length_map, length_seq. reflexivity. Qed.

Lemma interp_length (xs xp fp : list Q) : length (interp xs xp fp) = length xs.
Proof. unfold interp. apply length_map. Qed.

(** The rounded length is within half a target sample of the exact one. *)
Lemma dst_len_of_near (size : nat) (src_sr dst_sr : Z) :
  (0 < dst_sr)%Z ->
  Qabs (inject_Z (dst_len_of size src_sr dst_sr) / inject_Z dst_sr
        - inject_Z (Z.of_nat size) / inject_Z src_sr)
  <= (1 # 2) / inject_Z dst_sr.
Proof.
  intros Hd. unfold dst_len_of.
  set (X := inject_Z (Z.of_nat size) / inject_Z src_sr).
  pose proof (py_round_near (X * inject_Z dst_sr)) as Hr.
  set (L := inject_Z (py_round (X * inject_Z dst_sr))) in *.
  assert (HD : 0 < inject_Z dst_sr) by (apply inject_Z_pos; exact Hd).
  set (D := inject_Z dst_sr) in *.
  assert (Hi : 0 < / D) by (apply Qinv_lt_0_compat; exact HD).
  assert (E : L / D - X == (L - X * D) * / D) by (field; lra).
  rewrite E. unfold Qdiv.
  apply Qabs_Qle_condition in Hr. apply Qabs_Qle_condition.
  destruct Hr as [Hr1 Hr2]. split; nra.
Qed.




Example three_samples_at_48000 :
  dst_len_of 3 48000 TARGET_SR = 1%Z
  /\ _resample_linear [0; 0; 0] 48000 TARGET_SR = Ok [0; 0; 0]
  /\ duration_error 3 3 48000 TARGET_SR == 1 # 8000
  /\ 1 / inject_Z TARGET_SR < 1 # 8000
  /\ 1 / inject_Z 48000 < 1 # 8000.
Proof. vm_compute. repeat split. Qed.

(** ** Peak normalization *)

Lemma fold_left_Qmax_ge (l : list Q) (a : Q) :
  a <= fold_left Qmax l a /\ forall y, In y l -> y <= fold_left Qmax l a.
Proof.
  revert a; induction l as [|x l IH]; intros a; cbn [fold_left].
  - split; [lra | intros y []].
  - destruct (IH (Qmax a x)) as [H1 H2].
    pose proof (Q.le_max_l a x). pose proof (Q.le_max_r a x).
    split; [lra|]. intros y [<- | Hy]; [lra | auto].
Qed.

(** No sample exceeds the peak. *)
Lemma peak_of_ge (audio : list Q) (x : Q) :
  In x audio -> Qabs x <= peak_of audio.
Proof.
  intros Hx. unfold peak_of.
  assert (Hin : In (Qabs x) (map Qabs audio)) by (apply in_map; exact Hx).
  destruct (map Qabs audio) as [|a l]; [destruct Hin|].
  destruct (fold_left_Qmax_ge l a) as [H1 H2].
  destruct Hin as [<- | Hin]; auto.
Qed.

Lemma clip_bounded (x : Q) : Qabs (clip x (-1) 1) <= 1.
Proof.
  unfold clip. apply Qabs_Qle_condition.
  destruct (Qmin_cases (Qmax x (-1)) 1) as [[H ->] | [H ->]];
    destruct (Qmax_cases x (-1)) as [[H' E] | [H' E]];
    rewrite ?E in *; split; lra.
Qed.

(** C8. Whatever the waveform, no sample of the output of
    [_normalize_peak] exceeds 1 in absolute value; an empty waveform and a
    waveform whose peak is below 1e-6 are returned unchanged; every other
    waveform is multiplied by the gain [min(0.85 / peak, 6.0)] and clipped
    to the interval from -1 to 1. *)
Theorem normalize_peak_bounded (audio : list Q) :
  (forall y, In y (_normalize_peak audio (85 # 100)) -> Qabs y <= 1)
  /\ (audio = [] \/ peak_of audio < 1 # 1000000 ->
      _normalize_peak audio (85 # 100) = audio)
  /\ (audio <> [] -> ~ peak_of audio < 1 # 1000000 ->
      _normalize_peak audio (85 # 100)
      = map (fun x => clip (x * Qmin ((85 # 100) / peak_of audio) 6) (-1) 1)
          audio).
Proof.
  unfold _normalize_peak. destruct audio as [|x audio'].
  { split; [intros y []|]. split; [reflexivity | intros H; contradiction]. }
  set (audio := x :: audio').
  destruct (Qltb (peak_of audio) (1 # 1000000)) eqn:E.
  - apply Qltb_lt in E. split; [|split].
    + intros y Hy. apply peak_of_ge in Hy. lra.
    + reflexivity.
    + intros _ H. contradiction.
  - apply Qltb_ge in E. rewrite py_min_Qmin. split; [|split].
    + intros y Hy. apply in_map_iff in Hy. destruct Hy as [z [<- _]].
      apply clip_bounded.
    + intros [H | H]; [discriminate | lra].
    + reflexivity.
Qed.

Lemma normalize_peak_bounded_witness :
  (forall y, In y (_normalize_peak [1 # 10; -2 # 10] (85 # 100)) -> Qabs y <= 1)
  /\ _normalize_peak [1 # 10000000] (85 # 100) = [1 # 10000000]
  /\ _normalize_peak [1 # 10; -2 # 10] (85 # 100)
     = map (fun x =>
              clip (x * Qmin ((85 # 100) / peak_of [1 # 10; -2 # 10]) 6) (-1) 1)
         [1 # 10; -2 # 10].
Proof.
  split; [exact (proj1 (normalize_peak_bounded [1 # 10; -2 # 10]))|]. split.
  - apply (proj1 (proj2 (normalize_peak_bounded [1 # 10000000]))).
    right. reflexivity.
  - apply (proj2 (proj2 (normalize_peak_bounded [1 # 10; -2 # 10]))).
    + discriminate.
    + vm_compute. discriminate.
Defined.

End AudioFacts.

(* ===================================================================== *)
(** * Transcription: rejection, scoring, assembly *)
(* ===================================================================== *)

Module SpeechFacts.
Import Py PyFacts Exn SpeechModel Spec AudioFacts.

#[local] Existing Instance ascii_tables.

Open Scope Q_scope.

(** ** The rejection of short and quiet clips *)

Lemma min_samples : py_int ((7 # 10) * inject_Z TARGET_SR) = 11200%Z.
Proof. reflexivity. Qed.

(** Once the audio is conditioned, a short or a quiet clip is answered
    without a call to the engine. *)
Lemma recognise_rejects `{Unicode} (eng : engine) (audio : list Q)
    (tr : list event) :
  inject_Z (Z.of_nat (length audio)) < (7 # 10) * inject_Z TARGET_SR
  \/ rms_below audio (8 # 1000) ->
  recognise eng audio tr = (Ok EMPTY_RESULT, tr).
Proof.
  intros Hrej. unfold recognise. rewrite min_samples.
  destruct (Z.of_nat (length audio) <? 11200)%Z eqn:Esize; [reflexivity|].
  apply Z.ltb_ge in Esize.
  destruct Hrej as [Hshort | Hquiet].
  - exfalso.
    assert (E : (7 # 10) * inject_Z TARGET_SR == inject_Z 11200) by reflexivity.
    rewrite E in Hshort. rewrite <- Zlt_Qlt in Hshort. lia.
  - destruct audio as [|x audio']; [cbn in Esize; lia|].
    unfold rms_below in Hquiet. unfold sqrt_ltb.
    apply Qltb_lt in Hquiet. rewrite Hquiet. reflexivity.
Qed.



(** The other rejection: 0.7 s of a faint signal, long enough but with a
    root mean square below 0.008 after conditioning. *)
Example faint_clip_rejected :
  exists audio,
    condition faint_wav = Ok audio
    /\ length audio = Z.to_nat 11200
    /\ rms_below audio (8 # 1000)
    /\ transcribe_audio broken_engine (fun _ => Ok faint_wav) (u "clip.WAV") []
       = (Ok (Transcription [] 0 (u "unknown")), []).
Proof.
  destruct (condition faint_wav) as [audio|e] eqn:Hc;
    [|vm_compute in Hc; discriminate Hc].
  assert (E : Ok audio = condition faint_wav) by (symmetry; exact Hc).
  vm_compute in E.
  assert (Hl : length audio = Z.to_nat 11200)
    by (injection E as ->; vm_compute; reflexivity).
  assert (Hq : rms_below audio (8 # 1000))
    by (injection E as ->; vm_compute; reflexivity).
  exists audio. split; [reflexivity|]. split; [exact Hl|].
  split; [exact Hq|]. vm_compute. reflexivity.
Qed.

(** ** The quality scorer *)

Lemma strip_nonblank (text : str) : strip text <> [] -> text <> [].
Proof. intros H ->. apply H. reflexivity. Qed.

(** On a text that is not blank the score is the formula. *)
Lemma text_quality_score_formula `{Unicode} (text : str) (result : attempt) :
  strip text <> [] ->
  _text_quality_score text result
  = score_formula (allowed_ratio_of text) (avg_logprob_of result)
      (avg_nospeech_of result)
      (Qmax 0 (avg_compression_of result - (24 # 10)))
      (cyr_ratio_of text)
      (if _is_repetitive text then REPETITION_PENALTY else 0).
Proof.
  intros Hs. unfold _text_quality_score.
  destruct text as [|c text]; [exfalso; apply Hs; reflexivity|].
  destruct (strip (c :: text)) as [|c' t']; [contradiction|].
  rewrite py_max_Qmax. reflexivity.
Qed.

Lemma Qmax_0_compat (a b : Q) : a == b -> Qmax 0 a == Qmax 0 b.
Proof.
  intros E.
  destruct (Qmax_cases 0 a) as [[H1 ->] | [H1 ->]];
    destruct (Qmax_cases 0 b) as [[H2 ->] | [H2 ->]]; lra.
Qed.



(** ** The assembly of the result *)

(** [round(x, 3)] is a number of thousandths, half a thousandth from [x] at
    most. *)
Lemma round3_near (x : Q) : Qabs (round3 x - x) <= 1 # 2000.
Proof.
  pose proof (py_round_near (x * 1000)) as H. unfold round3.
  set (k := py_round (x * 1000)) in *.
  assert (E : (k # 1000) == inject_Z k * (1 # 1000)).
  { unfold Qeq, Qmult, inject_Z. simpl. lia. }
  rewrite E. apply Qabs_Qle_condition in H. apply Qabs_Qle_condition.
  destruct H as [Hlo Hhi]. split; lra.
Qed.

Lemma clamp01_bounds (x : Q) : 0 <= clamp01 x <= 1.
Proof.
  unfold clamp01.
  destruct (Qmin_cases 1 x) as [[H ->] | [H ->]];
    destruct (Qmax_cases 0 1) as [[H1 E1] | [H1 E1]];
    destruct (Qmax_cases 0 x) as [[H2 E2] | [H2 E2]];
    rewrite ?E1, ?E2; lra.
Qed.

Lemma base_confidence_cases (result : attempt) :
  let segments := get (a_segments result) [] in
  (segments <> [] ->
   base_confidence result = clamp01 (1 - mean_no_speech segments))
  /\ (segments = [] -> base_confidence result = 4 # 10).
Proof.
  unfold base_confidence. cbv zeta.
  destruct (get (a_segments result) []) as [|seg segs].
  - split; [intros H; contradiction | reflexivity].
  - split; [|discriminate]. intros _.
    rewrite py_max_Qmax, py_min_Qmin. reflexivity.
Qed.



Example stutter_run :
  assemble (Some stutter_attempt) = Transcription [] (350 # 1000) (u "fr")
  /\ assemble None = Transcription [] (400 # 1000) (u "unknown").
Proof. vm_compute. split; reflexivity. Qed.

End SpeechFacts.

(* ===================================================================== *)
(** * The response *)
(* ===================================================================== *)

Module AppFacts.
Import Py PyFacts Exn Date IntentModel SpeechModel App Spec CommandFacts.

#[local] Existing Instance ascii_tables.

(** C9. When both stages succeed, the response carries under [confidence]
    the confidence of the transcription: [process] overwrites the value
    that [parse_command] wrote, and that value is the constant 0.0, not a
    function of the text. *)
Theorem process_confidence_from_transcription `{Unicode} (eng : engine)
    (open_wav : str -> result wav_file) (today : date) (temp_path : str)
    (tr tr' : list event) (stt : transcription) (parsed : gmap string value) :
  transcribe_audio eng open_wav temp_path tr = (Ok stt, tr') ->
  parse_command today (t_text stt) = Ok parsed ->
  parsed !! "confidence" = Some (VFloat 0)
  /\ exists payload,
       process eng open_wav today temp_path tr = (Json200 payload, tr')
       /\ payload !! "confidence" = Some (VFloat (t_confidence stt))
       /\ payload !! "raw_text" = Some (VStr (t_text stt))
       /\ payload !! "language" = Some (VStr (t_language stt))
       /\ forall key,
            key <> "confidence" -> key <> "raw_text" -> key <> "language" ->
            payload !! key = parsed !! key.
Proof.
  intros Hstt Hparsed.
  split; [exact (parse_command_confidence _ _ _ Hparsed)|].
  unfold process, process_body.
  unfold mbind at 1, M_bind. rewrite Hstt.
  unfold mbind, M_bind, lift. rewrite Hparsed.
  eexists. split; [reflexivity|].
  split; [solve_lookup|]. split; [solve_lookup|]. split; [solve_lookup|].
  intros key H1 H2 H3. rewrite !lookup_insert_ne by congruence. reflexivity.
Qed.

Lemma process_confidence_from_transcription_witness :
  let stt := Transcription (u "Rappelle-moi demain matin, le docteur.")
               (750 # 1000) (u "fr") in
  let calls := [EvLoad; EvTranscribe None; EvTranscribe (Some (u "fr"));
                EvTranscribe (Some (u "ar"))] in
  let parsed : gmap string value :=
    <["text" := VStr (u "Rendez-vous docteur")]>
      (<["time" := VStr (u "09:00")]>
        (<["date" := VStr (u "2024-01-02")]>
          (<["confidence" := VFloat 0]>
            (<["normalized_text" := VStr (u "rappelle-moi demain matin le docteur")]>
              (<["action" := VStr (u "create_reminder")]> ∅))))) in
  transcribe_audio reminder_engine (fun _ => Ok loud_wav) (u "clip.wav") []
  = (Ok stt, calls)
  /\ parse_command (of_ymd 2024 1 1) (t_text stt) = Ok parsed
  /\ parsed !! "confidence" = Some (VFloat 0)
  /\ exists payload,
       process reminder_engine (fun _ => Ok loud_wav) (of_ymd 2024 1 1)
         (u "clip.wav") []
       = (Json200 payload, calls)
       /\ payload !! "confidence" = Some (VFloat (750 # 1000))
       /\ payload !! "action" = Some (VStr (u "create_reminder"))
       /\ payload !! "date" = Some (VStr (u "2024-01-02")).
Proof.
  intros stt calls parsed.
  assert (Hstt : transcribe_audio reminder_engine (fun _ => Ok loud_wav)
                   (u "clip.wav") [] = (Ok stt, calls))
    by (vm_compute; reflexivity).
  assert (Hp : parse_command (of_ymd 2024 1 1) (t_text stt) = Ok parsed)
    by (vm_compute; reflexivity).
  destruct (process_confidence_from_transcription reminder_engine
              (fun _ => Ok loud_wav) (of_ymd 2024 1 1) (u "clip.wav")
              [] calls stt parsed Hstt Hp)
    as [Hzero [payload [Hproc [Hconf [_ [_ Hrest]]]]]].
  split; [exact Hstt|]. split; [exact Hp|]. split; [exact Hzero|].
  exists payload. split; [exact Hproc|]. split; [exact Hconf|].
  split; (rewrite Hrest by discriminate; vm_compute; reflexivity).
Defined.

End AppFacts.

(* ===================================================================== *)
(** * Runs *)
(* ===================================================================== *)

(** The examples that the specification lists, run on the embedding. *)
Module Runs.
Import Py Exn Date IntentModel SpeechModel App Spec.

#[local] Existing Instance ascii_tables.

Example clean_text_fillers_and_repeats :
  clean_text (u "euh je euh veux veux rappeler") = u "je veux rappeler".
Proof. vm_compute. reflexivity. Qed.

Example normalize_dialect_ghodwa_sbah :
  normalize_dialect (u "ghodwa sbah") = u "demain matin".
Proof. vm_compute. reflexivity. Qed.

Example detect_intent_emergency_override :
  detect_intent (u "appelle le samu") = u "emergency_call"
  /\ best_intent (u "appelle le samu") = Some (u "call_contact").
Proof. vm_compute. split; reflexivity. Qed.

Example detect_intent_medication_override :
  detect_intent (u "rappelle moi mon cachet") = u "medication_reminder"
  /\ best_intent (u "rappelle moi mon cachet") = Some (u "create_reminder").
Proof. vm_compute. split; reflexivity. Qed.

Example parse_command_docteur :
  parse_command (of_ymd 2024 1 1) (u "rappelle moi demain matin le docteur")
  = Ok (<["text" := VStr (u "Rendez-vous docteur")]>
         (<["time" := VStr (u "09:00")]>
           (<["date" := VStr (u "2024-01-02")]>
             (<["confidence" := VFloat 0]>
               (<["normalized_text" :=
                    VStr (u "rappelle moi demain matin le docteur")]>
                 (<["action" := VStr (u "create_reminder")]> ∅)))))).
Proof. vm_compute. reflexivity. Qed.

(** 2024-01-01 is a Monday: [lundi] is the Monday of the week after. *)
Example extract_date_same_weekday :
  weekday (of_ymd 2024 1 1) = 0%Z
  /\ extract_date (u "lundi") (Some (of_ymd 2024 1 1)) (of_ymd 2024 1 1)
     = Ok (u "2024-01-08")
  /\ extract_date (u "mercredi") (Some (of_ymd 2024 1 1)) (of_ymd 2024 1 1)
     = Ok (u "2024-01-03").
Proof. vm_compute. repeat split. Qed.

Example extract_time_forms :
  extract_time (u "a 14h30") = Some (u "14:30")
  /\ extract_time (u "vers 7:05") = Some (u "07:05")
  /\ extract_time (u "a 9 h") = Some (u "09:00")
  /\ extract_time (u "le soir") = Some (u "20:00")
  /\ extract_time (u "a 25h") = None.
Proof. vm_compute. repeat split. Qed.

Example extract_contact_forms :
  extract_contact (u "appelle mon fils demain") = Some (u "mon fils")
  /\ extract_contact (u "telephone a la pharmacie vers 10h")
     = Some (u "la pharmacie")
  /\ extract_contact (u "un appel") = None.
Proof. vm_compute. repeat split. Qed.

Example is_repetitive_forms :
  _is_repetitive (u "merci merci merci merci") = true
  /\ _is_repetitive (u "je vais je vais je vais la") = true
  /\ _is_repetitive (u "merci merci beaucoup") = false
  /\ _is_repetitive (u "ok ok") = false.
Proof. vm_compute. repeat split. Qed.

End Runs.

(* ===================================================================== *)
(** * More on the intent classifier and the slot extractors *)
(* ===================================================================== *)

Module IntentMore.
Import Py PyFacts Exn Date IntentModel Spec Spec2 IntentFacts CommandFacts.

#[local] Existing Instance ascii_tables.

Lemma keyword_score_pos (keywords : list str) (text : str) :
  (0 < keyword_score keywords text)%Z <->
  exists keyword, In keyword keywords /\ contains keyword text = true.
Proof.
  unfold keyword_score. split.
  - intros H.
    destruct (List.filter (fun keyword => contains keyword text) keywords)
      as [|k l] eqn:E; [simpl in H; lia|].
    assert (Hk : In k (List.filter (fun keyword => contains keyword text) keywords))
      by (rewrite E; simpl; auto).
    apply filter_In in Hk. exists k. exact Hk.
  - intros [k [Hin Hc]].
    assert (Hk : In k (List.filter (fun keyword => contains keyword text) keywords))
      by (apply filter_In; auto).
    destruct (List.filter _ keywords); [destruct Hk | simpl; lia].
Qed.

Lemma existsb_contains (keywords : list str) (text : str) :
  existsb (fun k => contains k text) keywords = true <->
  exists keyword, In keyword keywords /\ contains keyword text = true.
Proof. apply existsb_exists. Qed.

Lemma any_keyword_occurs (intent : string) (text : str) :
  any_keyword intent text = true -> keyword_of_occurs (u intent) text.
Proof.
  unfold any_keyword.
  destruct (dict_get INTENT_KEYWORDS (u intent)) as [kws|] eqn:E; [|discriminate].
  intros H. apply existsb_contains in H. destruct H as [k [Hk Hc]].
  exists kws, k. split; [apply dict_get_In, E | auto].
Qed.

Lemma best_intent_occurs (text best : str) :
  best_intent text = Some best -> keyword_of_occurs best text.
Proof.
  intros H. apply best_intent_spec in H. destruct H as [H _].
  apply tied_at_max_In, scored_In in H. destruct H as [Hpos [kws [Hin Hs]]].
  rewrite Hs in Hpos. apply keyword_score_pos in Hpos.
  destruct Hpos as [k [Hk Hc]]. exists kws, k. auto.
Qed.

Lemma intent_names_known :
  forallb (fun entry => negb (str_eqb (fst entry) (u "unknown"))) INTENT_KEYWORDS
  = true.
Proof. reflexivity. Qed.

Lemma keyword_of_occurs_named (intent text : str) :
  keyword_of_occurs intent text -> intent <> u "unknown".
Proof.
  intros [kws [k [Hin _]]] ->.
  pose proof (proj1 (forallb_forall _ _) intent_names_known _ Hin) as H.
  discriminate H.
Qed.

Lemma occurs_scored (text : str) :
  (exists intent, keyword_of_occurs intent text) -> scored text <> [].
Proof.
  intros [intent [kws [k [Hin [Hk Hc]]]]] E.
  assert (H : In (keyword_score kws text, intent) (scored text)).
  { apply scored_In. split; [|eauto]. apply keyword_score_pos. eauto. }
  rewrite E in H. destruct H.
Qed.

(** X1. The classifier is sound: it answers with an intent only if one of that
    intent's keywords occurs in the text, and it answers [unknown] exactly
    when no keyword of any intent occurs. *)
Theorem detect_intent_sound (text : str) :
  (detect_intent text = u "unknown" <-> no_keyword_matches text)
  /\ (detect_intent text <> u "unknown" ->
      keyword_of_occurs (detect_intent text) text).
Proof.
  assert (Hocc : detect_intent text = u "unknown"
                 \/ keyword_of_occurs (detect_intent text) text).
  { unfold detect_intent. destruct (best_intent text) as [best|] eqn:E; [|auto].
    right. destruct (_ && any_keyword "emergency_call" text) eqn:E1.
    { apply andb_true_iff in E1. apply any_keyword_occurs, E1. }
    destruct (_ && any_keyword "medication_reminder" text) eqn:E2.
    { apply andb_true_iff in E2. apply any_keyword_occurs, E2. }
    apply best_intent_occurs, E. }
  split; [split|].
  - intros Hu intent kws k Hin Hk.
    destruct (contains k text) eqn:Hc; [|reflexivity]. exfalso.
    assert (Hs : scored text <> []) by (apply occurs_scored; exists intent, kws, k; auto).
    destruct (best_intent_some text Hs) as [best Hb].
    destruct Hocc as [Hocc | Hocc].
    + unfold detect_intent in Hocc. rewrite Hb in Hocc.
      destruct (_ && any_keyword "emergency_call" text); [discriminate Hocc|].
      destruct (_ && any_keyword "medication_reminder" text); [discriminate Hocc|].
      apply best_intent_occurs in Hb. apply keyword_of_occurs_named in Hb.
      contradiction.
    + apply keyword_of_occurs_named in Hocc. contradiction.
  - apply no_match_unknown.
  - intros Hne. destruct Hocc; [contradiction | assumption].
Qed.

(** X2. The two overrides as guarantees: a text with an emergency keyword is
    never classified [call_contact], a text with a medication keyword never
    [create_reminder]. *)
Theorem detect_intent_overrides (text keyword : str) :
  contains keyword text = true ->
  (In keyword (map u ["urgence"; "samu"; "ambulance"; "secours"]%string) ->
   detect_intent text <> u "call_contact")
  /\ (In keyword (map u ["medicament"; "cachet"; "traitement"; "pilule"]%string) ->
      detect_intent text <> u "create_reminder").
Proof.
  intros Hc. split; intros Hin.
  - assert (Ha : any_keyword "emergency_call" text = true).
    { unfold any_keyword. change (dict_get INTENT_KEYWORDS (u "emergency_call"))
        with (Some (map u ["urgence"; "samu"; "ambulance"; "secours"]%string)).
      apply existsb_contains. eauto. }
    unfold detect_intent. rewrite Ha.
    destruct (best_intent text) as [best|]; [|discriminate].
    destruct (str_eqb best (u "call_contact")) eqn:E; cbn [andb]; [discriminate|].
    destruct (_ && _); [discriminate|]. apply str_eqb_neq, E.
  - assert (Ha : any_keyword "medication_reminder" text = true).
    { unfold any_keyword. change (dict_get INTENT_KEYWORDS (u "medication_reminder"))
        with (Some (map u ["medicament"; "cachet"; "traitement"; "pilule"]%string)).
      apply existsb_contains. eauto. }
    unfold detect_intent. rewrite Ha.
    destruct (best_intent text) as [best|]; [|discriminate].
    destruct (_ && any_keyword "emergency_call" text); [discriminate|].
    destruct (str_eqb best (u "create_reminder")) eqn:E; cbn [andb]; [discriminate|].
    apply str_eqb_neq, E.
Qed.

Lemma detect_intent_overrides_witness :
  contains (u "samu") (u "appelle le samu") = true
  /\ In (u "samu") (map u ["urgence"; "samu"; "ambulance"; "secours"]%string)
  /\ detect_intent (u "appelle le samu") <> u "call_contact"
  /\ best_intent (u "appelle le samu") = Some (u "call_contact").
Proof.
  assert (Hc : contains (u "samu") (u "appelle le samu") = true) by reflexivity.
  assert (Hin : In (u "samu") (map u ["urgence"; "samu"; "ambulance"; "secours"]%string))
    by (right; left; reflexivity).
  split; [exact Hc|]. split; [exact Hin|]. split.
  - exact (proj1 (detect_intent_overrides (u "appelle le samu") (u "samu") Hc) Hin).
  - vm_compute. reflexivity.
Defined.

End IntentMore.

Module SlotMore.
Import Py PyFacts Exn Date IntentModel Spec Spec2 IntentFacts CommandFacts.

#[local] Existing Instance ascii_tables.

Lemma weekdays_range :
  forallb (fun entry => (0 <=? snd entry)%Z && (snd entry <=? 6)%Z) weekdays = true.
Proof. reflexivity. Qed.

(** X3. [extract_date] never answers with a day before the reference day or
    more than a week after it; a weekday name (when no word for tomorrow or
    today occurs) gives the next day of that name, strictly after the
    reference day, so a week later when the reference day has that name. *)
Theorem extract_date_within_week (text : str) (reference : option date)
    (today : date) :
  let now := match reference with Some d => d | None => today end in
  (1 <= now)%Z -> (now + 7 <= MAXORDINAL)%Z ->
  exists delta,
    (0 <= delta <= 7)%Z
    /\ extract_date text reference today = Ok (isoformat (now + delta)%Z)
    /\ (contains (u "demain") text = false ->
        contains (u "aujourdhui") text = false ->
        contains (u "auj") text = false ->
        forall name idx,
          find (fun entry => contains (fst entry) text) weekdays = Some (name, idx) ->
          (1 <= delta)%Z /\ weekday (now + delta)%Z = idx).
Proof.
  intros now H1 H2. unfold extract_date. fold now.
  destruct (contains (u "demain") text) eqn:Ed.
  { exists 1%Z. rewrite add_days_ok by lia.
    split; [lia|]. split; [reflexivity | discriminate]. }
  destruct (contains (u "apres demain") text) eqn:Ea.
  { assert (contains (u "demain") text = true)
      by (apply contains_trans with (u "apres demain"); [reflexivity | exact Ea]).
    congruence. }
  destruct (contains (u "aujourdhui") text) eqn:Ej.
  { exists 0%Z. cbn [orb]. rewrite Z.add_0_r.
    split; [lia|]. split; [reflexivity | discriminate]. }
  destruct (contains (u "auj") text) eqn:Ek.
  { exists 0%Z. cbn [orb]. rewrite Z.add_0_r.
    split; [lia|]. split; [reflexivity | discriminate]. }
  cbn [orb].
  destruct (find (fun entry => contains (fst entry) text) weekdays)
    as [[name idx]|] eqn:Ef.
  - apply find_some in Ef. destruct Ef as [Hin _].
    pose proof (proj1 (forallb_forall _ _) weekdays_range _ Hin) as Hr.
    cbn [snd] in Hr. apply andb_true_iff in Hr. destruct Hr as [Hr1 Hr2].
    apply Z.leb_le in Hr1, Hr2.
    pose proof (Z.mod_pos_bound (idx - weekday now) 7 ltac:(lia)) as Hm.
    set (d := ((idx - weekday now) mod 7)%Z) in *.
    exists (if (d =? 0)%Z then 7%Z else d).
    assert (Hd : (1 <= (if (d =? 0)%Z then 7 else d) <= 7)%Z).
    { destruct (d =? 0)%Z eqn:E0; [lia|]. apply Z.eqb_neq in E0. lia. }
    rewrite add_days_ok by lia.
    split; [lia|]. split; [reflexivity|].
    intros _ _ _ name' idx' [= <- <-]. split; [lia|].
    unfold weekday in *. subst d. clear Hd.
    destruct (((idx - (now + 6) mod 7) mod 7 =? 0)%Z) eqn:E0;
      [apply Z.eqb_eq in E0 | apply Z.eqb_neq in E0];
      Z.to_euclidean_division_equations; lia.
  - exists 0%Z. rewrite Z.add_0_r.
    split; [lia|]. split; [reflexivity | discriminate].
Qed.

Lemma extract_date_within_week_witness :
  let now := of_ymd 2024 1 1 in
  (1 <= now)%Z /\ (now + 7 <= MAXORDINAL)%Z
  /\ weekday now = 0%Z
  /\ find (fun entry => contains (fst entry) (u "lundi prochain")) weekdays
     = Some (u "lundi", 0%Z)
  /\ exists delta,
       (1 <= delta <= 7)%Z /\ weekday (now + delta)%Z = 0%Z
       /\ extract_date (u "lundi prochain") (Some now) now = Ok (isoformat (now + delta)%Z).
Proof.
  intros now.
  assert (H1 : (1 <= now)%Z) by (vm_compute; discriminate).
  assert (H2 : (now + 7 <= MAXORDINAL)%Z) by (vm_compute; discriminate).
  split; [exact H1|]. split; [exact H2|]. split; [reflexivity|].
  split; [reflexivity|].
  destruct (extract_date_within_week (u "lundi prochain") (Some now) now H1 H2)
    as [delta [Hd [He Hw]]].
  destruct (Hw eq_refl eq_refl eq_refl (u "lundi") 0%Z eq_refl) as [Hpos Hday].
  exists delta. split; [lia|]. split; [exact Hday | exact He].
Defined.

(** On the last day that [datetime.date] can hold, a text that says
    [demain] makes [extract_date] raise [OverflowError]. *)
Example extract_date_overflow :
  extract_date (u "rappelle moi demain") None MAXORDINAL
  = Err (OverflowError "date value out of range").
Proof. reflexivity. Qed.

(** The lookup of a concrete key in a payload built by insertions. *)
Ltac eval_lookup :=
  repeat first
    [ rewrite lookup_insert_eq
    | rewrite lookup_insert_ne by discriminate
    | rewrite lookup_empty ].

Ltac solve_present :=
  match goal with
  | |- is_Some ?o <-> ?b = true =>
      let v := eval vm_compute in b in
      change b with v; eval_lookup;
      split; [intros [w Hw]; try discriminate Hw; reflexivity
             | intros Hb; try discriminate Hb; eexists; reflexivity]
  end.

(** X4. Which slot fields go with which action: in every payload that
    [parse_command] returns, the action is the detected intent, and a slot
    key is present exactly for the actions that fill it. *)
Theorem parse_command_slots `{Unicode} (today : date) (raw_text : str)
    (payload : gmap string value) :
  parse_command today raw_text = Ok payload ->
  let action := detect_intent (normalize raw_text) in
  payload !! "action" = Some (VStr action)
  /\ (is_Some (payload !! "date") <->
      is_one_of action ["create_reminder"; "medication_reminder"; "set_alarm";
                        "get_weather"; "cancel_reminder"] = true)
  /\ (is_Some (payload !! "time") <->
      is_one_of action ["create_reminder"; "medication_reminder"; "set_alarm"]
      = true)
  /\ (is_Some (payload !! "text") <->
      is_one_of action ["create_reminder"; "medication_reminder"; "set_alarm";
                        "send_message"] = true)
  /\ (is_Some (payload !! "contact") <->
      is_one_of action ["call_contact"; "emergency_call"; "send_message"] = true)
  /\ (is_Some (payload !! "city") <-> is_one_of action ["get_weather"] = true)
  /\ (is_Some (payload !! "timezone") <-> is_one_of action ["check_time"] = true)
  /\ (is_Some (payload !! "media") <-> is_one_of action ["play_media"] = true).
Proof.
  unfold parse_command, normalize.
  set (normalized := normalize_dialect (clean_text raw_text)).
  pose proof (detect_intent_action normalized) as Ha.
  revert Ha. generalize (detect_intent normalized) as action.
  intros action Ha.
  unfold ACTIONS in Ha. cbn [map fst INTENT_KEYWORDS app] in Ha.
  unfold mbind, result_bind, mret, result_ret.
  destruct (extract_date normalized None today) as [d|e];
    repeat destruct Ha as [<- | Ha]; try destruct Ha;
    eval_action_tests; intros E;
    first [discriminate E | apply Ok_inj in E; subst payload];
    cbv zeta; (split; [solve_lookup|]);
    repeat (split; [solve_present|]); solve_present.
Qed.

Lemma parse_command_slots_witness :
  let payload : gmap string value :=
    <["date" := VStr (u "2024-01-08")]>
      (<["city" := VStr (u "Sfax")]>
        (<["confidence" := VFloat 0]>
          (<["normalized_text" := VStr (u "meteo a sfax lundi")]>
            (<["action" := VStr (u "get_weather")]> ∅)))) in
  parse_command (of_ymd 2024 1 1) (u "Euh, meteo a Sfax lundi ?") = Ok payload
  /\ is_Some (payload !! "date") /\ is_Some (payload !! "city")
  /\ ~ is_Some (payload !! "time").
Proof.
  intros payload.
  assert (Hp : parse_command (of_ymd 2024 1 1) (u "Euh, meteo a Sfax lundi ?")
               = Ok payload) by (vm_compute; reflexivity).
  destruct (parse_command_slots _ _ _ Hp) as [_ [Hd [Ht [_ [_ [Hc _]]]]]].
  split; [exact Hp|]. split; [apply Hd; vm_compute; reflexivity|].
  split; [apply Hc; vm_compute; reflexivity|].
  intros Hs. apply Ht in Hs. vm_compute in Hs. discriminate Hs.
Defined.

Lemma or_default_nonempty (o : option str) (default : str) :
  default <> [] -> or_default o default <> [].
Proof. intros Hd. destruct o as [[|c s]|]; simpl; auto; discriminate. Qed.

(** X5. The values that do not depend on the words of the text: an emergency
    call goes to [urgence], the time is asked for [Africa/Tunis], a message
    always has a contact and the weather a city (neither is ever empty or
    null), the media is one of three, and only a plain call can have a null
    contact. *)
Theorem parse_command_slot_values `{Unicode} (today : date) (raw_text : str)
    (payload : gmap string value) :
  parse_command today raw_text = Ok payload ->
  let action := detect_intent (normalize raw_text) in
  (action = u "emergency_call" ->
   payload !! "contact" = Some (VStr (u "urgence")))
  /\ (action = u "check_time" ->
      payload !! "timezone" = Some (VStr (u "Africa/Tunis")))
  /\ (action = u "send_message" ->
      exists contact, contact <> [] /\ payload !! "contact" = Some (VStr contact))
  /\ (action = u "get_weather" ->
      exists city, city <> [] /\ payload !! "city" = Some (VStr city))
  /\ (action = u "play_media" ->
      exists media,
        In media (map u ["quran"; "radio"; "musique"]%string)
        /\ payload !! "media" = Some (VStr media))
  /\ (action = u "call_contact" ->
      payload !! "contact" = Some (opt_value (extract_contact (normalize raw_text)))).
Proof.
  unfold parse_command, normalize.
  set (normalized := normalize_dialect (clean_text raw_text)).
  pose proof (detect_intent_action normalized) as Ha.
  revert Ha. generalize (detect_intent normalized) as action.
  intros action Ha.
  unfold ACTIONS in Ha. cbn [map fst INTENT_KEYWORDS app] in Ha.
  unfold mbind, result_bind, mret, result_ret.
  destruct (extract_date normalized None today) as [d|e];
    repeat destruct Ha as [<- | Ha]; try destruct Ha;
    eval_action_tests; intros E;
    first [discriminate E | apply Ok_inj in E; subst payload];
    cbv zeta; repeat split; intros Eq;
    try (vm_compute in Eq; discriminate Eq); clear Eq;
    first
      [ solve_lookup
      | eexists; split; [|solve_lookup];
        first [ apply or_default_nonempty; discriminate
              | repeat match goal with
                       | |- context [if ?b then _ else _] => destruct b
                       end; vm_compute; tauto ] ].
Qed.

Lemma parse_command_slot_values_witness :
  let payload : gmap string value :=
    <["contact" := VStr (u "urgence")]>
      (<["confidence" := VFloat 0]>
        (<["normalized_text" := VStr (u "appelle vite le samu")]>
          (<["action" := VStr (u "emergency_call")]> ∅))) in
  parse_command (of_ymd 2024 1 1) (u "Appelle vite le SAMU !") = Ok payload
  /\ detect_intent (normalize (u "Appelle vite le SAMU !")) = u "emergency_call"
  /\ payload !! "contact" = Some (VStr (u "urgence")).
Proof.
  intros payload.
  assert (Hp : parse_command (of_ymd 2024 1 1) (u "Appelle vite le SAMU !")
               = Ok payload) by (vm_compute; reflexivity).
  assert (Ha : detect_intent (normalize (u "Appelle vite le SAMU !"))
               = u "emergency_call") by (vm_compute; reflexivity).
  split; [exact Hp|]. split; [exact Ha|].
  exact (proj1 (parse_command_slot_values _ _ _ Hp) Ha).
Defined.

End SlotMore.

(* ===================================================================== *)
(** * More on the normalizer and the command assembler *)
(* ===================================================================== *)

Module TextMore.
Import Py PyFacts Exn Date IntentModel Spec Spec2 IntentFacts CommandFacts.

#[local] Existing Instance ascii_tables.

Lemma mapped_tokens_In (tokens : list str) (tok : str) :
  forallb is_token tokens = true ->
  In tok (mapped_tokens tokens) -> tok <> [] /\ dialect_of tok = tok.
Proof.
  intros Htok Hin. unfold mapped_tokens in Hin.
  apply in_map_iff in Hin. destruct Hin as [t [<- Hin]].
  apply filter_In in Hin. destruct Hin as [Hin Hne].
  apply negb_true_iff, str_eqb_neq in Hne.
  split; [exact Hne|].
  rewrite forallb_forall in Htok.
  destruct (dialect_of_cases t (Htok t Hin)) as [He | [_ Hfix]];
    [contradiction | exact Hfix].
Qed.

(** X6. The output of [normalize_dialect] is in canonical form: splitting it
    gives back the mapped tokens of the input, joining these with one space
    gives the output again (so it has no leading, trailing or doubled white
    space), and each of its tokens is left alone by the dialect table. *)
Theorem normalize_dialect_canonical (text : str) :
  split (normalize_dialect text) = mapped_tokens (split text)
  /\ join (u " ") (split (normalize_dialect text)) = normalize_dialect text
  /\ forall tok, In tok (split (normalize_dialect text)) ->
       tok <> [] /\ dialect_of tok = tok.
Proof.
  assert (Hsplit : split (normalize_dialect text) = mapped_tokens (split text)).
  { unfold normalize_dialect. fold (mapped_tokens (split text)).
    apply split_join.
    apply (proj1 (mapped_tokens_fixed _ (split_tokens text))). }
  split; [exact Hsplit|]. split.
  - rewrite Hsplit. reflexivity.
  - intros tok Hin. rewrite Hsplit in Hin.
    apply (mapped_tokens_In _ _ (split_tokens text) Hin).
Qed.

Lemma extract_date_err (text : str) (reference : option date) (today : date)
    (e : exn) :
  extract_date text reference today = Err e ->
  e = OverflowError "date value out of range".
Proof.
  unfold extract_date, add_days, fmap, result_fmap.
  repeat match goal with
         | |- context [if ?b then _ else _] => destruct b
         | |- context [match find ?f ?l with _ => _ end] =>
             destruct (find f l) as [[? ?]|]
         end;
    intros E; first [discriminate E | injection E as <-; reflexivity].
Qed.

Lemma extract_date_err_range (text : str) (today : date) (e : exn) :
  extract_date text None today = Err e ->
  (today < 1)%Z \/ (MAXORDINAL < today + 7)%Z.
Proof.
  intros He.
  destruct (Z_lt_dec today 1) as [|Hlo]; [left; assumption|].
  destruct (Z_lt_dec MAXORDINAL (today + 7)) as [|Hhi]; [right; assumption|].
  destruct (extract_date_ok text today) as [d Hd]; [lia | lia |].
  rewrite Hd in He. discriminate He.
Qed.

(** X7. The only exception that [parse_command] can raise is the
    [OverflowError] of [date + timedelta]: it needs an action that carries a
    date and a [today] whose following week does not fit in
    [datetime.date]. *)
Theorem parse_command_raises_only_overflow `{Unicode} (today : date)
    (raw_text : str) (e : exn) :
  parse_command today raw_text = Err e ->
  e = OverflowError "date value out of range"
  /\ is_one_of (detect_intent (normalize raw_text))
       ["create_reminder"; "medication_reminder"; "set_alarm"; "get_weather";
        "cancel_reminder"] = true
  /\ ((today < 1)%Z \/ (MAXORDINAL < today + 7)%Z).
Proof.
  unfold parse_command, normalize.
  set (normalized := normalize_dialect (clean_text raw_text)).
  pose proof (detect_intent_action normalized) as Ha.
  pose proof (extract_date_err normalized None today) as Herr.
  pose proof (extract_date_err_range normalized today) as Hrange.
  revert Ha. generalize (detect_intent normalized) as action.
  intros action Ha.
  unfold ACTIONS in Ha. cbn [map fst INTENT_KEYWORDS app] in Ha.
  unfold mbind, result_bind, mret, result_ret.
  destruct (extract_date normalized None today) as [d|e'];
    repeat destruct Ha as [<- | Ha]; try destruct Ha;
    eval_action_tests; intros E; try discriminate E;
    injection E as <-;
    (split; [apply Herr; reflexivity|]);
    (split; [vm_compute; reflexivity|]);
    apply (Hrange e'); reflexivity.
Qed.

Lemma parse_command_raises_only_overflow_witness :
  parse_command MAXORDINAL (u "Rappelle-moi demain le docteur")
  = Err (OverflowError "date value out of range")
  /\ is_one_of (detect_intent (normalize (u "Rappelle-moi demain le docteur")))
       ["create_reminder"; "medication_reminder"; "set_alarm"; "get_weather";
        "cancel_reminder"] = true
  /\ ((MAXORDINAL < 1)%Z \/ (MAXORDINAL < MAXORDINAL + 7)%Z).
Proof.
  assert (He : parse_command MAXORDINAL (u "Rappelle-moi demain le docteur")
               = Err (OverflowError "date value out of range"))
    by (vm_compute; reflexivity).
  split; [exact He|].
  exact (proj2 (parse_command_raises_only_overflow _ _ _ He)).
Defined.

Lemma find_contains_nonempty (names : list str) (text name : str) :
  forallb (fun n => negb (str_eqb n [])) names = true ->
  find (fun n => contains n text) names = Some name -> name <> [].
Proof.
  intros Hall Hfind. apply find_some in Hfind. destruct Hfind as [Hin _].
  rewrite forallb_forall in Hall.
  apply str_eqb_neq, negb_true_iff, Hall, Hin.
Qed.

(** X8. No extractor answers with an empty string: the reminder text and the
    message text are never empty, and a contact or a city is either absent
    or not empty. [str.capitalize] is asked to keep a string that is not
    empty not empty, as it does in Python. *)
Theorem slot_texts_nonempty `{Unicode} (text : str) :
  (forall s, s <> [] -> uc_capitalize s <> []) ->
  build_reminder_text text <> []
  /\ extract_message text <> []
  /\ extract_contact text <> Some []
  /\ extract_city text <> Some [].
Proof.
  intros Hcap. split; [|split; [|split]].
  - unfold build_reminder_text.
    destruct (contains (u "docteur") text); [discriminate|].
    match goal with
    | |- context [strip ?s] => destruct (strip s) as [|c body]
    end; [discriminate | apply Hcap; discriminate].
  - unfold extract_message.
    destruct (search message_re text) as [m|]; [|discriminate].
    destruct (strip (group_or_empty m 1)) as [|c body];
      [discriminate | apply Hcap; discriminate].
  - unfold extract_contact.
    assert (Hh : find (fun hint => contains hint text) CONTACT_HINTS <> Some []).
    { intros Hf.
      apply (find_contains_nonempty CONTACT_HINTS text [] eq_refl Hf).
      reflexivity. }
    destruct (search contact_re text) as [m|]; [|exact Hh].
    match goal with
    | |- context [strip (hd ?d ?l)] => destruct (strip (hd d l)) as [|c body]
    end; [exact Hh | discriminate].
  - unfold extract_city.
    destruct (find (fun city => contains city text) CITY_KEYWORDS) as [city|] eqn:Hf;
      [|discriminate].
    apply (find_contains_nonempty CITY_KEYWORDS text city eq_refl) in Hf.
    cbn. intros E. injection E as E. exact (Hcap _ Hf E).
Qed.

Lemma slot_texts_nonempty_witness :
  (forall s, s <> [] -> uc_capitalize s <> [])
  /\ build_reminder_text (u "rappelle moi demain matin") = u "Rappel"
  /\ build_reminder_text (u "rappelle moi demain matin") <> []
  /\ extract_message (u "envoie un sms") <> []
  /\ extract_contact (u "appelle   ") <> Some []
  /\ extract_city (u "meteo a sfax") <> Some [].
Proof.
  assert (Hcap : forall s : str, s <> [] -> uc_capitalize s <> []).
  { intros [|c s] Hs; [congruence | discriminate]. }
  split; [exact Hcap|].
  split; [vm_compute; reflexivity|].
  split; [exact (proj1 (slot_texts_nonempty (u "rappelle moi demain matin") Hcap))|].
  split; [exact (proj1 (proj2 (slot_texts_nonempty (u "envoie un sms") Hcap)))|].
  split; [exact (proj1 (proj2 (proj2 (slot_texts_nonempty (u "appelle   ") Hcap))))|].
  exact (proj2 (proj2 (proj2 (slot_texts_nonempty (u "meteo a sfax") Hcap)))).
Defined.

End TextMore.

(* ===================================================================== *)
(** * More on reading and resampling the audio *)
(* ===================================================================== *)

Module AudioMore.
Import Py PyFacts Exn SpeechModel Spec Spec2 AudioFacts.

Open Scope Q_scope.

(** ** Sums and means *)

Lemma inject_Z_succ (n : nat) :
  inject_Z (Z.of_nat (S n)) == inject_Z (Z.of_nat n) + 1.
Proof. rewrite Nat2Z.inj_succ. unfold Z.succ. rewrite inject_Z_plus. reflexivity. Qed.

Lemma fold_sum_bounds (l : list Q) (lo hi acc : Q) :
  (forall x, In x l -> lo <= x <= hi) ->
  acc + inject_Z (Z.of_nat (length l)) * lo
  <= fold_left (fun acc x => Qred (acc + x)) l acc
  <= acc + inject_Z (Z.of_nat (length l)) * hi.
Proof.
  revert acc. induction l as [|x l IH]; intros acc Hl.
  - cbn [fold_left length]. change (inject_Z (Z.of_nat 0)) with 0. split; lra.
  - cbn [fold_left].
    assert (Hx : lo <= x <= hi) by (apply Hl; left; reflexivity).
    assert (Hl' : forall y, In y l -> lo <= y <= hi)
      by (intros y Hy; apply Hl; right; exact Hy).
    specialize (IH (Qred (acc + x)) Hl').
    pose proof (inject_Z_succ (length l)) as Hs.
    pose proof (Qred_correct (acc + x)) as Hred.
    cbn [length].
    set (n1 := inject_Z (Z.of_nat (S (length l)))) in *.
    set (n := inject_Z (Z.of_nat (length l))) in *.
    set (r := Qred (acc + x)) in *.
    destruct IH as [IH1 IH2].
    assert (n1 * lo == n * lo + lo) by (rewrite Hs; ring).
    assert (n1 * hi == n * hi + hi) by (rewrite Hs; ring).
    split; lra.
Qed.

Lemma mean_bounds (l : list Q) (lo hi : Q) :
  l <> [] -> (forall x, In x l -> lo <= x <= hi) -> lo <= mean l <= hi.
Proof.
  intros Hne Hl. unfold mean, Qsum.
  pose proof (fold_sum_bounds l lo hi 0 Hl) as [H1 H2].
  assert (Hn : 0 < inject_Z (Z.of_nat (length l))).
  { apply inject_Z_pos. destruct l; [congruence | cbn [length]; lia]. }
  split.
  - apply Qle_shift_div_l; [exact Hn | lra].
  - apply Qle_shift_div_r; [exact Hn | lra].
Qed.

(** ** [_read_wav_as_float32] *)

Lemma pair_ind {A} (P : list A -> Prop) :
  P [] -> (forall a, P [a]) -> (forall a b l, P l -> P (a :: b :: l)) ->
  forall l, P l.
Proof.
  intros H0 H1 H2.
  assert (H : forall l, P l /\ forall a, P (a :: l)).
  { induction l as [|b l [IH1 IH2]]; split; auto. }
  intros l. apply H.
Qed.

Lemma frombuffer_int16_spec (raw : list Z) :
  (exists ints,
     frombuffer_int16 raw = Ok ints
     /\ length raw = (2 * length ints)%nat
     /\ (Forall is_byte raw ->
         forall v, In v ints -> (-32768 <= v <= 32767)%Z))
  \/ (exists e, frombuffer_int16 raw = Err e
                /\ forall k, length raw <> (2 * k)%nat).
Proof.
  induction raw as [| a | lo hi raw IH] using pair_ind.
  - left. exists []. split; [reflexivity|]. split; [reflexivity | intros _ v []].
  - right. eexists. split; [reflexivity|]. intros k. cbn [length]. lia.
  - cbn [frombuffer_int16].
    destruct IH as [[ints [-> [Hlen Hrange]]] | [e [-> Hodd]]].
    + left. eexists. split; [reflexivity|]. split.
      * cbn [length]. lia.
      * intros Hb v [<- | Hv].
        -- inversion Hb as [|? ? Hlo Hb']. inversion Hb' as [|? ? Hhi _].
           unfold is_byte in Hlo, Hhi.
           destruct (32768 <=? lo + 256 * hi)%Z eqn:E;
             [apply Z.leb_le in E | apply Z.leb_gt in E]; lia.
        -- apply Hrange; [|exact Hv].
           inversion Hb as [|? ? _ Hb']. inversion Hb' as [|? ? _ Hb'']. exact Hb''.
    + right. eexists. split; [reflexivity|]. intros k. cbn [length].
      intros Hk. destruct k as [|k]; [lia|]. apply (Hodd k). lia.
Qed.

Lemma channel_mean_spec (fuel channels : nat) (audio : list Q) :
  (1 <= channels)%nat -> (length audio <= fuel)%nat ->
  (exists out,
     channel_mean fuel channels audio = Ok out
     /\ length audio = (channels * length out)%nat
     /\ forall lo hi, (forall x, In x audio -> lo <= x <= hi) ->
          forall y, In y out -> lo <= y <= hi)
  \/ (exists e, channel_mean fuel channels audio = Err e
                /\ forall k, length audio <> (channels * k)%nat).
Proof.
  intros Hch. revert audio.
  induction fuel as [|fuel IH]; intros audio Hfuel.
  - destruct audio as [|x audio]; [|cbn [length] in Hfuel; lia].
    left. exists []. split; [reflexivity|].
    split; [cbn [length]; lia | intros lo hi _ y []].
  - destruct audio as [|x audio].
    { left. exists []. split; [reflexivity|].
      split; [cbn [length]; lia | intros lo hi _ y []]. }
    cbn [channel_mean]. set (frames := x :: audio) in *.
    destruct (length frames <? channels)%nat eqn:E.
    + apply Nat.ltb_lt in E. right. eexists. split; [reflexivity|].
      intros k Hk. assert (0 < length frames)%nat by (cbn; lia).
      destruct k as [|k]; nia.
    + apply Nat.ltb_ge in E.
      assert (Hskip : length (skipn channels frames) = (length frames - channels)%nat)
        by apply length_skipn.
      destruct (IH (skipn channels frames)) as [[out [-> [Hlen Hrange]]] | [e [-> Hno]]].
      { rewrite Hskip. cbn [length] in Hfuel |- *. lia. }
      * left. eexists. split; [reflexivity|]. split.
        -- cbn [length]. nia.
        -- intros lo hi Hall y [<- | Hy].
           ++ apply mean_bounds.
              ** intros Hnil. apply (f_equal (@length Q)) in Hnil.
                 rewrite length_firstn in Hnil. cbn [length] in Hnil. lia.
              ** intros z Hz. apply Hall.
                 rewrite <- (firstn_skipn channels frames).
                 apply in_or_app. left. exact Hz.
           ++ apply (Hrange lo hi); [|exact Hy].
              intros z Hz. apply Hall.
              rewrite <- (firstn_skipn channels frames).
              apply in_or_app. right. exact Hz.
      * right. eexists. split; [reflexivity|].
        intros k Hk. destruct k as [|k]; [nia|].
        apply (Hno k). rewrite Hskip. nia.
Qed.

Lemma divide_nat (n : nat) (d : Z) :
  (0 < d)%Z ->
  (d | Z.of_nat n)%Z <-> exists k : nat, Z.of_nat n = (d * Z.of_nat k)%Z.
Proof.
  intros Hd. split.
  - intros [z Hz]. exists (Z.to_nat z).
    assert (0 <= z)%Z by nia. rewrite Z2Nat.id by assumption. lia.
  - intros [k Hk]. exists (Z.of_nat k). lia.
Qed.

(** X9. [_read_wav_as_float32] accepts a file exactly when its sample width is
    two bytes and the number of bytes of its frames is a multiple of two
    times the number of channels (one channel counted for a header that
    announces none); otherwise it raises. *)
Theorem read_wav_as_float32_accepts (wf : wav_file) :
  is_ok (_read_wav_as_float32 wf) = true
  <-> wf_sampwidth wf = 2%Z
      /\ (2 * Z.max 1 (wf_channels wf) | Z.of_nat (length (wf_frames wf)))%Z.
Proof.
  unfold _read_wav_as_float32.
  destruct (wf_sampwidth wf =? 2)%Z eqn:Ew; cbn [negb];
    [apply Z.eqb_eq in Ew | apply Z.eqb_neq in Ew].
  2: { split; [discriminate | intros [Hw _]; contradiction]. }
  rewrite divide_nat by lia.
  unfold mbind, result_bind, mret, result_ret.
  destruct (frombuffer_int16_spec (wf_frames wf))
    as [[ints [-> [Hlen _]]] | [e [-> Hodd]]].
  2: { split; [discriminate|]. intros [_ [k Hk]]. exfalso.
       apply (Hodd (Z.to_nat (Z.max 1 (wf_channels wf)) * k)%nat). nia. }
  destruct (1 <? wf_channels wf)%Z eqn:Ec;
    [apply Z.ltb_lt in Ec | apply Z.ltb_ge in Ec].
  - destruct (channel_mean_spec
                (length (map (fun v => inject_Z v / 32768) ints))
                (Z.to_nat (wf_channels wf))
                (map (fun v => inject_Z v / 32768) ints))
      as [[out [-> [Hl _]]] | [e [-> Hno]]]; [lia | lia | |].
    + rewrite length_map in Hl. split; [|reflexivity]. intros _.
      split; [exact Ew|]. exists (length out). nia.
    + rewrite length_map in Hno. split; [discriminate|].
      intros [_ [k Hk]]. exfalso. apply (Hno k). nia.
  - split; [|reflexivity]. intros _. split; [exact Ew|].
    exists (length ints). nia.
Qed.

(** X10. What [_read_wav_as_float32] returns for a file it accepts: the rate of
    the header, one sample for each frame, and samples between -1 and
    32767/32768 (so below 1), also after the channels are averaged. *)
Theorem read_wav_as_float32_samples (wf : wav_file) (audio : list Q)
    (sample_rate : Z) :
  Forall is_byte (wf_frames wf) ->
  _read_wav_as_float32 wf = Ok (audio, sample_rate) ->
  sample_rate = wf_framerate wf
  /\ Z.of_nat (length (wf_frames wf))
     = (2 * Z.max 1 (wf_channels wf) * Z.of_nat (length audio))%Z
  /\ forall x, In x audio -> -1 <= x <= 32767 # 32768.
Proof.
  intros Hbytes. unfold _read_wav_as_float32.
  destruct (wf_sampwidth wf =? 2)%Z; cbn [negb]; [|discriminate].
  unfold mbind, result_bind, mret, result_ret.
  destruct (frombuffer_int16_spec (wf_frames wf))
    as [[ints [-> [Hlen Hrange]]] | [e [-> _]]]; [|discriminate].
  specialize (Hrange Hbytes).
  assert (Hfloat : forall x,
            In x (map (fun v => inject_Z v / 32768) ints) ->
            -1 <= x <= 32767 # 32768).
  { intros x Hx. apply in_map_iff in Hx. destruct Hx as [v [<- Hv]].
    specialize (Hrange v Hv).
    assert (H1 : inject_Z (-32768) <= inject_Z v)
      by (rewrite <- Zle_Qle; lia).
    assert (H2 : inject_Z v <= inject_Z 32767)
      by (rewrite <- Zle_Qle; lia).
    change (inject_Z (-32768)) with (-32768 # 1) in H1.
    change (inject_Z 32767) with (32767 # 1) in H2.
    split.
    - apply Qle_shift_div_l; lra.
    - apply Qle_shift_div_r; lra. }
  destruct (1 <? wf_channels wf)%Z eqn:Ec;
    [apply Z.ltb_lt in Ec | apply Z.ltb_ge in Ec].
  - destruct (channel_mean_spec
                (length (map (fun v => inject_Z v / 32768) ints))
                (Z.to_nat (wf_channels wf))
                (map (fun v => inject_Z v / 32768) ints))
      as [[out [-> [Hl Hout]]] | [e [-> _]]]; [lia | lia | | discriminate].
    intros E. injection E as <- <-. rewrite length_map in Hl.
    split; [reflexivity|]. split; [nia|].
    apply (Hout _ _ Hfloat).
  - intros E. injection E as <- <-.
    split; [reflexivity|]. split; [rewrite length_map; nia|].
    exact Hfloat.
Qed.

Lemma read_wav_as_float32_samples_witness :
  let wf := WavFile 2 2 8000 [0; 128; 255; 127; 0; 0; 0; 64]%Z in
  exists audio,
    Forall is_byte (wf_frames wf)
    /\ _read_wav_as_float32 wf = Ok (audio, 8000%Z)
    /\ length audio = 2%nat
    /\ forall x, In x audio -> -1 <= x <= 32767 # 32768.
Proof.
  intros wf.
  assert (Hb : Forall is_byte (wf_frames wf))
    by (repeat constructor; unfold is_byte; lia).
  destruct (_read_wav_as_float32 wf) as [[audio sr]|e] eqn:E;
    [|vm_compute in E; discriminate E].
  assert (Hsr : sr = 8000%Z /\ length audio = 2%nat).
  { vm_compute in E. injection E as <- <-. split; reflexivity. }
  destruct Hsr as [-> Hlen].
  exists audio. split; [exact Hb|]. split; [reflexivity|]. split; [exact Hlen|].
  exact (proj2 (proj2 (read_wav_as_float32_samples wf audio 8000%Z Hb E))).
Defined.

(** ** [_resample_linear] *)

Lemma lin_between (x x0 x1 y0 y1 lo hi : Q) :
  x0 <= x -> x < x1 -> lo <= y0 <= hi -> lo <= y1 <= hi ->
  lo <= (y1 - y0) / (x1 - x0) * (x - x0) + y0 <= hi.
Proof.
  intros Hx0 Hx1 Hy0 Hy1.
  set (t := (x - x0) / (x1 - x0)).
  assert (Ht0 : 0 <= t) by (apply Qle_shift_div_l; lra).
  assert (Ht1 : t <= 1) by (apply Qle_shift_div_r; lra).
  assert (E : (y1 - y0) / (x1 - x0) * (x - x0) + y0 == (y1 - y0) * t + y0)
    by (unfold t; field; lra).
  rewrite E.
  assert (0 <= t * (y1 - lo)) by (apply Qmult_le_0_compat; lra).
  assert (0 <= (1 - t) * (y0 - lo)) by (apply Qmult_le_0_compat; lra).
  assert (0 <= t * (hi - y1)) by (apply Qmult_le_0_compat; lra).
  assert (0 <= (1 - t) * (hi - y0)) by (apply Qmult_le_0_compat; lra).
  split; lra.
Qed.

Lemma interp_in_between (step lo hi x : Q) (n k : nat) (fp : list Q) :
  0 < step -> length fp = S n ->
  (forall y, In y fp -> lo <= y <= hi) ->
  inject_Z (Z.of_nat k) * step <= x ->
  lo <= interp_in x
          (map (fun i => inject_Z (Z.of_nat i) * step) (seq k (S n))) fp
     <= hi.
Proof.
  intros Hstep. revert k fp.
  induction n as [|n IH]; intros k fp Hlen Hfp Hx.
  - destruct fp as [|y0 [|y1 fp]]; try discriminate Hlen.
    cbn. apply Hfp. left. reflexivity.
  - destruct fp as [|y0 [|y1 fp]]; try discriminate Hlen.
    cbn [seq map interp_in].
    destruct (Qltb x (inject_Z (Z.of_nat (S k)) * step)) eqn:E.
    + apply Qltb_lt in E.
      apply lin_between; try assumption.
      * apply Hfp. left. reflexivity.
      * apply Hfp. right. left. reflexivity.
    + apply Qltb_ge in E.
      apply (IH (S k) (y1 :: fp)).
      * cbn [length] in Hlen |- *. lia.
      * intros y Hy. apply Hfp. right. exact Hy.
      * exact E.
Qed.

(** X11. Resampling never overshoots: every sample that [_resample_linear]
    returns lies between two bounds that hold for all the samples it was
    given, whatever the two rates. *)
Theorem resample_linear_between (audio out : list Q) (src_sr dst_sr : Z)
    (lo hi : Q) :
  (0 < src_sr)%Z ->
  (forall x, In x audio -> lo <= x <= hi) ->
  _resample_linear audio src_sr dst_sr = Ok out ->
  forall y, In y out -> lo <= y <= hi.
Proof.
  intros Hsr Haudio. unfold _resample_linear.
  destruct ((src_sr =? dst_sr)%Z || (length audio =? 0)%nat) eqn:E0.
  { intros E. injection E as <-. exact Haudio. }
  apply orb_false_iff in E0. destruct E0 as [_ Hne]. apply Nat.eqb_neq in Hne.
  destruct (src_sr =? 0)%Z; [discriminate|].
  set (duration := inject_Z (Z.of_nat (length audio)) / inject_Z src_sr).
  set (dst_len := py_round (duration * inject_Z dst_sr)).
  destruct (dst_len <=? 1)%Z eqn:E1.
  { intros E. injection E as <-. exact Haudio. }
  apply Z.leb_gt in E1.
  intros E. injection E as <-. intros y Hy.
  unfold interp in Hy. apply in_map_iff in Hy. destruct Hy as [x [<- Hx]].
  assert (Hn : 0 < inject_Z (Z.of_nat (length audio)))
    by (apply inject_Z_pos; lia).
  assert (Hs : 0 < inject_Z src_sr) by (apply inject_Z_pos; exact Hsr).
  assert (Hdur : 0 < duration).
  { unfold duration. apply Qlt_shift_div_l; lra. }
  assert (Hx0 : 0 <= x).
  { unfold linspace in Hx. apply in_map_iff in Hx. destruct Hx as [i [<- _]].
    apply Qmult_le_0_compat.
    - change 0 with (inject_Z 0). rewrite <- Zle_Qle. lia.
    - apply Qlt_le_weak, Qlt_shift_div_l.
      + apply inject_Z_pos. lia.
      + lra. }
  unfold linspace.
  destruct (length audio) as [|n] eqn:Hlen; [congruence|].
  set (step := duration / inject_Z (Z.of_nat (S n))).
  assert (Hstep : 0 < step) by (apply Qlt_shift_div_l; lra).
  assert (Hin : lo <= interp_in x
                  (map (fun i => inject_Z (Z.of_nat i) * step) (seq 0 (S n)))
                  audio <= hi).
  { apply interp_in_between; try assumption.
    change (inject_Z (Z.of_nat 0)) with 0. lra. }
  destruct audio as [|y0 audio]; [discriminate Hlen|].
  cbn [seq map] in Hin |- *.
  destruct (Qltb x (inject_Z (Z.of_nat 0) * step)).
  - apply Haudio. left. reflexivity.
  - exact Hin.
Qed.

Lemma resample_linear_between_witness :
  exists out,
    (0 < 8000)%Z
    /\ (forall x, In x [0; 1 # 2; -1 # 4] -> -1 # 4 <= x <= 1 # 2)
    /\ _resample_linear [0; 1 # 2; -1 # 4] 8000 TARGET_SR = Ok out
    /\ length out = 6%nat
    /\ forall y, In y out -> -1 # 4 <= y <= 1 # 2.
Proof.
  assert (Ha : forall x, In x [0; 1 # 2; -1 # 4] -> -1 # 4 <= x <= 1 # 2).
  { intros x [<- | [<- | [<- | []]]]; split; lra. }
  destruct (_resample_linear [0; 1 # 2; -1 # 4] 8000 TARGET_SR) as [out|e] eqn:E;
    [|vm_compute in E; discriminate E].
  exists out. split; [lia|]. split; [exact Ha|]. split; [reflexivity|].
  split; [vm_compute in E; injection E as <-; reflexivity|].
  exact (resample_linear_between _ out 8000 TARGET_SR _ _ eq_refl Ha E).
Defined.

(** ** [_normalize_peak] *)

Lemma fold_left_Qmax_In (l : list Q) (a : Q) : In (fold_left Qmax l a) (a :: l).
Proof.
  revert a. induction l as [|x l IH]; intros a; [left; reflexivity|].
  cbn [fold_left]. destruct (IH (Qmax a x)) as [H | H].
  - rewrite <- H.
    destruct (Qmax_cases a x) as [[_ ->] | [_ ->]];
      [left | right; left]; reflexivity.
  - right. right. exact H.
Qed.

Lemma peak_attained (audio : list Q) :
  audio <> [] -> exists x, In x audio /\ Qabs x = peak_of audio.
Proof.
  intros Hne. unfold peak_of.
  destruct audio as [|x audio]; [congruence|]. cbn [map].
  pose proof (fold_left_Qmax_In (map Qabs audio) (Qabs x)) as [H | H].
  - exists x. split; [left; reflexivity | exact H].
  - apply in_map_iff in H. destruct H as [y [Hy Hin]].
    exists y. split; [right; exact Hin | exact Hy].
Qed.

Lemma clip_inactive (x : Q) : Qabs x <= 1 -> clip x (-1) 1 = x.
Proof.
  intros Hx. apply Qabs_Qle_condition in Hx. destruct Hx as [Hlo Hhi].
  unfold clip.
  destruct (Qmax_cases x (-1)) as [[_ ->] | [H _]]; [|lra].
  destruct (Qmin_cases x 1) as [[_ ->] | [H _]]; [reflexivity | lra].
Qed.

(** X25. With the target 0.85 the clip of [_normalize_peak] never cuts: every
    sample is multiplied by the same gain, [min(0.85 / peak, 6)], and the
    peak of the result is [min(0.85, 6 * peak)] - a signal is brought to
    0.85, unless that would take more than six times its level. This is for
    a waveform that is not empty and whose peak is not below one
    millionth; the others are returned as they are. *)
Theorem normalize_peak_gain (audio : list Q) :
  audio <> [] -> 1 # 1000000 <= peak_of audio ->
  let gain := Qmin ((85 # 100) / peak_of audio) 6 in
  _normalize_peak audio (85 # 100) = map (fun x => x * gain) audio
  /\ peak_of (_normalize_peak audio (85 # 100))
     == Qmin (85 # 100) (6 * peak_of audio).
Proof.
  intros Hne Hpeak gain.
  assert (Hpos : 0 < peak_of audio) by lra.
  assert (Hg : 0 < gain /\ gain * peak_of audio == Qmin (85 # 100) (6 * peak_of audio)).
  { unfold gain.
    assert (Hdiv : (85 # 100) / peak_of audio * peak_of audio == 85 # 100)
      by (field; lra).
    destruct (Qmin_cases ((85 # 100) / peak_of audio) 6) as [[Hc ->] | [Hc ->]];
      destruct (Qmin_cases (85 # 100) (6 * peak_of audio)) as [[Hd ->] | [Hd ->]].
    - split; [apply Qlt_shift_div_l; lra | exact Hdiv].
    - exfalso.
      assert ((85 # 100) / peak_of audio * peak_of audio <= 6 * peak_of audio)
        by (apply Qmult_le_compat_r; lra).
      lra.
    - exfalso.
      assert (6 * peak_of audio < (85 # 100) / peak_of audio * peak_of audio)
        by (apply Qmult_lt_compat_r; lra).
      lra.
    - split; [lra | reflexivity]. }
  destruct Hg as [Hgpos Hgpeak].
  assert (Hscaled : forall x, In x audio -> Qabs (x * gain) <= 1).
  { intros x Hx. rewrite Qabs_Qmult.
    pose proof (peak_of_ge audio x Hx) as Hle.
    assert (Eg : Qabs gain == gain) by (apply Qabs_pos; lra).
    rewrite Eg.
    assert (Qabs x * gain <= peak_of audio * gain)
      by (apply Qmult_le_compat_r; lra).
    destruct (Qmin_cases (85 # 100) (6 * peak_of audio)) as [[Hc E] | [Hc E]];
      rewrite E in Hgpeak; lra. }
  assert (Hout : _normalize_peak audio (85 # 100)
                 = map (fun x => x * gain) audio).
  { unfold _normalize_peak. destruct audio as [|x0 audio']; [congruence|].
    set (audio := x0 :: audio') in *.
    destruct (Qltb (peak_of audio) (1 # 1000000)) eqn:E;
      [apply Qltb_lt in E; lra|].
    rewrite py_min_Qmin. fold gain.
    apply map_ext_in. intros x Hx. apply clip_inactive, Hscaled, Hx. }
  split; [exact Hout|]. rewrite Hout, <- Hgpeak.
  apply Qle_antisym.
  - destruct (peak_attained (map (fun x => x * gain) audio)) as [y [Hy <-]].
    { destruct audio; [congruence | discriminate]. }
    apply in_map_iff in Hy. destruct Hy as [x [<- Hx]].
    rewrite Qabs_Qmult.
    assert (Eg : Qabs gain == gain) by (apply Qabs_pos; lra).
    rewrite Eg. pose proof (peak_of_ge audio x Hx) as Hle.
    rewrite (Qmult_comm gain). apply Qmult_le_compat_r; lra.
  - destruct (peak_attained audio Hne) as [x [Hx Hpx]].
    assert (Hin : In (x * gain) (map (fun x => x * gain) audio))
      by (exact (in_map (fun x => x * gain) audio x Hx)).
    apply peak_of_ge in Hin. rewrite Qabs_Qmult in Hin.
    assert (Eg : Qabs gain == gain) by (apply Qabs_pos; lra).
    rewrite Eg, Hpx in Hin. rewrite (Qmult_comm gain). exact Hin.
Qed.

Lemma normalize_peak_gain_witness :
  let audio := [1 # 10; -2 # 10; 5 # 100] in
  audio <> [] /\ 1 # 1000000 <= peak_of audio
  /\ peak_of audio == 2 # 10
  /\ _normalize_peak audio (85 # 100)
     = map (fun x => x * Qmin ((85 # 100) / peak_of audio) 6) audio
  /\ peak_of (_normalize_peak audio (85 # 100))
     == Qmin (85 # 100) (6 * peak_of audio).
Proof.
  intros audio.
  assert (Hne : audio <> []) by discriminate.
  assert (Hp : 1 # 1000000 <= peak_of audio) by (vm_compute; discriminate).
  split; [exact Hne|]. split; [exact Hp|]. split; [reflexivity|].
  exact (normalize_peak_gain audio Hne Hp).
Defined.

End AudioMore.

(* ===================================================================== *)
(** * More on the transcription: the attempts and the result *)
(* ===================================================================== *)

Module SpeechMore.
Import Py PyFacts Exn SpeechModel Spec Spec2 AudioFacts SpeechFacts AudioMore.

#[local] Existing Instance ascii_tables.

Open Scope Q_scope.

(** ** The loop over the language hints *)

Lemma select_best_inv `{Unicode} (eng : engine) (audio : list Q)
    (langs : list (option str)) :
  forall (acc : option attempt) (s : Q) (tr : list event)
         (best : option attempt) (tr' : list event),
  select_best eng audio langs acc s tr = (Ok best, tr') ->
  tr' = tr ++ map EvTranscribe langs
  /\ exists results,
       Forall2 (fun lang a => run eng audio lang = Ok a) langs results
       /\ ((best = acc /\ forall a, In a results -> score_of a <= s)
           \/ exists pre b post,
                results = pre ++ b :: post /\ best = Some b
                /\ s < score_of b
                /\ (forall a, In a pre -> score_of a < score_of b)
                /\ (forall a, In a post -> score_of a <= score_of b)).
Proof.
  induction langs as [|lang langs IH]; intros acc s tr best tr' E.
  - cbn in E. injection E as <- <-. split; [rewrite app_nil_r; reflexivity|].
    exists []. split; [constructor|]. left. split; [reflexivity | intros a []].
  - cbn [select_best] in E.
    unfold mbind, M_bind, _transcribe_attempt in E.
    destruct (run eng audio lang) as [a|e] eqn:Erun; [|discriminate E].
    fold (score_of a) in E.
    destruct (Qltb s (score_of a)) eqn:Es;
      [apply Qltb_lt in Es | apply Qltb_ge in Es];
      apply IH in E; destruct E as [-> [results [Hres Hbest]]];
      (split; [rewrite <- app_assoc; reflexivity|]);
      exists (a :: results); (split; [constructor; assumption|]).
    + right. destruct Hbest as [[-> Hle] | [pre [b [post [-> [-> [Hb [Hpre Hpost]]]]]]]].
      * exists [], a, results. repeat split; try assumption. intros x [].
      * exists (a :: pre), b, post. split; [reflexivity|]. split; [reflexivity|].
        split; [lra|]. split; [|exact Hpost].
        intros x [<- | Hx]; [exact Hb | apply Hpre, Hx].
    + destruct Hbest as [[-> Hle] | [pre [b [post [-> [-> [Hb [Hpre Hpost]]]]]]]].
      * left. split; [reflexivity|]. intros x [<- | Hx]; [exact Es | apply Hle, Hx].
      * right. exists (a :: pre), b, post. split; [reflexivity|]. split; [reflexivity|].
        split; [exact Hb|]. split; [|exact Hpost].
        intros x [<- | Hx]; [lra | apply Hpre, Hx].
Qed.

(** X12. When no attempt raises, [transcribe_audio] asks the engine once for
    each language hint, in the order none, [fr], [ar], and keeps the
    earliest attempt whose score is the highest: every earlier attempt
    scores strictly less, no later one scores more. It keeps none when no
    score exceeds -10000. *)
Theorem select_best_earliest_maximum `{Unicode} (eng : engine)
    (audio : list Q) (tr tr' : list event) (best : option attempt) :
  select_best eng audio attempts None (-10000) tr = (Ok best, tr') ->
  tr' = tr ++ [EvTranscribe None; EvTranscribe (Some (u "fr"));
               EvTranscribe (Some (u "ar"))]
  /\ exists results,
       Forall2 (fun lang a => run eng audio lang = Ok a) attempts results
       /\ match best with
          | None => forall a, In a results -> score_of a <= -10000
          | Some b =>
              exists pre post,
                results = pre ++ b :: post
                /\ -10000 < score_of b
                /\ (forall a, In a pre -> score_of a < score_of b)
                /\ (forall a, In a post -> score_of a <= score_of b)
          end.
Proof.
  intros E. apply select_best_inv in E.
  destruct E as [-> [results [Hres Hbest]]].
  split; [reflexivity|]. exists results. split; [exact Hres|].
  destruct Hbest as [[-> Hle] | [pre [b [post [-> [-> [Hb [Hpre Hpost]]]]]]]].
  - exact Hle.
  - exists pre, post. repeat split; assumption.
Qed.

Lemma select_best_earliest_maximum_witness :
  let heard lang := Attempt (Some (u " bonjour ")) (Some (u lang)) (Some []) in
  select_best hinted_engine [] attempts None (-10000) []
  = (Ok (Some (heard "fr")), map EvTranscribe attempts)
  /\ exists results,
       Forall2 (fun lang a => run hinted_engine [] lang = Ok a) attempts results
       /\ exists pre post,
            results = pre ++ heard "fr" :: post
            /\ -10000 < score_of (heard "fr")
            /\ (forall a, In a pre -> score_of a < score_of (heard "fr"))
            /\ (forall a, In a post -> score_of a <= score_of (heard "fr")).
Proof.
  intros heard.
  assert (E : select_best hinted_engine [] attempts None (-10000) []
              = (Ok (Some (heard "fr")), map EvTranscribe attempts))
    by (vm_compute; reflexivity).
  split; [exact E|].
  exact (proj2 (select_best_earliest_maximum hinted_engine [] [] _ _ E)).
Defined.

Lemma select_best_stops `{Unicode} (eng : engine) (audio : list Q)
    (pre : list (option str)) (lang : option str) (post : list (option str))
    (e : exn) :
  forall (acc : option attempt) (s : Q) (tr : list event),
  (forall l, In l pre -> is_ok (run eng audio l) = true) ->
  run eng audio lang = Err e ->
  select_best eng audio (pre ++ lang :: post) acc s tr
  = (Err e, tr ++ map EvTranscribe (pre ++ [lang])).
Proof.
  induction pre as [|l pre IH]; intros acc s tr Hpre Herr.
  - cbn [app select_best]. unfold mbind, M_bind, _transcribe_attempt.
    rewrite Herr. reflexivity.
  - cbn [app select_best]. unfold mbind, M_bind, _transcribe_attempt.
    pose proof (Hpre l (or_introl eq_refl)) as Hl.
    destruct (run eng audio l) as [a|e']; [|discriminate Hl].
    assert (Hpre' : forall l', In l' pre -> is_ok (run eng audio l') = true)
      by (intros l' Hl'; apply Hpre; right; exact Hl').
    destruct (Qltb s _); rewrite (IH _ _ _ Hpre' Herr);
      cbn [map app]; rewrite <- app_assoc; reflexivity.
Qed.

Lemma select_best_returns `{Unicode} (eng : engine) (audio : list Q)
    (langs : list (option str)) :
  (forall l, In l langs -> is_ok (run eng audio l) = true) ->
  forall acc s tr, exists best tr',
    select_best eng audio langs acc s tr = (Ok best, tr').
Proof.
  induction langs as [|l langs IH]; intros Hall acc s tr.
  - exists acc, tr. reflexivity.
  - cbn [select_best]. unfold mbind, M_bind, _transcribe_attempt.
    pose proof (Hall l (or_introl eq_refl)) as Hl.
    destruct (run eng audio l) as [a|e]; [|discriminate Hl].
    assert (Hall' : forall l', In l' langs -> is_ok (run eng audio l') = true)
      by (intros l' Hl'; apply Hall; right; exact Hl').
    destruct (Qltb s _); apply (IH Hall').
Qed.

Lemma recognise_returns `{Unicode} (eng : engine) (audio : list Q)
    (tr : list event) :
  load eng = Ok tt ->
  (forall l, In l attempts -> is_ok (run eng audio l) = true) ->
  exists stt tr', recognise eng audio tr = (Ok stt, tr').
Proof.
  intros Hload Hrun. unfold recognise.
  destruct (Z.of_nat (length audio) <? _)%Z; [eexists _, _; reflexivity|].
  match goal with
  | |- context [if ?quiet then _ else _] => destruct quiet
  end; [eexists _, _; reflexivity|].
  unfold mbind, M_bind, _load_model, mret, M_ret. rewrite Hload.
  destruct (select_best_returns eng audio attempts Hrun None (-10000)
              (tr ++ [EvLoad])) as [best [tr' ->]].
  eexists _, _. reflexivity.
Qed.

Lemma recognise_engine `{Unicode} (eng : engine) (audio : list Q)
    (tr : list event) :
  (7 # 10) * inject_Z TARGET_SR <= inject_Z (Z.of_nat (length audio)) ->
  ~ rms_below audio (8 # 1000) ->
  recognise eng audio tr
  = (_ ← _load_model eng;
     best_result ← select_best eng audio attempts None (-10000);
     mret (assemble best_result)) tr.
Proof.
  intros Hlong Hloud. unfold recognise. rewrite min_samples.
  destruct (Z.of_nat (length audio) <? 11200)%Z eqn:E.
  { apply Z.ltb_lt in E. rewrite Zlt_Qlt in E.
    change (inject_Z TARGET_SR) with 16000 in Hlong.
    change (inject_Z 11200) with 11200 in E. lra. }
  destruct audio as [|x audio].
  { cbn [length] in Hlong. change (inject_Z (Z.of_nat 0)) with 0 in Hlong.
    change (inject_Z TARGET_SR) with 16000 in Hlong. lra. }
  unfold sqrt_ltb.
  destruct (Qltb _ _) eqn:Eq; [|reflexivity].
  apply Qltb_lt in Eq. exfalso. apply Hloud. exact Eq.
Qed.



(** ** The returned transcription *)

Lemma lstrip_idem (s : str) : lstrip (lstrip s) = lstrip s.
Proof.
  induction s as [|c s IH]; [reflexivity|].
  cbn [lstrip]. destruct (isspace c) eqn:E; [exact IH|].
  cbn [lstrip]. rewrite E. reflexivity.
Qed.

Lemma lstrip_head (s : str) (c : N) (t : str) :
  lstrip s = c :: t -> isspace c = false.
Proof.
  induction s as [|d s IH]; [discriminate|].
  cbn [lstrip]. destruct (isspace d) eqn:E; [exact IH|].
  intros [= <- _]. exact E.
Qed.

Lemma lstrip_app (a : str) (c : N) (b : str) :
  isspace c = false -> lstrip (a ++ c :: b) = lstrip a ++ c :: b.
Proof.
  intros Hc. induction a as [|d a IH].
  - cbn [app lstrip]. rewrite Hc. reflexivity.
  - cbn [app lstrip]. destruct (isspace d); [exact IH | reflexivity].
Qed.

Lemma rstrip_cons (c : N) (s : str) :
  isspace c = false -> rstrip (c :: s) = c :: rstrip s.
Proof.
  intros Hc. unfold rstrip. cbn [rev].
  rewrite (lstrip_app _ _ [] Hc), rev_app_distr. reflexivity.
Qed.

Lemma rstrip_idem (s : str) : rstrip (rstrip s) = rstrip s.
Proof. unfold rstrip. rewrite rev_involutive, lstrip_idem. reflexivity. Qed.

Lemma strip_idem (s : str) : strip (strip s) = strip s.
Proof.
  unfold strip. destruct (lstrip s) as [|c t] eqn:E; [reflexivity|].
  pose proof (lstrip_head _ _ _ E) as Hc.
  rewrite (rstrip_cons _ _ Hc). cbn [lstrip]. rewrite Hc.
  rewrite <- (rstrip_cons _ _ Hc). apply rstrip_idem.
Qed.

Lemma py_round_between (y : Q) (a b : Z) :
  inject_Z a <= y <= inject_Z b -> (a <= py_round y <= b)%Z.
Proof.
  intros [Ha Hb]. pose proof (py_round_near y) as Hn.
  apply Qabs_Qle_condition in Hn. destruct Hn as [Hn1 Hn2].
  assert (H1 : inject_Z (a - 1) < inject_Z (py_round y)).
  { assert (E : inject_Z (a - 1) == inject_Z a - 1)
      by (unfold Qeq; simpl; lia).
    rewrite E. lra. }
  assert (H2 : inject_Z (py_round y) < inject_Z (b + 1)).
  { rewrite inject_Z_plus. change (inject_Z 1) with 1. lra. }
  rewrite <- Zlt_Qlt in H1, H2. lia.
Qed.

Lemma round3_unit (x : Q) : 0 <= x <= 1 -> 0 <= round3 x <= 1.
Proof.
  intros Hx. unfold round3.
  assert (H : (0 <= py_round (x * 1000) <= 1000)%Z).
  { apply py_round_between. change (inject_Z 0) with 0.
    change (inject_Z 1000) with 1000. lra. }
  unfold Qle. cbn [Qnum Qden]. lia.
Qed.

Lemma base_confidence_unit (result : attempt) : 0 <= base_confidence result <= 1.
Proof.
  destruct (base_confidence_cases result) as [Hsome Hnone].
  destruct (get (a_segments result) []) as [|seg segments] eqn:E.
  - rewrite Hnone by reflexivity. split; lra.
  - rewrite Hsome by discriminate. apply clamp01_bounds.
Qed.

Lemma assemble_shape `{Unicode} (best_result : option attempt) :
  0 <= t_confidence (assemble best_result) <= 1
  /\ strip (t_text (assemble best_result)) = t_text (assemble best_result).
Proof.
  unfold assemble.
  set (result := get best_result _).
  pose proof (base_confidence_unit result) as Hc.
  destruct (_is_repetitive _ && Qltb _ _); cbn [t_confidence t_text].
  - split; [|reflexivity]. apply round3_unit.
    rewrite py_min_Qmin.
    destruct (Qmin_cases (base_confidence result) (35 # 100)) as [[? ->] | [? ->]];
      lra.
  - split; [apply round3_unit; exact Hc | apply strip_idem].
Qed.

Lemma recognise_shape `{Unicode} (eng : engine) (audio : list Q)
    (tr tr' : list event) (stt : transcription) :
  recognise eng audio tr = (Ok stt, tr') ->
  0 <= t_confidence stt <= 1
  /\ strip (t_text stt) = t_text stt
  /\ ((stt = EMPTY_RESULT /\ tr' = tr)
      \/ (load eng = Ok tt
          /\ tr' = tr ++ [EvLoad; EvTranscribe None;
                          EvTranscribe (Some (u "fr"));
                          EvTranscribe (Some (u "ar"))])).
Proof.
  unfold recognise.
  assert (Hempty : (Ok EMPTY_RESULT, tr) = (Ok stt, tr') ->
            0 <= t_confidence stt <= 1
            /\ strip (t_text stt) = t_text stt
            /\ ((stt = EMPTY_RESULT /\ tr' = tr)
                \/ (load eng = Ok tt
                    /\ tr' = tr ++ [EvLoad; EvTranscribe None;
                                    EvTranscribe (Some (u "fr"));
                                    EvTranscribe (Some (u "ar"))]))).
  { intros E. injection E as <- <-.
    split; [cbn; split; lra|]. split; [reflexivity|]. left. split; reflexivity. }
  destruct (Z.of_nat (length audio) <? _)%Z; [exact Hempty|].
  match goal with
  | |- context [if ?quiet then _ else _] => destruct quiet
  end; [exact Hempty|].
  clear Hempty. unfold mbind, M_bind, _load_model, mret, M_ret.
  destruct (load eng) as [[]|e]; [|discriminate].
  destruct (select_best eng audio attempts None (-10000) (tr ++ [EvLoad]))
    as [[best|e] tr1] eqn:Eb; [|discriminate].
  apply select_best_inv in Eb. destruct Eb as [-> _].
  intros E. injection E as <- <-.
  destruct (assemble_shape best) as [Hc Ht].
  split; [exact Hc|]. split; [exact Ht|].
  right. split; [reflexivity|]. rewrite <- app_assoc. reflexivity.
Qed.

Lemma transcribe_audio_recognise `{Unicode} (eng : engine)
    (open_wav : str -> result wav_file) (audio_path : str)
    (tr tr' : list event) (stt : transcription) :
  transcribe_audio eng open_wav audio_path tr = (Ok stt, tr') ->
  exists audio, recognise eng audio tr = (Ok stt, tr').
Proof.
  unfold transcribe_audio.
  destruct (negb (endswith (u ".wav") (uc_lower audio_path)));
    [discriminate|].
  unfold mbind at 1. unfold M_bind, lift.
  destruct (wf ← open_wav audio_path; condition wf) as [audio|e];
    [|discriminate].
  intros E. exists audio. exact E.
Qed.



(** ** The character classes of the scorer *)

Lemma cyrillic_not_allowed (ch : N) :
  is_cyrillic ch = true -> _ALLOWED_CHAR ch = false.
Proof.
  unfold is_cyrillic. intros Hc. apply andb_true_iff in Hc.
  destruct Hc as [Hlo Hhi]. apply N.leb_le in Hlo, Hhi.
  unfold _ALLOWED_CHAR, in_range, one_of, isspace.
  cbn [u list_ascii_of_string map existsb].
  repeat match goal with
         | |- context [N_of_ascii ?a] =>
             let v := eval vm_compute in (N_of_ascii a) in
             change (N_of_ascii a) with v
         end.
  repeat match goal with
         | |- context [(?a <=? ?b)%N] =>
             destruct (N.leb_spec a b); try lia
         | |- context [(?a =? ?b)%N] =>
             destruct (N.eqb_spec a b); try lia
         end;
    try reflexivity.
Qed.

Lemma class_counts (text : str) :
  (length (List.filter _ALLOWED_CHAR text)
   + length (List.filter is_cyrillic text) <= length text)%nat.
Proof.
  induction text as [|ch text IH]; [reflexivity|].
  cbn [List.filter length].
  destruct (is_cyrillic ch) eqn:Ec.
  - rewrite (cyrillic_not_allowed ch Ec). cbn [length]. lia.
  - destruct (_ALLOWED_CHAR ch); cbn [length]; lia.
Qed.

Lemma ratio_unit (part whole : nat) :
  (part <= whole)%nat -> (1 <= whole)%nat ->
  0 <= inject_Z (Z.of_nat part) / inject_Z (Z.of_nat whole) <= 1.
Proof.
  intros Hp Hw.
  assert (H0 : 0 <= inject_Z (Z.of_nat part))
    by (change 0 with (inject_Z 0); rewrite <- Zle_Qle; lia).
  assert (H1 : inject_Z (Z.of_nat part) <= inject_Z (Z.of_nat whole))
    by (rewrite <- Zle_Qle; lia).
  assert (H2 : 0 < inject_Z (Z.of_nat whole)) by (apply inject_Z_pos; lia).
  split.
  - apply Qle_shift_div_l; [exact H2 | lra].
  - apply Qle_shift_div_r; [exact H2 | lra].
Qed.

(** X15. The two character ratios of the scorer are fractions of the same text
    and count disjoint characters (no Cyrillic letter is an allowed
    character): each lies between 0 and 1 and so does their sum. Since no
    penalty is negative, the score of a text that is not blank is at most
    2.5 plus the mean log-probability minus 1.3 times the mean no-speech
    probability. *)
Theorem text_quality_score_ratios `{Unicode} (text : str) (result : attempt) :
  0 <= allowed_ratio_of text <= 1
  /\ 0 <= cyr_ratio_of text <= 1
  /\ allowed_ratio_of text + cyr_ratio_of text <= 1
  /\ (strip text <> [] ->
      _text_quality_score text result
      <= (25 # 10) + avg_logprob_of result - (13 # 10) * avg_nospeech_of result).
Proof.
  pose proof (class_counts text) as Hsum.
  assert (Ha : 0 <= allowed_ratio_of text <= 1).
  { unfold allowed_ratio_of. apply ratio_unit; lia. }
  assert (Hc : 0 <= cyr_ratio_of text <= 1).
  { unfold cyr_ratio_of. apply ratio_unit; lia. }
  assert (Hs : allowed_ratio_of text + cyr_ratio_of text <= 1).
  { unfold allowed_ratio_of, cyr_ratio_of.
    set (a := length (List.filter _ALLOWED_CHAR text)) in *.
    set (c := length (List.filter is_cyrillic text)) in *.
    set (n := Nat.max (length text) 1).
    assert (E : inject_Z (Z.of_nat a) / inject_Z (Z.of_nat n)
                + inject_Z (Z.of_nat c) / inject_Z (Z.of_nat n)
                == inject_Z (Z.of_nat (a + c)) / inject_Z (Z.of_nat n)).
    { rewrite Nat2Z.inj_add, inject_Z_plus. field.
      assert (0 < inject_Z (Z.of_nat n)) by (apply inject_Z_pos; lia). lra. }
    rewrite E. apply ratio_unit; lia. }
  split; [exact Ha|]. split; [exact Hc|]. split; [exact Hs|].
  intros Hne. rewrite (text_quality_score_formula text result Hne).
  unfold score_formula.
  assert (Hp : 0 <= Qmax 0 (avg_compression_of result - (24 # 10))).
  { destruct (Qmax_cases 0 (avg_compression_of result - (24 # 10)))
      as [[? ->] | [? ->]]; lra. }
  assert (Hr : 0 <= (if _is_repetitive text then REPETITION_PENALTY else 0)).
  { destruct (_is_repetitive text); unfold REPETITION_PENALTY; lra. }
  lra.
Qed.

End SpeechMore.

(* ===================================================================== *)
(** * More on the response *)
(* ===================================================================== *)

Module AppMore.
Import Py PyFacts Exn Date IntentModel SpeechModel App Spec Spec2.
Import CommandFacts AudioFacts SpeechFacts SpeechMore.

#[local] Existing Instance ascii_tables.

Lemma parse_command_base `{Unicode} (today : date) (raw_text : str)
    (parsed : gmap string value) :
  parse_command today raw_text = Ok parsed ->
  parsed !! "action" = Some (VStr (detect_intent (normalize raw_text)))
  /\ parsed !! "normalized_text" = Some (VStr (normalize raw_text)).
Proof.
  unfold parse_command, normalize.
  set (normalized := normalize_dialect (clean_text raw_text)).
  pose proof (detect_intent_action normalized) as Ha.
  revert Ha. generalize (detect_intent normalized) as action.
  intros action Ha.
  unfold ACTIONS in Ha. cbn [map fst INTENT_KEYWORDS app] in Ha.
  unfold mbind, result_bind, mret, result_ret.
  destruct (extract_date normalized None today) as [d|e];
    repeat destruct Ha as [<- | Ha]; try destruct Ha;
    eval_action_tests; intros E;
    first [discriminate E
          | apply Ok_inj in E; subst parsed; split; solve_lookup].
Qed.



(** X17. Bad input never reaches the engine: a path that does not end in [.wav]
    (in any letter case), a file that cannot be opened, or a file whose
    samples are not 16 bits wide, is answered with status 500 and the
    exception, and the trace of engine calls is left as it was. *)
Theorem process_bad_input `{Unicode} (eng : engine)
    (open_wav : str -> result wav_file) (today : date) (temp_path : str)
    (tr : list event) :
  (endswith (u ".wav") (uc_lower temp_path) = false ->
   process eng open_wav today temp_path tr
   = (Json500 (ValueError
        "Audio format not supported without ffmpeg. Please send WAV audio."),
      tr))
  /\ (endswith (u ".wav") (uc_lower temp_path) = true ->
      (forall e, open_wav temp_path = Err e ->
         process eng open_wav today temp_path tr = (Json500 e, tr))
      /\ (forall wf, open_wav temp_path = Ok wf -> wf_sampwidth wf <> 2%Z ->
            process eng open_wav today temp_path tr
            = (Json500 (ValueError "Only PCM16 WAV is supported."), tr))).
Proof.
  unfold process, process_body, transcribe_audio.
  split; [intros ->; reflexivity|].
  intros ->. cbn [negb]. split.
  - intros e He. unfold mbind, M_bind, lift, result_bind. rewrite He. reflexivity.
  - intros wf Hwf Hw. unfold mbind, M_bind, lift, result_bind. rewrite Hwf.
    unfold condition, _read_wav_as_float32.
    apply Z.eqb_neq in Hw. rewrite Hw. reflexivity.
Qed.



Lemma parse_command_returns `{Unicode} (today : date) (raw_text : str) :
  (1 <= today)%Z -> (today + 7 <= MAXORDINAL)%Z ->
  exists parsed, parse_command today raw_text = Ok parsed.
Proof.
  intros Hlo Hhi. unfold parse_command.
  set (normalized := normalize_dialect (clean_text raw_text)).
  pose proof (detect_intent_action normalized) as Ha.
  destruct (extract_date_ok normalized today Hlo Hhi) as [d Hd].
  revert Ha. generalize (detect_intent normalized) as action.
  intros action Ha.
  unfold ACTIONS in Ha. cbn [map fst INTENT_KEYWORDS app] in Ha.
  unfold mbind, result_bind, mret, result_ret. rewrite Hd.
  repeat destruct Ha as [<- | Ha]; try destruct Ha;
    eval_action_tests; eexists; reflexivity.
Qed.



End AppMore.

(* ===================================================================== *)
(** * The loader of the model *)
(* ===================================================================== *)

Module CacheFacts.
Import Py PyFacts Exn ModelCache.

#[local] Existing Instance ascii_tables.
#[local] Existing Instance sample_paths.

Section Loader.
Context `{Unicode} `{Paths} {model : Type}.

Lemma load_model_world (lib : whisper model) (model_name : str)
    (w : world model) :
  MODEL (snd (load_model lib model_name w)) = MODEL w
  /\ calls (snd (load_model lib model_name w))
     = calls w ++ [LoadCall model_name (files w)].
Proof.
  unfold load_model. destruct (lib (calls w) (files w) model_name) as [r fs].
  split; reflexivity.
Qed.

Lemma unlink_absent (c : str) (fs : gset str) (m : option model)
    (cs : list load_call) :
  (if decide (c ∈ fs) then World m (fs ∖ {[c]}) cs else World m fs cs)
  = World m (fs ∖ {[c]}) cs.
Proof.
  destruct (decide (c ∈ fs)) as [Hin|Hout]; [reflexivity|].
  f_equal. symmetry. apply difference_disjoint_L, disjoint_singleton_r, Hout.
Qed.

End Loader.

(** X19. The model is loaded once: when [_load_model] returns a model, the
    global [_MODEL] holds it, and every later call returns the same model
    and leaves the state as it is, whatever the library would answer and
    whatever the environment variable has become. A call that raises
    leaves [_MODEL] as it was. *)
Theorem load_model_once `{Unicode} `{Paths} {model : Type}
    (lib : whisper model) (env : option str) (w : world model) :
  (forall m w',
     _load_model lib env w = (Loaded m, w') ->
     MODEL w' = Some m
     /\ forall lib' env', _load_model lib' env' w' = (Loaded m, w'))
  /\ (forall err w',
        _load_model lib env w = (Raised err, w') -> MODEL w' = MODEL w).
Proof.
  unfold _load_model.
  destruct (MODEL w) as [m0|] eqn:Em.
  { split.
    - intros m w' E. injection E as <- <-. split; [exact Em|].
      intros lib' env'. rewrite Em. reflexivity.
    - intros err w' E. discriminate E. }
  set (model_name := match env with Some v => v | None => u "base" end).
  pose proof (load_model_world lib model_name w) as [Hm1 _].
  destruct (load_model lib model_name w) as [[m1|[msg|e]] w1];
    cbn [snd] in Hm1.
  - split; [|intros err w' E; discriminate E].
    intros m w' E. injection E as <- <-. cbn [MODEL].
    split; [reflexivity|]. intros lib' env'. reflexivity.
  - destruct (negb (contains (u "checksum") (uc_lower msg))).
    { split; [intros m w' E; discriminate E|].
      intros err w' E. injection E as <- <-. congruence. }
    set (w2 := if decide (_get_cache_path model_name ∈ files w1)
               then World (MODEL w1)
                      (files w1 ∖ {[_get_cache_path model_name]}) (calls w1)
               else w1).
    assert (Hm2 : MODEL w2 = None).
    { unfold w2. destruct (decide _); cbn [MODEL]; congruence. }
    pose proof (load_model_world lib model_name w2) as [Hm3 _].
    destruct (load_model lib model_name w2) as [[m3|err3] w3];
      cbn [snd] in Hm3.
    + split; [|intros err w' E; discriminate E].
      intros m w' E. injection E as <- <-. cbn [MODEL].
      split; [reflexivity|]. intros lib' env'. reflexivity.
    + split; [intros m w' E; discriminate E|].
      intros err w' E. injection E as <- <-. congruence.
  - split; [intros m w' E; discriminate E|].
    intros err w' E. injection E as <- <-. congruence.
Qed.

(** X20. The calls that one [_load_model] makes to [whisper.load_model]:
    none when the model is already there; otherwise one or two, all with
    the name from the environment ([base] when the variable is not set).
    There is a second call only after a [RuntimeError] whose message
    mentions a checksum (in any letter case), and the cache file of the
    model does not exist when that call is made. *)
Theorem load_model_calls `{Unicode} `{Paths} {model : Type}
    (lib : whisper model) (env : option str) (w : world model) :
  let model_name := match env with Some v => v | None => u "base" end in
  let '(r, w') := _load_model lib env w in
  (is_Some (MODEL w) -> calls w' = calls w)
  /\ (MODEL w = None ->
      calls w' = calls w ++ [LoadCall model_name (files w)]
      \/ exists msg seen,
           lib (calls w) (files w) model_name
           = (Raised (RuntimeError msg), seen)
           /\ contains (u "checksum") (uc_lower msg) = true
           /\ (_get_cache_path model_name
               ∉ seen ∖ {[_get_cache_path model_name]})
           /\ calls w'
              = calls w ++ [LoadCall model_name (files w);
                            LoadCall model_name
                              (seen ∖ {[_get_cache_path model_name]})]).
Proof.
  intros model_name. unfold _load_model. fold model_name.
  destruct (MODEL w) as [m0|] eqn:Em.
  { split; [reflexivity | discriminate]. }
  unfold load_model at 1.
  destruct (lib (calls w) (files w) model_name) as [[m1|[msg|e]] fs1] eqn:E1.
  - cbn [calls files]. split; [intros [? ?]; discriminate|]. intros _. left.
    reflexivity.
  - destruct (contains (u "checksum") (uc_lower msg)) eqn:Ec; cbn [negb].
    2: { cbn [calls]. split; [intros [? ?]; discriminate|]. intros _. left.
         reflexivity. }
    cbn [files calls MODEL].
    set (cache_file := _get_cache_path model_name).
    rewrite unlink_absent. unfold load_model. cbn [calls files MODEL].
    destruct (lib _ (fs1 ∖ {[cache_file]}) model_name) as [[m2|err2] fs2];
      cbn [calls]; (split; [intros [? ?]; discriminate|]); intros _; right;
      exists msg, fs1;
      (split; [reflexivity|]); (split; [exact Ec|]);
      (split; [apply not_elem_of_difference; right; apply elem_of_singleton;
               reflexivity|]);
      rewrite <- app_assoc; reflexivity.
  - cbn [calls]. split; [intros [? ?]; discriminate|]. intros _. left.
    reflexivity.
Qed.

Example load_model_damaged_cache :
  let cache_file := _get_cache_path (u "base") in
  let w : world nat := World None {[cache_file]} [] in
  cache_file = u "/home/senior/.cache/whisper/base.pt"
  /\ _load_model damaged_cache_lib None w
     = (Loaded 1%nat,
        World (Some 1%nat) {[cache_file]}
          [LoadCall (u "base") {[cache_file]}; LoadCall (u "base") ∅]).
Proof.
  split; vm_compute; reflexivity.
Qed.

End CacheFacts.

(* ===================================================================== *)
(** * The matcher is sound; the time of day *)
(* ===================================================================== *)

Module MatchFacts.
Import Py PyFacts Exn IntentModel Matching SpeechMore.

#[local] Existing Instance ascii_tables.

Lemma rmatch_star_sound `{Unicode} (a : regex)
    (IH : forall st k e, rmatch a st k = Some e ->
            exists st', matches a st st' /\ k st' = Some e)
    (k : mstate -> option mstate) (n : nat) :
  forall st e,
    (fix loop (n : nat) (st : mstate) : option mstate :=
       match n with
       | O => k st
       | S n' =>
           match rmatch a st (fun st' =>
                   if (m_pos st <? m_pos st')%nat then loop n' st' else None) with
           | Some e => Some e
           | None => k st
           end
       end) n st = Some e ->
    exists st', matches (RStar a) st st' /\ k st' = Some e.
Proof.
  induction n as [|n IHn]; intros st e E.
  - exists st. split; [constructor | exact E].
  - match type of E with
    | match ?m with _ => _ end = _ => destruct m as [e'|] eqn:Em
    end.
    + injection E as ->. apply IH in Em. destruct Em as [st1 [Ha Hk]].
      destruct (m_pos st <? m_pos st1)%nat; [|discriminate Hk].
      apply IHn in Hk. destruct Hk as [st2 [Hs Hk]].
      exists st2. split; [econstructor; eassumption | exact Hk].
    + exists st. split; [constructor | exact E].
Qed.

(** The matcher is sound: when [rmatch r st k] succeeds, the continuation
    was given a state that [r] can reach from [st]. *)
Lemma rmatch_sound `{Unicode} (r : regex) :
  forall st k e, rmatch r st k = Some e ->
    exists st', matches r st st' /\ k st' = Some e.
Proof.
  induction r as [c | p | | a IHa b IHb | a IHa b IHb | a IHa | n a IHa | n |];
    intros st k e E; cbn [rmatch] in E.
  - destruct (m_step st) as [[x st']|] eqn:Es; [|discriminate E].
    destruct (x =? c)%N eqn:Ex; [|discriminate E].
    exists st'. split; [econstructor; eassumption | exact E].
  - destruct (m_step st) as [[x st']|] eqn:Es; [|discriminate E].
    destruct (p x) eqn:Ex; [|discriminate E].
    exists st'. split; [econstructor; eassumption | exact E].
  - exists st. split; [constructor | exact E].
  - apply IHa in E. destruct E as [st1 [Ha E]].
    apply IHb in E. destruct E as [st2 [Hb E]].
    exists st2. split; [econstructor; eassumption | exact E].
  - destruct (rmatch a st k) as [e'|] eqn:Ea.
    + injection E as ->. apply IHa in Ea. destruct Ea as [st' [Ha Hk]].
      exists st'. split; [apply M_alt_l; exact Ha | exact Hk].
    + apply IHb in E. destruct E as [st' [Hb Hk]].
      exists st'. split; [apply M_alt_r; exact Hb | exact Hk].
  - apply (rmatch_star_sound a IHa k (S (length (m_rest st))) st e E).
  - apply IHa in E. destruct E as [st1 [Ha E]].
    eexists. split; [apply M_group; exact Ha | exact E].
  - destruct (cap_get n (m_caps st)) as [w|] eqn:Ec; [|discriminate E].
    destruct (startswith w (m_rest st)) eqn:Ew; [|discriminate E].
    eexists. split; [econstructor; eassumption | exact E].
  - destruct (at_boundary st) eqn:Eb; [|discriminate E].
    exists st. split; [constructor; exact Eb | exact E].
Qed.

Lemma m_step_spec (st st' : mstate) (x : N) :
  m_step st = Some (x, st') ->
  m_rest st = x :: m_rest st' /\ m_pos st' = S (m_pos st)
  /\ m_caps st' = m_caps st.
Proof.
  unfold m_step. destruct (m_rest st) as [|c s]; [discriminate|].
  intros [= <- <-]. cbn. auto.
Qed.

Lemma m_skip_spec (n : nat) (st : mstate) :
  m_caps (m_skip n st) = m_caps st
  /\ exists w, m_rest st = w ++ m_rest (m_skip n st)
               /\ m_pos (m_skip n st) = (m_pos st + length w)%nat.
Proof.
  revert st. induction n as [|n IH]; intros st.
  - split; [reflexivity|]. exists []. cbn. split; [reflexivity | lia].
  - cbn [m_skip]. destruct (m_step st) as [[x st']|] eqn:E.
    + apply m_step_spec in E. destruct E as [Hr [Hp Hc]].
      destruct (IH st') as [Hc' [w [Hw Hpos]]].
      split; [congruence|]. exists (x :: w). rewrite Hr, Hw at 1.
      split; [reflexivity|]. cbn [length]. lia.
    + split; [reflexivity|]. exists []. cbn. split; [reflexivity | lia].
Qed.

(** A match only moves the cursor forward, over a prefix of the text that
    was left. *)
Lemma matches_advance `{Unicode} (r : regex) (st st' : mstate) :
  matches r st st' ->
  exists w, m_rest st = w ++ m_rest st'
            /\ m_pos st' = (m_pos st + length w)%nat.
Proof.
  induction 1 as [c st x st' Hs _ | p st x st' Hs _ | st
                 | a b st st1 st2 _ [w1 [Hr1 Hp1]] _ [w2 [Hr2 Hp2]]
                 | a b st st' _ IH | a b st st' _ IH | a st
                 | a st st1 st2 _ [w1 [Hr1 Hp1]] _ [w2 [Hr2 Hp2]]
                 | n a st st1 _ IH | n st w _ _ | st _].
  - apply m_step_spec in Hs. destruct Hs as [Hr [Hp _]].
    exists [x]. split; [exact Hr | cbn; lia].
  - apply m_step_spec in Hs. destruct Hs as [Hr [Hp _]].
    exists [x]. split; [exact Hr | cbn; lia].
  - exists []. split; [reflexivity | cbn; lia].
  - exists (w1 ++ w2). rewrite <- app_assoc, <- Hr2, <- Hr1.
    split; [reflexivity | rewrite length_app; lia].
  - exact IH.
  - exact IH.
  - exists []. split; [reflexivity | cbn; lia].
  - exists (w1 ++ w2). rewrite <- app_assoc, <- Hr2, <- Hr1.
    split; [reflexivity | rewrite length_app; lia].
  - exact IH.
  - destruct (m_skip_spec (length w) st) as [_ Hw]. exact Hw.
  - exists []. split; [reflexivity | cbn; lia].
Qed.

Lemma consumed_spec `{Unicode} (r : regex) (st st' : mstate) :
  matches r st st' -> m_rest st = consumed st st' ++ m_rest st'.
Proof.
  intros Hm. destruct (matches_advance r st st' Hm) as [w [Hr Hp]].
  unfold consumed. rewrite Hp, Hr.
  replace (m_pos st + length w - m_pos st)%nat with (length w + 0)%nat by lia.
  rewrite firstn_app_2. cbn. rewrite app_nil_r. reflexivity.
Qed.

Lemma matches_caps `{Unicode} (r : regex) (st st' : mstate) :
  matches r st st' -> group_free r = true -> m_caps st' = m_caps st.
Proof.
  induction 1 as [c st x st' Hs _ | p st x st' Hs _ | st
                 | a b st st1 st2 _ IH1 _ IH2
                 | a b st st' _ IH | a b st st' _ IH | a st
                 | a st st1 st2 _ IH1 _ IH2
                 | n a st st1 _ IH | n st w _ _ | st _];
    cbn [group_free]; intros Hg.
  - apply m_step_spec in Hs. apply Hs.
  - apply m_step_spec in Hs. apply Hs.
  - reflexivity.
  - apply andb_true_iff in Hg. destruct Hg as [Ha Hb].
    rewrite (IH2 Hb). apply IH1, Ha.
  - apply andb_true_iff in Hg. apply IH, Hg.
  - apply andb_true_iff in Hg. apply IH, Hg.
  - reflexivity.
  - rewrite (IH2 Hg). apply IH1, Hg.
  - discriminate Hg.
  - apply m_skip_spec.
  - reflexivity.
Qed.

(** What [re.search] finds is a match of the pattern, from a state without
    captured groups. *)
Lemma match_here_sound `{Unicode} (r : regex) (must_advance : bool)
    (st e : mstate) :
  match_here r must_advance st = Some e ->
  exists st0, m_caps st0 = [] /\ matches r st0 e.
Proof.
  unfold match_here. intros E. apply rmatch_sound in E.
  destruct E as [st' [Hm Hk]].
  destruct (must_advance && _); [discriminate Hk|]. injection Hk as ->.
  eexists. split; [|exact Hm]. reflexivity.
Qed.

Lemma search_from_sound `{Unicode} (r : regex) (fuel : nat) :
  forall must_advance st m,
    search_from r fuel must_advance st = Some m ->
    exists st0, m_caps st0 = [] /\ matches r st0 (mo_end m).
Proof.
  induction fuel as [|fuel IH]; intros must_advance st m E; cbn [search_from] in E.
  - destruct (match_here r must_advance st) as [e|] eqn:Eh; [|discriminate E].
    injection E as <-. apply (match_here_sound _ _ _ _ Eh).
  - destruct (match_here r must_advance st) as [e|] eqn:Eh.
    + injection E as <-. apply (match_here_sound _ _ _ _ Eh).
    + destruct (m_step st) as [[x st']|]; [|discriminate E].
      apply (IH _ _ _ E).
Qed.

Lemma search_sound `{Unicode} (r : regex) (s : str) (m : rmatch_obj) :
  search r s = Some m ->
  exists st0, m_caps st0 = [] /\ matches r st0 (mo_end m).
Proof. apply search_from_sound. Qed.

(** ** The time of day *)

Lemma step_consumed (st st' : mstate) (x : N) :
  m_step st = Some (x, st') -> consumed st st' = [x].
Proof.
  intros E. apply m_step_spec in E. destruct E as [Hr [Hp _]].
  unfold consumed. rewrite Hp, Hr.
  replace (S (m_pos st) - m_pos st)%nat with 1%nat by lia. reflexivity.
Qed.

Lemma two_steps_consumed (st st1 st2 : mstate) (x y : N) :
  m_step st = Some (x, st1) -> m_step st1 = Some (y, st2) ->
  consumed st st2 = [x; y].
Proof.
  intros E1 E2. apply m_step_spec in E1, E2.
  destruct E1 as [Hr1 [Hp1 _]]. destruct E2 as [Hr2 [Hp2 _]].
  unfold consumed. rewrite Hp2, Hp1, Hr1, Hr2.
  replace (S (S (m_pos st)) - m_pos st)%nat with 2%nat by lia. reflexivity.
Qed.

Lemma matches_seq_inv `{Unicode} (a b : regex) (st st2 : mstate) :
  matches (RSeq a b) st st2 -> exists st1, matches a st st1 /\ matches b st1 st2.
Proof. intros Hm. inv Hm. eauto. Qed.

Lemma matches_alt_inv `{Unicode} (a b : regex) (st st' : mstate) :
  matches (RAlt a b) st st' -> matches a st st' \/ matches b st st'.
Proof. intros Hm. inv Hm; auto. Qed.

Lemma matches_set_inv `{Unicode} (p : N -> bool) (st st' : mstate) :
  matches (RSet p) st st' -> exists x, m_step st = Some (x, st') /\ p x = true.
Proof. intros Hm. inv Hm. eauto. Qed.

Lemma matches_char_inv `{Unicode} (c : N) (st st' : mstate) :
  matches (RChar c) st st' -> m_step st = Some (c, st').
Proof.
  intros Hm. inv Hm.
  match goal with Hx : (_ =? _)%N = true |- _ => apply N.eqb_eq in Hx; subst end.
  assumption.
Qed.

Lemma matches_eps_inv `{Unicode} (st st' : mstate) :
  matches REps st st' -> st' = st.
Proof. intros Hm. inv Hm. reflexivity. Qed.

Lemma matches_wordb_inv `{Unicode} (st st' : mstate) :
  matches RWordB st st' -> st' = st.
Proof. intros Hm. inv Hm. reflexivity. Qed.

Lemma matches_group_inv `{Unicode} (n : nat) (a : regex) (st st' : mstate) :
  matches (RGroup n a) st st' ->
  exists st1,
    matches a st st1
    /\ m_caps st' = (n, consumed st st1) :: m_caps st1.
Proof. intros Hm. inv Hm. eexists. split; [eassumption | reflexivity]. Qed.

Lemma one_of_01 (x : N) : one_of "01" x = true -> x = 48%N \/ x = 49%N.
Proof.
  unfold one_of. cbn [u list_ascii_of_string map existsb].
  intros Hp. repeat (apply orb_true_iff in Hp; destruct Hp as [Hp|Hp]);
    try discriminate Hp; apply N.eqb_eq in Hp; subst; auto.
Qed.

Lemma in_range_digits (hi : string) (h : N) (x : N) :
  u hi = [h] -> (h <= 57)%N ->
  in_range "0" hi x = true -> (48 <= x <= h)%N.
Proof.
  unfold in_range. intros -> Hh. cbn [u list_ascii_of_string map].
  intros Hp. apply andb_true_iff in Hp. destruct Hp as [Hlo Hhi].
  apply N.leb_le in Hlo, Hhi. split; [exact Hlo | exact Hhi].
Qed.

Lemma hour_value `{Unicode} (st st' : mstate) :
  decimal_digits -> matches hour_re st st' ->
  m_caps st' = m_caps st
  /\ (0 <= int_of_digits (consumed st st') <= 23)%Z.
Proof.
  intros [Hdec Hascii] Hm.
  split; [apply (matches_caps _ _ _ Hm); reflexivity|].
  unfold hour_re, ROpt, RDigit in Hm.
  apply matches_alt_inv in Hm. destruct Hm as [Hm | Hm];
    apply matches_seq_inv in Hm; destruct Hm as [st1 [Ha Hb]].
  - (* [01]?\d *)
    apply matches_set_inv in Hb. destruct Hb as [y [Hy Hdy]].
    pose proof (Hdec y Hdy) as Hry.
    apply matches_alt_inv in Ha. destruct Ha as [Ha | Ha].
    + apply matches_set_inv in Ha. destruct Ha as [x [Hx Hpx]].
      rewrite (two_steps_consumed _ _ _ _ _ Hx Hy).
      unfold int_of_digits. cbn [fold_left].
      destruct (one_of_01 x Hpx) as [-> | ->]; rewrite Hascii by lia; lia.
    + apply matches_eps_inv in Ha. subst st1.
      rewrite (step_consumed _ _ _ Hy).
      unfold int_of_digits. cbn [fold_left]. lia.
  - (* 2[0-3] *)
    apply matches_char_inv in Ha.
    apply matches_set_inv in Hb. destruct Hb as [y [Hy Hpy]].
    rewrite (two_steps_consumed _ _ _ _ _ Ha Hy).
    apply (in_range_digits "3" 51 y eq_refl) in Hpy; [|lia].
    unfold int_of_digits. cbn [fold_left].
    rewrite !Hascii by lia. lia.
Qed.

Lemma minute_value `{Unicode} (st st' : mstate) :
  decimal_digits -> matches minute_re st st' ->
  m_caps st' = m_caps st
  /\ consumed st st' <> []
  /\ (0 <= int_of_digits (consumed st st') <= 59)%Z.
Proof.
  intros [Hdec Hascii] Hm.
  split; [apply (matches_caps _ _ _ Hm); reflexivity|].
  unfold minute_re, RDigit in Hm.
  apply matches_seq_inv in Hm. destruct Hm as [st1 [Ha Hb]].
  apply matches_set_inv in Ha. destruct Ha as [x [Hx Hpx]].
  apply matches_set_inv in Hb. destruct Hb as [y [Hy Hdy]].
  pose proof (Hdec y Hdy) as Hry.
  rewrite (two_steps_consumed _ _ _ _ _ Hx Hy).
  split; [discriminate|].
  apply (in_range_digits "5" 53 x eq_refl) in Hpx; [|lia].
  unfold int_of_digits. cbn [fold_left].
  rewrite (Hascii x) by lia. lia.
Qed.

(** The groups of a match of either time pattern: group 1 holds an hour
    from 0 to 23; group 2 is absent or holds a minute from 0 to 59. *)
Lemma time_groups `{Unicode} (r : regex) (st0 e : mstate) :
  decimal_digits -> r = time_h_re \/ r = time_colon_re ->
  m_caps st0 = [] -> matches r st0 e ->
  exists hour,
    cap_get 1 (m_caps e) = Some hour
    /\ (0 <= int_of_digits hour <= 23)%Z
    /\ (cap_get 2 (m_caps e) = None
        \/ exists minute,
             cap_get 2 (m_caps e) = Some minute /\ minute <> []
             /\ (0 <= int_of_digits minute <= 59)%Z).
Proof.
  intros Hd Hr Hc0 Hm. destruct Hr as [-> | ->].
  - unfold time_h_re in Hm. cbn [RSeqs] in Hm.
    apply matches_seq_inv in Hm. destruct Hm as [st1 [Hb1 Hm]].
    apply matches_wordb_inv in Hb1. subst st1.
    apply matches_seq_inv in Hm. destruct Hm as [st2 [Hg1 Hm]].
    apply matches_group_inv in Hg1. destruct Hg1 as [st1' [Hh Hc2]].
    destruct (hour_value _ _ Hd Hh) as [Hc1 Hhour].
    apply matches_seq_inv in Hm. destruct Hm as [st3 [Hs Hm]].
    apply matches_caps in Hs; [|reflexivity].
    apply matches_seq_inv in Hm. destruct Hm as [st4 [Hch Hm]].
    apply matches_caps in Hch; [|reflexivity].
    apply matches_seq_inv in Hm. destruct Hm as [st5 [Ho Hb2]].
    apply matches_wordb_inv in Hb2. subst e.
    assert (Hc4 : m_caps st4 = [(1%nat, consumed st0 st1')]) by congruence.
    exists (consumed st0 st1').
    unfold ROpt in Ho. apply matches_alt_inv in Ho. destruct Ho as [Ho | Ho].
    + apply matches_seq_inv in Ho. destruct Ho as [st6 [Hs2 Hg2]].
      apply matches_caps in Hs2; [|reflexivity].
      apply matches_group_inv in Hg2. destruct Hg2 as [st7 [Hmin Hc5]].
      destruct (minute_value _ _ Hd Hmin) as [Hc7 [Hne Hminute]].
      rewrite Hc5, Hc7, Hs2, Hc4. cbn [cap_get Nat.eqb].
      split; [reflexivity|]. split; [exact Hhour|].
      right. eexists. split; [reflexivity|]. split; assumption.
    + apply matches_eps_inv in Ho. subst st5. rewrite Hc4. cbn [cap_get Nat.eqb].
      split; [reflexivity|]. split; [exact Hhour|]. left. reflexivity.
  - unfold time_colon_re in Hm. cbn [RSeqs] in Hm.
    apply matches_seq_inv in Hm. destruct Hm as [st1 [Hb1 Hm]].
    apply matches_wordb_inv in Hb1. subst st1.
    apply matches_seq_inv in Hm. destruct Hm as [st2 [Hg1 Hm]].
    apply matches_group_inv in Hg1. destruct Hg1 as [st1' [Hh Hc2]].
    destruct (hour_value _ _ Hd Hh) as [Hc1 Hhour].
    apply matches_seq_inv in Hm. destruct Hm as [st3 [Hch Hm]].
    apply matches_caps in Hch; [|reflexivity].
    apply matches_seq_inv in Hm. destruct Hm as [st4 [Hg2 Hb2]].
    apply matches_wordb_inv in Hb2. subst e.
    apply matches_group_inv in Hg2. destruct Hg2 as [st5 [Hmin Hc4]].
    destruct (minute_value _ _ Hd Hmin) as [Hc5 [Hne Hminute]].
    exists (consumed st0 st1').
    rewrite Hc4, Hc5, Hch, Hc2, Hc1, Hc0. cbn [cap_get Nat.eqb].
    split; [reflexivity|]. split; [exact Hhour|].
    right. eexists. split; [reflexivity|]. split; assumption.
Qed.

Lemma format_d_two (n : Z) :
  (0 <= n <= 59)%Z -> length (format_d 2 n) = 2%nat.
Proof.
  intros Hn.
  assert (Hall : forallb (fun k => (length (format_d 2 (Z.of_nat k)) =? 2)%nat)
                   (seq 0 60) = true) by (vm_compute; reflexivity).
  rewrite forallb_forall in Hall.
  specialize (Hall (Z.to_nat n)). rewrite Z2Nat.id in Hall by lia.
  apply Nat.eqb_eq, Hall, in_seq. lia.
Qed.

(** X21. A time that [extract_time] returns is a time of day: the hour, from
    0 to 23, and the minute, from 0 to 59, each written with two digits,
    with a colon between them - five characters. The Unicode database is
    asked for two facts: a decimal character has a digit value from 0 to 9,
    and the ASCII digits have their usual values. *)
Theorem extract_time_well_formed `{Unicode} (text t : str) :
  decimal_digits ->
  extract_time text = Some t ->
  exists hour minute,
    (0 <= hour <= 23)%Z /\ (0 <= minute <= 59)%Z
    /\ t = format_d 2 hour ++ u ":" ++ format_d 2 minute
    /\ length t = 5%nat.
Proof.
  intros Hd. unfold extract_time.
  assert (Hfmt : forall hour minute,
            (0 <= hour <= 23)%Z -> (0 <= minute <= 59)%Z ->
            exists hour' minute',
              (0 <= hour' <= 23)%Z /\ (0 <= minute' <= 59)%Z
              /\ format_d 2 hour ++ u ":" ++ format_d 2 minute
                 = format_d 2 hour' ++ u ":" ++ format_d 2 minute'
              /\ length (format_d 2 hour ++ u ":" ++ format_d 2 minute) = 5%nat).
  { intros hour minute Hh Hm. exists hour, minute.
    split; [exact Hh|]. split; [exact Hm|]. split; [reflexivity|].
    rewrite !length_app, !format_d_two by lia. reflexivity. }
  destruct (first_search [time_h_re; time_colon_re] text) as [m|] eqn:Es.
  - assert (Hm : exists r st0,
               (r = time_h_re \/ r = time_colon_re)
               /\ m_caps st0 = [] /\ matches r st0 (mo_end m)).
    { cbn [first_search] in Es.
      destruct (search time_h_re text) as [m1|] eqn:E1.
      - injection Es as ->. apply search_sound in E1.
        destruct E1 as [st0 [Hc Hm]]. exists time_h_re, st0. auto.
      - destruct (search time_colon_re text) as [m2|] eqn:E2; [|discriminate Es].
        injection Es as ->. apply search_sound in E2.
        destruct E2 as [st0 [Hc Hm]]. exists time_colon_re, st0. auto. }
    destruct Hm as [r [st0 [Hr [Hc Hm]]]].
    destruct (time_groups r st0 (mo_end m) Hd Hr Hc Hm)
      as [hour [Hg1 [Hhour Hg2]]].
    unfold group_or_empty, mo_group. rewrite Hg1.
    intros E. injection E as <-.
    destruct Hg2 as [-> | [minute [-> [Hne Hminute]]]].
    + apply Hfmt; [exact Hhour | lia].
    + destruct minute as [|c w]; [congruence|]. apply Hfmt; assumption.
  - destruct (contains (u "matin") text).
    { intros E. injection E as <-. exists 9%Z, 0%Z.
      split; [lia|]. split; [lia|]. split; reflexivity. }
    destruct (contains (u "soir") text); [|discriminate].
    intros E. injection E as <-. exists 20%Z, 0%Z.
    split; [lia|]. split; [lia|]. split; reflexivity.
Qed.

Lemma extract_time_well_formed_witness :
  decimal_digits
  /\ extract_time (u "rappelle moi a 7 h 05 le docteur") = Some (u "07:05")
  /\ exists hour minute,
       (0 <= hour <= 23)%Z /\ (0 <= minute <= 59)%Z
       /\ u "07:05" = format_d 2 hour ++ u ":" ++ format_d 2 minute
       /\ length (u "07:05") = 5%nat.
Proof.
  assert (Hd : decimal_digits).
  { split.
    - intros c Hc. cbn in Hc |- *. unfold ascii_digit in Hc.
      apply andb_true_iff in Hc. destruct Hc as [Hlo Hhi].
      apply N.leb_le in Hlo, Hhi. lia.
    - intros c Hc. reflexivity. }
  assert (E : extract_time (u "rappelle moi a 7 h 05 le docteur")
              = Some (u "07:05")) by (vm_compute; reflexivity).
  split; [exact Hd|]. split; [exact E|].
  exact (extract_time_well_formed _ _ Hd E).
Defined.

(** ** The contact *)

Lemma infix_refl (s : str) : infix_of s s.
Proof. exists [], []. rewrite app_nil_r. reflexivity. Qed.

Lemma infix_trans (p q s : str) : infix_of p q -> infix_of q s -> infix_of p s.
Proof.
  intros [a [b ->]] [c [d ->]]. exists (c ++ a), (b ++ d).
  rewrite <- !app_assoc. reflexivity.
Qed.

Lemma lstrip_suffix (s : str) : exists a, s = a ++ lstrip s.
Proof.
  induction s as [|c s [a IH]]; [exists []; reflexivity|].
  cbn [lstrip]. destruct (isspace c).
  - exists (c :: a). cbn [app]. rewrite <- IH. reflexivity.
  - exists []. reflexivity.
Qed.

Lemma strip_infix (s : str) : infix_of (strip s) s.
Proof.
  unfold strip, rstrip.
  destruct (lstrip_suffix s) as [a Ha].
  destruct (lstrip_suffix (rev (lstrip s))) as [b Hb].
  exists a, (rev b).
  apply (f_equal (@rev N)) in Hb. rewrite rev_involutive, rev_app_distr in Hb.
  rewrite <- Hb. exact Ha.
Qed.

Lemma infix_forallb (p : N -> bool) (w s : str) :
  infix_of w s -> forallb p s = true -> forallb p w = true.
Proof.
  intros [a [b ->]]. rewrite !forallb_app.
  intros Hs. apply andb_true_iff in Hs. destruct Hs as [_ Hs].
  apply andb_true_iff in Hs. apply Hs.
Qed.

(** The first piece that [re.split] returns is a prefix of the text. *)
Lemma split_go_re_head `{Unicode} (r : regex) (groups : list nat) (fuel : nat) :
  forall must_advance piece st,
    exists b,
      rev piece ++ m_rest st
      = hd [] (split_go_re r groups fuel must_advance piece st) ++ b.
Proof.
  induction fuel as [|fuel IH]; intros must_advance piece st;
    cbn [split_go_re].
  - exists []. cbn [hd]. rewrite app_nil_r. reflexivity.
  - destruct (match_here r must_advance st) as [e|].
    + exists (m_rest st). reflexivity.
    + destruct (m_step st) as [[c st']|] eqn:Es.
      * apply m_step_spec in Es. destruct Es as [Hr _].
        destruct (IH false (c :: piece) st') as [b Hb].
        exists b. rewrite <- Hb, Hr. cbn [rev]. rewrite <- app_assoc.
        reflexivity.
      * exists (m_rest st). reflexivity.
Qed.

Lemma re_split_head_infix `{Unicode} (r : regex) (groups : list nat) (s : str) :
  infix_of (hd [] (re_split r groups s)) s.
Proof.
  unfold re_split.
  destruct (split_go_re_head r groups (2 * length s + 2) false [] (m_start s))
    as [b Hb].
  exists [], b. exact Hb.
Qed.

Lemma star_set_consumed `{Unicode} (p : N -> bool) (st st' : mstate) :
  matches (RStar (RSet p)) st st' -> forallb p (consumed st st') = true.
Proof.
  intros Hm. remember (RStar (RSet p)) as r eqn:Er.
  induction Hm as [| | | | | | a st
                  | a st st1 st2 Ha _ Hs IH | | |]; try discriminate Er.
  - unfold consumed. rewrite Nat.sub_diag. reflexivity.
  - injection Er as ->. specialize (IH eq_refl).
    apply matches_set_inv in Ha. destruct Ha as [x [Hx Hpx]].
    pose proof (consumed_spec _ _ _ Hs) as Hr1.
    destruct (matches_advance _ _ _ Hs) as [w [_ Hp1]].
    apply m_step_spec in Hx. destruct Hx as [Hr [Hp _]].
    unfold consumed in *. rewrite Hp1, Hp, Hr.
    replace (S (m_pos st) + length w - m_pos st)%nat
      with (S (m_pos st1 + length w - m_pos st1))%nat by lia.
    cbn [firstn forallb]. rewrite Hpx. rewrite Hp1 in IH. exact IH.
Qed.

Lemma search_from_text `{Unicode} (r : regex) (fuel : nat) :
  forall must_advance st m,
    search_from r fuel must_advance st = Some m ->
    exists st0,
      m_caps st0 = [] /\ matches r st0 (mo_end m)
      /\ exists a, m_rest st = a ++ m_rest st0.
Proof.
  assert (Hhere : forall must_advance st e,
            match_here r must_advance st = Some e ->
            exists st0, m_caps st0 = [] /\ matches r st0 e
                        /\ exists a, m_rest st = a ++ m_rest st0).
  { intros must_advance st e E. unfold match_here in E.
    apply rmatch_sound in E. destruct E as [st' [Hm Hk]].
    destruct (must_advance && _); [discriminate Hk|]. injection Hk as ->.
    eexists. split; [|split; [exact Hm|]]; [reflexivity|].
    exists []. reflexivity. }
  induction fuel as [|fuel IH]; intros must_advance st m E; cbn [search_from] in E.
  - destruct (match_here r must_advance st) as [e|] eqn:Eh; [|discriminate E].
    injection E as <-. apply (Hhere _ _ _ Eh).
  - destruct (match_here r must_advance st) as [e|] eqn:Eh.
    + injection E as <-. apply (Hhere _ _ _ Eh).
    + destruct (m_step st) as [[x st']|] eqn:Es; [|discriminate E].
      apply IH in E. destruct E as [st0 [Hc [Hm [a Ha]]]].
      apply m_step_spec in Es. destruct Es as [Hr _].
      exists st0. split; [exact Hc|]. split; [exact Hm|].
      exists (x :: a). rewrite Hr, Ha. reflexivity.
Qed.

(** Group 1 of a match of the contact pattern in [text]: a piece of [text]
    made of contact characters. *)
Lemma contact_group `{Unicode} (text : str) (m : rmatch_obj) :
  search contact_re text = Some m ->
  exists w,
    mo_group m 1 = Some w /\ infix_of w text
    /\ forallb contact_char w = true.
Proof.
  intros E. apply search_from_text in E.
  destruct E as [st0 [Hc [Hm [a Ha]]]]. cbn [m_start m_rest] in Ha.
  unfold contact_re in Hm. cbn [RSeqs] in Hm.
  apply matches_seq_inv in Hm. destruct Hm as [st1 [Hlit Hm]].
  apply matches_seq_inv in Hm. destruct Hm as [st2 [Hsp Hg]].
  apply matches_group_inv in Hg. destruct Hg as [st3 [Hw Hcaps]].
  exists (consumed st2 st3). unfold mo_group. rewrite Hcaps.
  split; [reflexivity|]. split.
  - destruct (matches_advance _ _ _ Hlit) as [w1 [Hr1 _]].
    destruct (matches_advance _ _ _ Hsp) as [w2 [Hr2 _]].
    pose proof (consumed_spec _ _ _ Hw) as Hr3.
    exists (a ++ w1 ++ w2), (m_rest st3).
    rewrite Ha, Hr1, Hr2, Hr3 at 1. rewrite <- !app_assoc. reflexivity.
  - unfold RPlus in Hw. apply matches_seq_inv in Hw.
    destruct Hw as [st2' [Hfirst Hstar]].
    apply matches_set_inv in Hfirst. destruct Hfirst as [x [Hx Hpx]].
    pose proof (star_set_consumed _ _ _ Hstar) as Hall.
    destruct (matches_advance _ _ _ Hstar) as [w [_ Hp]].
    apply m_step_spec in Hx. destruct Hx as [Hr [Hp2 _]].
    unfold consumed in *. rewrite Hp, Hp2, Hr.
    replace (S (m_pos st2) + length w - m_pos st2)%nat
      with (S (m_pos st2' + length w - m_pos st2'))%nat by lia.
    cbn [firstn forallb]. rewrite Hp in Hall.
    apply andb_true_iff. split; [exact Hpx | exact Hall].
Qed.

(** X22. A contact that [extract_contact] returns is never made up: it is
    not empty and it occurs in the text; and it is either one of the
    contact hints, or a run of the characters [[a-zA-Z0-9' -]] without
    white space at either end. *)
Theorem extract_contact_from_text `{Unicode} (text contact : str) :
  extract_contact text = Some contact ->
  contact <> [] /\ contains contact text = true
  /\ (In contact CONTACT_HINTS
      \/ strip contact = contact /\ forallb contact_char contact = true).
Proof.
  unfold extract_contact.
  assert (Hhint : find (fun hint => contains hint text) CONTACT_HINTS
                  = Some contact ->
                  contact <> [] /\ contains contact text = true
                  /\ (In contact CONTACT_HINTS
                      \/ strip contact = contact
                         /\ forallb contact_char contact = true)).
  { intros Hf. apply find_some in Hf. destruct Hf as [Hin Hc].
    split; [|split; [exact Hc | left; exact Hin]].
    assert (Hall : forallb (fun n => negb (str_eqb n [])) CONTACT_HINTS = true)
      by reflexivity.
    rewrite forallb_forall in Hall.
    apply str_eqb_neq, negb_true_iff, Hall, Hin. }
  destruct (search contact_re text) as [m|] eqn:Es; [|exact Hhint].
  destruct (contact_group text m Es) as [w [Hg [Hinf Hall]]].
  unfold group_or_empty. rewrite Hg.
  set (candidate := strip (hd [] (re_split contact_stop_re [1%nat] (strip w)))).
  assert (Hcand : infix_of candidate w).
  { unfold candidate.
    eapply infix_trans; [apply strip_infix|].
    eapply infix_trans; [apply re_split_head_infix | apply strip_infix]. }
  destruct candidate as [|c body] eqn:Ec; [exact Hhint|].
  intros E. injection E as <-.
  split; [discriminate|]. split.
  - apply contains_infix. apply (infix_trans _ _ _ Hcand Hinf).
  - right. split.
    + rewrite <- Ec. unfold candidate. apply strip_idem.
    + apply (infix_forallb _ _ _ Hcand Hall).
Qed.

Lemma extract_contact_from_text_witness :
  extract_contact (u "appelle  mon fils demain") = Some (u "mon fils")
  /\ u "mon fils" <> []
  /\ contains (u "mon fils") (u "appelle  mon fils demain") = true
  /\ (In (u "mon fils") CONTACT_HINTS
      \/ strip (u "mon fils") = u "mon fils"
         /\ forallb contact_char (u "mon fils") = true).
Proof.
  assert (E : extract_contact (u "appelle  mon fils demain")
              = Some (u "mon fils")) by (vm_compute; reflexivity).
  split; [exact E|].
  exact (extract_contact_from_text _ _ E).
Defined.

End MatchFacts.

(* ===================================================================== *)
(** * The route *)
(* ===================================================================== *)

Module RouteFacts.
Import Py PyFacts Exn Date IntentModel SpeechModel App Spec Route.

#[local] Existing Instance ascii_tables.

Lemma rfind_from_spec (c : N) (s : str) :
  forall i, (0 <= i)%Z ->
    (rfind_from c s i = (-1)%Z /\ ~ In c s)
    \/ exists a b,
         s = a ++ c :: b /\ ~ In c b
         /\ rfind_from c s i = (i + Z.of_nat (length a))%Z.
Proof.
  induction s as [|x s IH]; intros i Hi.
  - left. split; [reflexivity | intros []].
  - cbn [rfind_from].
    destruct (IH (i + 1)%Z ltac:(lia)) as [[Hr Hn] | [a [b [-> [Hb Hr]]]]].
    + rewrite Hr. change (0 <=? -1)%Z with false. cbv iota.
      destruct (x =? c)%N eqn:Ex.
      * apply N.eqb_eq in Ex. subst x. right. exists [], s.
        split; [reflexivity|]. split; [exact Hn | cbn; lia].
      * apply N.eqb_neq in Ex. left. split; [reflexivity|].
        intros [He | Hin]; [congruence | contradiction].
    + right. exists (x :: a), b. split; [reflexivity|]. split; [exact Hb|].
      rewrite Hr.
      destruct (0 <=? i + 1 + Z.of_nat (length a))%Z eqn:E;
        [|apply Z.leb_gt in E; lia].
      cbn [length]. lia.
Qed.

Lemma rfind_spec (c : N) (s : str) :
  (rfind c s = (-1)%Z /\ ~ In c s)
  \/ exists a b,
       s = a ++ c :: b /\ ~ In c b /\ rfind c s = Z.of_nat (length a).
Proof.
  unfold rfind. destruct (rfind_from_spec c s 0 ltac:(lia))
    as [H | [a [b [Hs [Hb Hr]]]]]; [left; exact H|].
  right. exists a, b. split; [exact Hs|]. split; [exact Hb | lia].
Qed.

Lemma skipn_In {A} (n : nat) (l : list A) (x : A) :
  In x (skipn n l) -> In x l.
Proof.
  intros Hin. rewrite <- (firstn_skipn n l). apply in_or_app. right. exact Hin.
Qed.

(** The extension that [os.path.splitext] splits off is empty, or a dot
    followed by characters none of which is a dot or a slash; and the two
    parts make up the path. *)
Lemma splitext_spec (p : str) :
  fst (splitext p) ++ snd (splitext p) = p
  /\ (snd (splitext p) = []
      \/ exists ext,
           snd (splitext p) = 46%N :: ext
           /\ ~ In 46%N ext /\ ~ In 47%N ext).
Proof.
  unfold splitext.
  destruct ((rfind 47 p <? rfind 46 p)%Z && _) eqn:E; cbn [fst snd].
  2: { split; [apply app_nil_r | left; reflexivity]. }
  split; [apply firstn_skipn|]. right.
  apply andb_true_iff in E. destruct E as [Hlt _]. apply Z.ltb_lt in Hlt.
  destruct (rfind_spec 46 p) as [[Hd _] | [a [b [Hp [Hb Hd]]]]].
  { destruct (rfind_spec 47 p) as [[Hs _] | [a' [b' [_ [_ Hs]]]]]; lia. }
  exists b. rewrite Hd, Nat2Z.id.
  split.
  { rewrite Hp at 1. rewrite skipn_app, Nat.sub_diag, skipn_all2 by lia.
    reflexivity. }
  split; [exact Hb|].
  destruct (rfind_spec 47 p) as [[_ Hn] | [a' [b' [Hp' [Hb' Hs]]]]].
  - intros Hin. apply Hn. rewrite Hp. apply in_or_app. right. right. exact Hin.
  - intros Hin. apply Hb'.
    assert (Hlen : (length a' < length a)%nat) by lia.
    assert (Eb : b = skipn (length a - length a') b').
    { assert (E1 : skipn (S (length a)) p = b).
      { rewrite Hp at 1. rewrite skipn_app, skipn_all2 by lia.
        replace (S (length a) - length a)%nat with 1%nat by lia. reflexivity. }
      assert (E2 : skipn (S (length a')) p = b').
      { rewrite Hp' at 1. rewrite skipn_app, skipn_all2 by lia.
        replace (S (length a') - length a')%nat with 1%nat by lia. reflexivity. }
      rewrite <- E1, <- E2, skipn_skipn. f_equal. lia. }
    rewrite Eb in Hin. apply (skipn_In _ _ _ Hin).
Qed.

(** X23. The suffix that the route gives to the temporary file is never
    empty: it is a dot followed by characters none of which is a dot or a
    slash. It is [.wav] when the upload has no name, an empty name, or a
    name without an extension. *)
Theorem suffix_of_extension (audio : upload) :
  (exists ext,
     suffix_of audio = 46%N :: ext /\ ~ In 46%N ext /\ ~ In 47%N ext)
  /\ (match up_filename audio with
      | None | Some [] => True
      | Some name => snd (splitext name) = []
      end -> suffix_of audio = u ".wav").
Proof.
  unfold suffix_of.
  set (filename := match up_filename audio with
                   | Some (c :: name) => c :: name
                   | _ => u "input.wav"
                   end).
  split.
  - destruct (splitext_spec filename) as [_ [He | [ext [He Hext]]]];
      rewrite He; cbn [str_or].
    + exists (u "wav"). split; [reflexivity|].
      split; vm_compute; intuition discriminate.
    + exists ext. split; [reflexivity | exact Hext].
  - unfold filename. destruct (up_filename audio) as [[|c name]|];
      [reflexivity | | reflexivity].
    intros ->. reflexivity.
Qed.


End RouteFacts.
